(** * Amplitude addressing and state updates of the MOSQ statevector simulator

    Shallow embedding of
    - [qiskit-aer/src/simulators/statevector/indexes.hpp]: the bit-mask
      tables, [index0], the two [indexes] functions, the [apply_lambda]
      traversals (with their strided and MOSQ variants) and the sequential
      reductions;
    - [src_code_MOSQ/statevector_state.hpp]: [vec2density],
      [apply_save_density_matrix], [measure_reset_update], [apply_kraus],
      measurement, reset and sampling, [apply_save_amplitudes], the gate
      table with [apply_gate], and the dispatch of [apply_op].

    Conventions.
    - [uint_t] is a [Z] in [[0, 2^64)]; the truncation of a left shift to
      64 bits is written out ([wrap64]).  [int_t] is a [Z] in
      [[-2^63, 2^63)].
    - A qubit position (an entry of a [reg_t] used as a table index or a
      shift amount) is a [nat].
    - Reading a table or an array outside its bounds has no defined result in
      C++; such a run is [None].
    - Shifting a 64-bit value by 64 bits or more has no defined result
      either: the right shifts [stop >> NUM_QUBITS] of the traversals and
      [k >> index] of the MOSQ traversal are [None] for such a count.  Left
      shifts are written as bit-vector shifts ([shl64]), which lose every
      bit for such a count; the properties of the code that shifts left are
      stated for counts below 64, and for [index0] at position 63 (a count
      of 64) where the value shifted is 0, see [index0_step]. *)

From Stdlib Require Import ZArith Lia Ascii.
From stdpp Require Import base option list sorting numbers strings gmap.

Local Open Scope Z_scope.

(** ** Machine integers *)

Definition wrap64 (z : Z) : Z := z mod 2 ^ 64.

(** [a << s] on a [uint_t], as a bit-vector shift: the bits pushed beyond
    position 63 are lost. *)
Definition shl64 (a s : Z) : Z := wrap64 (Z.shiftl a s).

(** Conversion of a [uint_t]/[size_t] to [int_t] (two's complement). *)
Definition to_int64 (z : Z) : Z :=
  if wrap64 z <? 2 ^ 63 then wrap64 z else wrap64 z - 2 ^ 64.

(** ** Bit-mask tables *)

Definition BITS : list Z :=
  [1; 2; 4; 8; 16; 32; 64; 128; 256; 512; 1024; 2048; 4096; 8192; 16384;
   32768; 65536; 131072; 262144; 524288; 1048576; 2097152; 4194304;
   8388608; 16777216; 33554432; 67108864; 134217728; 268435456; 536870912;
   1073741824; 2147483648; 4294967296; 8589934592; 17179869184;
   34359738368; 68719476736; 137438953472; 274877906944; 549755813888;
   1099511627776; 2199023255552; 4398046511104; 8796093022208;
   17592186044416; 35184372088832; 70368744177664; 140737488355328;
   281474976710656; 562949953421312; 1125899906842624; 2251799813685248;
   4503599627370496; 9007199254740992; 18014398509481984;
   36028797018963968; 72057594037927936; 144115188075855872;
   288230376151711744; 576460752303423488; 1152921504606846976;
   2305843009213693952; 4611686018427387904; 9223372036854775808].

Definition MASKS : list Z :=
  [0; 1; 3; 7; 15; 31; 63; 127; 255; 511; 1023; 2047; 4095; 8191; 16383;
   32767; 65535; 131071; 262143; 524287; 1048575; 2097151; 4194303;
   8388607; 16777215; 33554431; 67108863; 134217727; 268435455; 536870911;
   1073741823; 2147483647; 4294967295; 8589934591; 17179869183;
   34359738367; 68719476735; 137438953471; 274877906943; 549755813887;
   1099511627775; 2199023255551; 4398046511103; 8796093022207;
   17592186044415; 35184372088831; 70368744177663; 140737488355327;
   281474976710655; 562949953421311; 1125899906842623; 2251799813685247;
   4503599627370495; 9007199254740991; 18014398509481983;
   36028797018963967; 72057594037927935; 144115188075855871;
   288230376151711743; 576460752303423487; 1152921504606846975;
   2305843009213693951; 4611686018427387903; 9223372036854775807].

(** ** Loops and arrays *)

(** [for (i = lo; count-- > 0; i++) s = body(i, s)], stopping at the first
    undefined step. *)
Fixpoint for_loop {S : Type} (body : nat → S → option S)
    (lo count : nat) (s : S) : option S :=
  match count with
  | O => Some s
  | Datatypes.S c => s' ← body lo s; for_loop body (Datatypes.S lo) c s'
  end.

(** [a[i] = v] on an array of fixed length. *)
Definition store {A : Type} (a : list A) (i : nat) (v : A) : option (list A) :=
  if decide (i < length a)%nat then Some (<[i:=v]> a) else None.

(** ** index0 *)

(** One iteration of the loop of [index0].  For [q = 63] the last shift is by
    64 bits, which C++ leaves undefined; the value shifted is then
    [retval >> 63], and where that is 0 (as for every reduced index below
    [2^(M-N)] with [M <= 64]) the step gives [lowbits] however the shift is
    carried out.  The properties of [index0] and of the blocks below are
    stated within that range. *)
Definition index0_step (q : nat) (retval : Z) : option Z :=
  mask ← MASKS !! q;
  let lowbits := Z.land retval mask in
  let retval := Z.shiftr retval (Z.of_nat q) in
  let retval := shl64 retval (Z.of_nat q + 1) in
  Some (Z.lor retval lowbits).

Fixpoint index0_loop (qubits_sorted : list nat) (retval : Z) : option Z :=
  match qubits_sorted with
  | [] => Some retval
  | q :: rest => retval' ← index0_step q retval; index0_loop rest retval'
  end.

Definition index0 (qubits_sorted : list nat) (k : Z) : option Z :=
  index0_loop qubits_sorted k.

(** ** indexes *)

(** [for (j = 0; j < n; j++) ret[n + j] = ret[j] | bit]. *)
Definition indexes_inner (n : nat) (bit : Z) (ret : list Z) : option (list Z) :=
  for_loop (fun j ret => v ← ret !! j; store ret (n + j) (Z.lor v bit)) 0 n ret.

(** The body of the loop over [i]. *)
Definition indexes_outer (qubits : list nat) (i : nat) (ret : list Z)
    : option (list Z) :=
  n ← BITS !! i;
  q ← qubits !! i;
  bit ← BITS !! q;
  indexes_inner (Z.to_nat n) bit ret.

(** The variable-size function: the block is allocated with [BITS[N]]
    entries (modelled as zeros until written). *)
Definition indexes (qubits qubits_sorted : list nat) (k : Z) : option (list Z) :=
  let N := length qubits_sorted in
  size ← BITS !! N;
  let ret := replicate (Z.to_nat size) 0 in
  i0 ← index0 qubits_sorted k;
  ret ← store ret 0 i0;
  for_loop (indexes_outer qubits) 0 N ret.

(** The fixed-size function [indexes<N>]: both lists are [areg_t<N>] and the
    block is an [areg_t<1ULL << N>]. *)
Definition indexes_fixed (N : nat) (qs qubits_sorted : list nat) (k : Z)
    : option (list Z) :=
  let ret := replicate (Z.to_nat (shl64 1 (Z.of_nat N))) 0 in
  i0 ← index0 qubits_sorted k;
  ret ← store ret 0 i0;
  for_loop (indexes_outer qs) 0 N ret.

(** ** Traversals of [indexes.hpp] *)

(** [std::sort] on a list of qubit positions. *)
Definition sort (qubits : list nat) : list nat := merge_sort Nat.le qubits.

(** [for (int_t k = lo; count-- > 0; k++) s = body(k, s)]. *)
Fixpoint for_loopZ {S : Type} (body : Z → S → option S)
    (lo : Z) (count : nat) (s : S) : option S :=
  match count with
  | O => Some s
  | Datatypes.S c => s' ← body lo s; for_loopZ body (lo + 1) c s'
  end.

(** The units of work of an OpenMP [parallel for], run one after the other in
    the order [ks]. *)
Fixpoint run_units {S : Type} (body : Z → S → option S)
    (ks : list Z) (s : S) : option S :=
  match ks with
  | [] => Some s
  | k :: rest => s' ← body k s; run_units body rest s'
  end.

Section Traversal.
Context {S : Type}.

(** The body of both loops of [apply_lambda(start, stop, omp_threads, func,
    qubits)]; the [int_t k] is passed to [indexes] as a [uint_t]. *)
Definition apply_lambda_body (func : list Z → S → S)
    (qubits qubits_sorted : list nat) (k : Z) (s : S) : option S :=
  inds ← indexes qubits qubits_sorted (wrap64 k);
  Some (func inds s).

(** The sequential branch.  [stop >> NUM_QUBITS] shifts a 64-bit value: with
    64 qubits or more the shift has no defined result, and neither has the
    run. *)
Definition apply_lambda_seq (start stop : Z) (func : list Z → S → S)
    (qubits : list nat) (s : S) : option S :=
  let NUM_QUBITS := length qubits in
  if decide (NUM_QUBITS < 64)%nat then
    let END := to_int64 (Z.shiftr stop (Z.of_nat NUM_QUBITS)) in
    let qubits_sorted := sort qubits in
    let k0 := to_int64 start in
    for_loopZ (apply_lambda_body func qubits qubits_sorted) k0
      (Z.to_nat (END - k0)) s
  else None.

(** [apply_lambda]: with [omp_threads > 1] the same units of work are
    distributed over the threads, in an order that is not fixed. *)
Inductive apply_lambda (start stop omp_threads : Z) (func : list Z → S → S)
    (qubits : list nat) (s : S) : option S → Prop :=
| apply_lambda_sequential :
    omp_threads <= 1 →
    apply_lambda start stop omp_threads func qubits s
      (apply_lambda_seq start stop func qubits s)
| apply_lambda_parallel ks :
    1 < omp_threads →
    (length qubits < 64)%nat →
    ks ≡ₚ seqZ (to_int64 start)
           (to_int64 (Z.shiftr stop (Z.of_nat (length qubits))) - to_int64 start) →
    apply_lambda start stop omp_threads func qubits s
      (run_units (apply_lambda_body func qubits (sort qubits)) ks s)
| apply_lambda_parallel_undefined :
    1 < omp_threads →
    (64 ≤ length qubits)%nat →
    apply_lambda start stop omp_threads func qubits s None.

(** [x != 0], the conversion of an integer to [bool]. *)
Definition bool_of_Z (x : Z) : bool := negb (x =? 0).

(** [parity ^= ((k >> index) & 1)] over the entries of [qubits].  [k] has 64
    bits: the shift by an [index] of 64 or more has no defined result. *)
Fixpoint parity_loop (k : Z) (qubits : list nat) (parity : bool) : option bool :=
  match qubits with
  | [] => Some parity
  | index :: rest =>
      if decide (index < 64)%nat then
        parity_loop k rest
          (bool_of_Z (Z.lxor (Z.b2z parity)
                             (Z.land (Z.shiftr k (Z.of_nat index)) 1)))
      else None
  end.

Definition apply_lambda_MOSQ_body (func : Z → S → S) (qubits : list nat)
    (k : Z) (s : S) : option S :=
  parity_loop k qubits false ≫=
    (fun parity : bool => Some (if parity then func k s else s)).

Definition apply_lambda_MOSQ_seq (start stop : Z) (func : Z → S → S)
    (qubits : list nat) (s : S) : option S :=
  let k0 := to_int64 start in
  for_loopZ (apply_lambda_MOSQ_body func qubits) k0
    (Z.to_nat (to_int64 stop - k0)) s.

Inductive apply_lambda_MOSQ (start stop omp_threads : Z) (func : Z → S → S)
    (qubits : list nat) (s : S) : option S → Prop :=
| apply_lambda_MOSQ_sequential :
    omp_threads <= 1 →
    apply_lambda_MOSQ start stop omp_threads func qubits s
      (apply_lambda_MOSQ_seq start stop func qubits s)
| apply_lambda_MOSQ_parallel ks :
    1 < omp_threads →
    ks ≡ₚ seqZ (to_int64 start) (to_int64 stop - to_int64 start) →
    apply_lambda_MOSQ start stop omp_threads func qubits s
      (run_units (apply_lambda_MOSQ_body func qubits) ks s).
End Traversal.

(** ** The state layer of [statevector_state.hpp] *)

(** [double] and [complex_t] arithmetic.  The operations are those of the
    platform's floating point; the state layer only combines them. *)
Class Numeric := {
  real : Type;
  complex : Type;
  r0 : real;                       (* 0. *)
  r1 : real;                       (* 1. *)
  radd : real → real → real;
  rsub : real → real → real;
  rdiv : real → real → real;
  rsqrt : real → real;             (* std::sqrt *)
  rgt : real → real → bool;        (* > *)
  c0 : complex;                    (* complex_t(0.) *)
  c1 : complex;                    (* complex_t(1.) *)
  of_real : real → complex;        (* complex_t(double) *)
  cadd : complex → complex → complex;
  cmul : complex → complex → complex;
  cconj : complex → complex;       (* std::conj *)
}.

(** [cvector_t], a vector of complex numbers. *)
Abbreviation cvector_t := (list complex).

Section StateLayer.
Context `{Numeric}.

(** Modelled from the spec: the matrix class [cmatrix_t] is not among the
    sources.  The spec reads and writes a density matrix entry by entry
    ([rho[row][col]]) and names its size (1 x 1, [2^N] x [2^N]); a matrix is
    its two dimensions and its entries. *)
Record cmatrix_t := {
  GetRows : nat;
  GetColumns : nat;
  mat_entry : nat → nat → complex;
}.

(** Modelled from the spec: [cmatrix_t(rows, cols)], a matrix of that size;
    every entry that is read later has been written before. *)
Definition mat_new (rows cols : nat) : cmatrix_t :=
  {| GetRows := rows; GetColumns := cols; mat_entry := fun _ _ => c0 |}.

(** Modelled from the spec: the assignment [m(row, col) = v]. *)
Definition mat_set (m : cmatrix_t) (row col : nat) (v : complex) : cmatrix_t :=
  {| GetRows := GetRows m; GetColumns := GetColumns m;
     mat_entry := fun r c =>
       if decide (r = row ∧ c = col) then v else mat_entry m r c |}.

(** The amplitude container ([statevec_t]), the helpers of [Utils] and
    [Chunk] and the random-number engine: the external collaborators. *)
Class Collaborators := {
  statevec_t : Type;
  RngEngine : Type;
  qv_num_qubits : statevec_t → nat;
  qv_chunk_index : statevec_t → Z;
  qv_support_global_indexing : statevec_t → bool;
  qv_norm0 : statevec_t → real;                                   (* norm() *)
  qv_norm : statevec_t → list nat → cvector_t → real;     (* norm(qubits, mat) *)
  qv_apply_matrix : list nat → cvector_t → statevec_t → statevec_t;
  qv_apply_diagonal_matrix : list nat → cvector_t → statevec_t → statevec_t;
  qv_apply_mcx : list nat → statevec_t → statevec_t;
  qv_copy_to_vector : statevec_t → Z → complex;
  rand01 : RngEngine → real * RngEngine;                  (* rng.rand(0., 1.) *)
  vectorize_matrix : cmatrix_t → cvector_t;
  scalar_multiply : cvector_t → real → cvector_t;
  matrix_scale : complex → cmatrix_t → cmatrix_t;         (* renorm * mat *)
  block_diagonal_matrix :
    Z → nat → list nat → cvector_t → list nat * cvector_t;
}.

Context `{Collaborators}.

(** Calls made on the amplitude container, in order. *)
Inductive call :=
| call_norm (qubits : list nat) (vmat : cvector_t)
| call_apply_matrix (qubits : list nat) (vmat : cvector_t)
| call_apply_diagonal_matrix (qubits : list nat) (diag : cvector_t)
| call_apply_mcx (qubits : list nat).

Record State := {
  qreg_ : statevec_t;
  num_global_qubits_ : nat;
  calls : list call;
}.

Definition with_qreg (st : State) (q : statevec_t) (c : call) : State :=
  {| qreg_ := q; num_global_qubits_ := num_global_qubits_ st;
     calls := calls st ++ [c] |}.

(** [BaseState::qreg_.norm(qubits, vmat)]. *)
Definition qreg_norm (qubits : list nat) (vmat : cvector_t) (st : State)
    : real * State :=
  (qv_norm (qreg_ st) qubits vmat,
   with_qreg st (qreg_ st) (call_norm qubits vmat)).

Definition qreg_apply_matrix (qubits : list nat) (vmat : cvector_t)
    (st : State) : State :=
  with_qreg st (qv_apply_matrix qubits vmat (qreg_ st))
    (call_apply_matrix qubits vmat).

Definition qreg_apply_diagonal_matrix (qubits : list nat) (diag : cvector_t)
    (st : State) : State :=
  with_qreg st (qv_apply_diagonal_matrix qubits diag (qreg_ st))
    (call_apply_diagonal_matrix qubits diag).

Definition qreg_apply_mcx (qubits : list nat) (st : State) : State :=
  with_qreg st (qv_apply_mcx qubits (qreg_ st)) (call_apply_mcx qubits).

(** [State::apply_diagonal_matrix]. *)
Definition apply_diagonal_matrix (qubits : list nat) (diag : cvector_t)
    (st : State) : State :=
  if bool_decide (qv_num_qubits (qreg_ st) < num_global_qubits_ st)%nat
     && negb (qv_support_global_indexing (qreg_ st))
  then
    let '(qubits_in, diag_in) :=
      block_diagonal_matrix (qv_chunk_index (qreg_ st))
        (qv_num_qubits (qreg_ st)) qubits diag in
    qreg_apply_diagonal_matrix qubits_in diag_in st
  else qreg_apply_diagonal_matrix qubits diag st.

(** [State::apply_matrix(qubits, vmat)]. *)
Definition apply_matrix (qubits : list nat) (vmat : cvector_t) (st : State)
    : State :=
  if decide (Z.of_nat (length vmat) = shl64 1 (Z.of_nat (length qubits)))
  then apply_diagonal_matrix qubits vmat st
  else qreg_apply_matrix qubits vmat st.

(** *** measure_reset_update *)

(** The loop filling the diagonal of the permutation matrix. *)
Definition perm_diag_body (dim final_state meas_state : Z) (j : nat)
    (perm : cvector_t) : option cvector_t :=
  if decide (Z.of_nat j ≠ final_state ∧ Z.of_nat j ≠ meas_state)
  then store perm (Z.to_nat (wrap64 (Z.of_nat j * dim + Z.of_nat j))) c1
  else Some perm.

Definition measure_reset_update (qubits : list nat)
    (final_state meas_state : Z) (meas_prob : real) (st : State)
    : option State :=
  if decide (length qubits = 1%nat) then
    let mdiag := replicate 2 c0 in
    mdiag ← store mdiag (Z.to_nat meas_state)
               (of_real (rdiv r1 (rsqrt meas_prob)));
    let st := qreg_apply_diagonal_matrix qubits mdiag st in
    if decide (final_state ≠ meas_state)
    then Some (qreg_apply_mcx qubits st)
    else Some st
  else
    let dim := shl64 1 (Z.of_nat (length qubits)) in
    let mdiag := replicate (Z.to_nat dim) c0 in
    mdiag ← store mdiag (Z.to_nat meas_state)
               (of_real (rdiv r1 (rsqrt meas_prob)));
    let st := qreg_apply_diagonal_matrix qubits mdiag st in
    if decide (final_state ≠ meas_state) then
      let perm := replicate (Z.to_nat (wrap64 (dim * dim))) c0 in
      perm ← store perm (Z.to_nat (wrap64 (final_state * dim + meas_state))) c1;
      perm ← store perm (Z.to_nat (wrap64 (meas_state * dim + final_state))) c1;
      perm ← for_loop (perm_diag_body dim final_state meas_state)
               0 (Z.to_nat dim) perm;
      Some (apply_matrix qubits perm st)
    else Some st.

(** *** apply_kraus *)

Inductive exception := invalid_argument.

(** How a call ends: it returns, or an exception leaves it. *)
Inductive completion (A : Type) :=
| Returns (a : A)
| Throws (e : exception).
Global Arguments Returns {A} a.
Global Arguments Throws {A} e.

(** The loop over the first [kmats.size() - 1] operators; the result is
    the state, [accum] and [complete]. *)
Fixpoint kraus_loop (qubits : list nat) (ops : list cmatrix_t)
    (r accum : real) (st : State) : State * real * bool :=
  match ops with
  | [] => (st, accum, false)
  | km :: rest =>
      let vmat := vectorize_matrix km in
      let '(p, st) := qreg_norm qubits vmat st in
      let accum := radd accum p in
      if rgt accum r then
        let vmat := scalar_multiply vmat (rdiv r1 (rsqrt p)) in
        (apply_matrix qubits vmat st, accum, true)
      else kraus_loop qubits rest r accum st
  end.

Definition apply_kraus (qubits : list nat) (kmats : list cmatrix_t)
    (rng : RngEngine) (st : State) : completion (State * RngEngine) :=
  match kmats with
  | [] => Returns (st, rng)
  | k0 :: ks =>
      let '(r, rng) := rand01 rng in
      let '(st, accum, complete) :=
        kraus_loop qubits (take (length kmats - 1) kmats) r r0 st in
      if complete then Returns (st, rng)
      else
        let renorm := of_real (rdiv r1 (rsqrt (rsub r1 accum))) in
        let vmat := vectorize_matrix (matrix_scale renorm (List.last ks k0)) in
        Returns (apply_matrix qubits vmat st, rng)
  end.

(** *** Density extraction *)

(** [for (row) for (col) densmat(row, col) = update(old, vec[inds[row]] *
    conj(vec[inds[col]]))]. *)
Definition block_loop (update : complex → complex → complex)
    (DIM : nat) (vec : Z → complex) (inds : list Z) (densmat : cmatrix_t)
    : option cmatrix_t :=
  for_loop (fun row densmat =>
    for_loop (fun col densmat =>
      ir ← inds !! row;
      ic ← inds !! col;
      Some (mat_set densmat row col
              (update (mat_entry densmat row col)
                      (cmul (vec ir) (cconj (vec ic))))))
      0 DIM densmat)
    0 DIM densmat.

(** [vec2density].  The loop of the first branch may run as an OpenMP
    [parallel for]; its iterations write different entries, and it is run
    here in the order of [rowcol]. *)
Definition vec2density (st : State) (qubits : list nat) (vec : Z → complex)
    : option cmatrix_t :=
  let N := length qubits in
  let DIM := Z.to_nat (shl64 1 (Z.of_nat N)) in
  let qubits_sorted := sort qubits in
  let densmat := mat_new DIM DIM in
  if decide (N = qv_num_qubits (qreg_ st) ∧ qubits = qubits_sorted) then
    mask ← MASKS !! N;
    for_loop (fun rowcol densmat =>
      let row := Z.shiftr (Z.of_nat rowcol) (Z.of_nat N) in
      let col := Z.land (Z.of_nat rowcol) mask in
      Some (mat_set densmat (Z.to_nat row) (Z.to_nat col)
              (cmul (vec row) (cconj (vec col)))))
      0 (Z.to_nat (to_int64 (Z.of_nat DIM * Z.of_nat DIM))) densmat
  else
    let END :=
      Z.to_nat (shl64 1 (wrap64 (Z.of_nat (qv_num_qubits (qreg_ st)) - Z.of_nat N))) in
    inds ← indexes qubits qubits_sorted 0;
    densmat ← block_loop (fun _ x => x) DIM vec inds densmat;
    for_loop (fun k densmat =>
      inds ← indexes qubits qubits_sorted (Z.of_nat k);
      block_loop cadd DIM vec inds densmat)
      1 (END - 1) densmat.

Definition density_matrix (st : State) (qubits : list nat) : option cmatrix_t :=
  vec2density st qubits (qv_copy_to_vector (qreg_ st)).

(** [apply_save_density_matrix]: the matrix handed to the result sink. *)
Definition apply_save_density_matrix (st : State) (qubits : list nat)
    : option cmatrix_t :=
  if decide (qubits = []) then
    let reduced_state := mat_new 1 1 in
    Some (mat_set reduced_state 0 0 (of_real (qv_norm0 (qreg_ st))))
  else density_matrix st qubits.

(** *** Reference notions for the state layer *)

(** The state after further calls that leave the amplitudes alone. *)
Definition add_calls (st : State) (cs : list call) : State :=
  {| qreg_ := qreg_ st; num_global_qubits_ := num_global_qubits_ st;
     calls := calls st ++ cs |}.

(** The probability of a Kraus operator in state [st]. *)
Definition kraus_probability (st : State) (qubits : list nat)
    (km : cmatrix_t) : real :=
  qv_norm (qreg_ st) qubits (vectorize_matrix km).

(** The probability accumulated over the first [j] operators. *)
Definition kraus_accum (st : State) (qubits : list nat)
    (kmats : list cmatrix_t) (j : nat) : real :=
  foldl (fun acc km => radd acc (kraus_probability st qubits km)) r0
        (take j kmats).

(** The norm queries for the first [j] operators. *)
Definition norm_calls (qubits : list nat) (kmats : list cmatrix_t) (j : nat)
    : list call :=
  (fun km => call_norm qubits (vectorize_matrix km)) <$> take j kmats.

(** Calls that change the amplitudes. *)
Definition is_update (c : call) : bool :=
  match c with
  | call_norm _ _ => false
  | _ => true
  end.

(** The diagonal of length [n] whose entry [pos] is [v], all others 0. *)
Definition diag_projector (n pos : nat) (v : complex) : cvector_t :=
  (fun i => if decide (i = pos) then v else c0) <$> seq 0 n.

(** The transposition of the basis states [a] and [b]. *)
Definition swap_state (a b j : nat) : nat :=
  if decide (j = a) then b else if decide (j = b) then a else j.

(** The vectorized [dim] x [dim] permutation matrix of that transposition:
    entry [i * dim + j] is 1 when [j] is sent to [i], else 0. *)
Definition swap_matrix (dim a b : nat) : cvector_t :=
  (fun idx =>
     if decide (swap_state a b (idx mod dim) = idx / dim)%nat then c1 else c0)
  <$> seq 0 (dim * dim).

(** The entries of the permutation matrix that hold 1 once the loop over
    the diagonal has reached [j]: the two swapped ones and the diagonal
    entries below [j] of the other basis states. *)
Definition perm_hit (D f m j idx : nat) : Prop :=
  (idx / D = f ∧ idx mod D = m)%nat ∨ (idx / D = m ∧ idx mod D = f)%nat ∨
  (idx / D = idx mod D ∧ idx / D < j ∧ idx / D ≠ f ∧ idx / D ≠ m)%nat.

Global Instance perm_hit_dec D f m j idx : Decision (perm_hit D f m j idx).
Proof. unfold perm_hit. apply _. Defined.

(** The invariant of that loop. *)
Definition perm_inv (D f m j : nat) (p : cvector_t) : Prop :=
  length p = (D * D)%nat ∧
  ∀ idx, (idx < D * D)%nat →
    p !! idx = Some (if decide (perm_hit D f m j idx) then c1 else c0).

(** Entry (row, col) of the outer product of the amplitudes addressed by
    [inds]. *)
Definition outer_product_entry (vec : Z → complex) (inds : list Z)
    (row col : nat) : complex :=
  cmul (vec (inds !!! row)) (cconj (vec (inds !!! col))).
End StateLayer.

(** ** A small instance, for examples *)

(** Integer arithmetic standing in for floating point. *)
Definition Z_numeric : Numeric :=
  {| real := Z; complex := Z; r0 := 0; r1 := 1;
     radd := Z.add; rsub := Z.sub; rdiv := Z.div; rsqrt := Z.sqrt;
     rgt := Z.gtb; c0 := 0; c1 := 1; of_real := fun x => x;
     cadd := Z.add; cmul := Z.mul; cconj := fun x => x |}.

Section SmallInstance.
Local Existing Instance Z_numeric.

(** Amplitudes in a list, deviates read from a list, matrices vectorized
    row by row. *)
Definition Z_collaborators : Collaborators :=
  {| statevec_t := list Z;
     RngEngine := list Z;
     qv_num_qubits := fun v => Nat.log2 (length v);
     qv_chunk_index := fun _ => 0;
     qv_support_global_indexing := fun _ => true;
     qv_norm0 := fun v => foldr Z.add 0 ((fun a => a * a) <$> v);
     qv_norm := fun v _ vmat => foldr Z.add 0 vmat;
     qv_apply_matrix := fun _ _ v => v;
     qv_apply_diagonal_matrix := fun _ _ v => v;
     qv_apply_mcx := fun _ v => v;
     qv_copy_to_vector := fun v i => v !!! Z.to_nat i;
     rand01 := fun rng => (hd 0 rng, tl rng);
     vectorize_matrix := fun m =>
       (fun idx => mat_entry m (idx / GetColumns m) (idx mod GetColumns m))%nat
       <$> seq 0 (GetRows m * GetColumns m);
     scalar_multiply := fun v x => (Z.mul x) <$> v;
     matrix_scale := fun x m =>
       {| GetRows := GetRows m; GetColumns := GetColumns m;
          mat_entry := fun r c => x * mat_entry m r c |};
     block_diagonal_matrix := fun _ _ qubits diag => (qubits, diag) |}.

Local Existing Instance Z_collaborators.

(** A state holding the amplitudes [amps], with no call made yet. *)
Definition Z_state (amps : list Z) : State :=
  {| qreg_ := amps; num_global_qubits_ := Nat.log2 (length amps); calls := [] |}.

(** The matrix with the given entries, row by row. *)
Definition Z_matrix (rows cols : nat) (entries : list Z) : cmatrix_t :=
  {| GetRows := rows; GetColumns := cols;
     mat_entry := fun r c => entries !!! (r * cols + c)%nat |}.
End SmallInstance.

(** ** Reference notions used to state the properties *)

(** The block built by doubling: every listed bit is OR-ed onto all the
    entries found so far. *)
Definition block (i0 : Z) (qs : list nat) : list Z :=
  foldl (fun acc q => acc ++ ((fun x => Z.lor x (2 ^ Z.of_nat q)) <$> acc)) [i0] qs.

(** The index block of the reduced index [k]. *)
Definition index_block (qubits : list nat) (k : Z) : list Z :=
  default [] (indexes qubits (sort qubits) k).

(** The OR of [BITS[q]] over the positions of [qs]. *)
Definition bits_or (qs : list nat) : Z :=
  foldr (fun q a => Z.lor (2 ^ Z.of_nat q) a) 0 qs.

(** Deleting the bit at position [q]: the bits above move down by one. *)
Definition remove_bit (q : nat) (y : Z) : Z :=
  Z.lor (Z.shiftl (Z.shiftr y (Z.of_nat q + 1)) (Z.of_nat q))
        (Z.land y (Z.ones (Z.of_nat q))).

(** Reading back the spectator bits of a full index: the bits at the
    positions of [qs] are deleted, the highest position first. *)
Definition spectator_bits (qs : list nat) (f : Z) : Z :=
  foldr remove_bit f qs.

(** A bit pattern supported on the positions of [qs]. *)
Definition pattern_on (qs : list nat) (p : Z) : Prop :=
  Z.ldiff p (bits_or qs) = 0.

(** The XOR of the bits of [k] at the positions listed in [qubits]. *)
Definition bits_xor (k : Z) (qubits : list nat) : bool :=
  foldr (fun index b => xorb (Z.testbit k (Z.of_nat index)) b) false qubits.

(** ** The other traversals of [indexes.hpp]

    C++ resolves the name [apply_lambda] by the arguments; here the
    overloads carry a suffix: [apply_lambda_range] takes no qubit list,
    [apply_lambda_gap] takes a stride and parameters, [apply_lambda_params]
    takes parameters only. *)

(** [for (int_t k = k0; k < END; k += gap) s = body(k, s)].  [gap] is a
    [size_t], so the sum is taken on 64 bits and converted back.  The loop
    need not end; [fuel] bounds the number of tests of its condition, and a
    run that needs more has no result ([None]).  A run that reaches an
    undefined step is [Some None]. *)
Fixpoint for_gap {S : Type} (fuel : nat) (body : Z → S → option S)
    (k END gap : Z) (s : S) : option (option S) :=
  match fuel with
  | O => None
  | Datatypes.S fuel =>
      if k <? END then
        match body k s with
        | Some s' => for_gap fuel body (to_int64 (k + gap)) END gap s'
        | None => Some None
        end
      else Some (Some s)
  end.

Section OtherTraversals.
Context {S param_t : Type}.

(** [apply_lambda(start, stop, omp_threads, func)]. *)
Definition apply_lambda_range_body (func : Z → S → S) (k : Z) (s : S)
    : option S :=
  Some (func k s).

Definition apply_lambda_range_seq (start stop : Z) (func : Z → S → S) (s : S)
    : option S :=
  let k0 := to_int64 start in
  for_loopZ (apply_lambda_range_body func) k0 (Z.to_nat (to_int64 stop - k0)) s.

Inductive apply_lambda_range (start stop omp_threads : Z) (func : Z → S → S)
    (s : S) : option S → Prop :=
| apply_lambda_range_sequential :
    omp_threads <= 1 →
    apply_lambda_range start stop omp_threads func s
      (apply_lambda_range_seq start stop func s)
| apply_lambda_range_parallel ks :
    1 < omp_threads →
    ks ≡ₚ seqZ (to_int64 start) (to_int64 stop - to_int64 start) →
    apply_lambda_range start stop omp_threads func s
      (run_units (apply_lambda_range_body func) ks s).

(** The values taken by [k] in [for (k = k0; k < END; k += gap)] when
    [gap > 0] and no sum overflows: the iteration space of the OpenMP
    loop. *)
Definition gap_units (k0 END gap : Z) : list Z :=
  (fun i => k0 + i * gap) <$> seqZ 0 ((END - k0 + gap - 1) / gap).

(** [apply_lambda(start, stop, gap, omp_threads, func, qubits, params)].  As
    in [apply_lambda_seq], [stop >> NUM_QUBITS] has no defined result with 64
    qubits or more. *)
Definition apply_lambda_gap_seq (fuel : nat) (start stop gap : Z)
    (func : list Z → param_t → S → S) (qubits : list nat) (params : param_t)
    (s : S) : option (option S) :=
  let NUM_QUBITS := length qubits in
  if decide (NUM_QUBITS < 64)%nat then
    let END := to_int64 (Z.shiftr stop (Z.of_nat NUM_QUBITS)) in
    let qubits_sorted := sort qubits in
    for_gap fuel
      (apply_lambda_body (fun inds => func inds params) qubits qubits_sorted)
      (to_int64 start) END gap s
  else Some None.

(** With [omp_threads > 1] the loop is an OpenMP [for]; its stride has to
    be positive for it to be one. *)
Inductive apply_lambda_gap (fuel : nat) (start stop gap omp_threads : Z)
    (func : list Z → param_t → S → S) (qubits : list nat) (params : param_t)
    (s : S) : option (option S) → Prop :=
| apply_lambda_gap_sequential :
    omp_threads <= 1 →
    apply_lambda_gap fuel start stop gap omp_threads func qubits params s
      (apply_lambda_gap_seq fuel start stop gap func qubits params s)
| apply_lambda_gap_parallel ks :
    1 < omp_threads →
    (length qubits < 64)%nat →
    0 < gap →
    ks ≡ₚ gap_units (to_int64 start)
            (to_int64 (Z.shiftr stop (Z.of_nat (length qubits)))) gap →
    apply_lambda_gap fuel start stop gap omp_threads func qubits params s
      (Some (run_units
               (apply_lambda_body (fun inds => func inds params) qubits
                  (sort qubits)) ks s))
| apply_lambda_gap_parallel_undefined :
    1 < omp_threads →
    (64 ≤ length qubits)%nat →
    apply_lambda_gap fuel start stop gap omp_threads func qubits params s
      (Some None).

(** [apply_lambda(start, stop, omp_threads, func, qubits, params)]: the
    stride is 1. *)
Definition apply_lambda_params (fuel : nat) (start stop omp_threads : Z)
    (func : list Z → param_t → S → S) (qubits : list nat) (params : param_t)
    (s : S) : option (option S) → Prop :=
  apply_lambda_gap fuel start stop 1 omp_threads func qubits params s.
End OtherTraversals.

(** ** apply_lambda_MOSQ_CR *)

(** [while (temp) { num_Y += (temp & 1); temp >>= 1; }].  [fuel] bounds the
    number of tests of the condition; [None] is a run that needs more. *)
Fixpoint count_ones_while (fuel : nat) (temp num_Y : Z) : option Z :=
  match fuel with
  | O => None
  | Datatypes.S fuel =>
      if bool_of_Z temp
      then count_ones_while fuel (Z.shiftr temp 1) (wrap64 (num_Y + Z.land temp 1))
      else Some num_Y
  end.

(** [for (int i = n - 1; i >= 0; --i) if ((XY_idx >> i) & 1)
    { highest_one_pos = i; break; }], from [highest_one_pos = -1]. *)
Fixpoint highest_one_loop (XY_idx : Z) (n : nat) : Z :=
  match n with
  | O => -1
  | Datatypes.S i =>
      if bool_of_Z (Z.land (Z.shiftr XY_idx (Z.of_nat i)) 1)
      then Z.of_nat i
      else highest_one_loop XY_idx i
  end.

(** The loop counting the set bits of the two masked values, [rounds]
    times [count += (value & 1); value >>= 1] for each. *)
Fixpoint count_YZ_loop (rounds : nat)
    (Y_count Y_masked_value Z_count Z_masked_value : Z) : Z * Z :=
  match rounds with
  | O => (Y_count, Z_count)
  | Datatypes.S rounds =>
      count_YZ_loop rounds
        (wrap64 (Y_count + Z.land Y_masked_value 1)) (Z.shiftr Y_masked_value 1)
        (wrap64 (Z_count + Z.land Z_masked_value 1)) (Z.shiftr Z_masked_value 1)
  end.

(** [idx0]: [k] with a zero inserted at the highest set bit of [XY_idx],
    by the four statements of the loop of [index0]; [k] itself when
    [XY_idx] has no set bit. *)
Definition MOSQ_CR_idx0 (XY_idx k : Z) : option Z :=
  let highest_one_pos := highest_one_loop XY_idx 64 in
  let idx0 := wrap64 k in
  if -1 <? highest_one_pos
  then index0_step (Z.to_nat highest_one_pos) idx0
  else Some idx0.

(** The number of the matrix passed with the pair whose first index is
    [idx0]. *)
Definition MOSQ_CR_mat_sel (Y_idx Z_idx num_Y idx0 : Z) : Z :=
  let '(Y_count, Z_count) :=
    count_YZ_loop 64 0 (Z.land Y_idx idx0) 0 (Z.land Z_idx idx0) in
  wrap64 (num_Y - 2 * Y_count + 2 * Z_count) mod 4.

Section MOSQ_CR.
Context {S param_t : Type}.

(** The body of both loops. *)
Definition apply_lambda_MOSQ_CR_body (func : list Z → param_t → S → S)
    (mat0 mat1 mat2 mat3 : param_t) (X_idx Y_idx Z_idx num_Y : Z)
    (k : Z) (s : S) : option S :=
  let XY_idx := Z.lxor X_idx Y_idx in
  idx0 ← MOSQ_CR_idx0 XY_idx k;
  let idx1 := Z.lxor idx0 XY_idx in
  let inds := [idx0; idx1] in
  let mat_sel := MOSQ_CR_mat_sel Y_idx Z_idx num_Y idx0 in
  Some (if mat_sel =? 0 then func inds mat0 s
        else if mat_sel =? 1 then func inds mat1 s
        else if mat_sel =? 2 then func inds mat2 s
        else if mat_sel =? 3 then func inds mat3 s
        else s).

(** [apply_lambda_MOSQ_CR]; [qubits] is sorted into a copy that is not
    read, and [num_qubits_] is not read either.  [None] is a run in which
    the loop counting the bits of [Y_idx] needs more than [fuel] tests. *)
Inductive apply_lambda_MOSQ_CR (fuel : nat) (start stop omp_threads : Z)
    (func : list Z → param_t → S → S) (qubits : list nat)
    (mat0 mat1 mat2 mat3 : param_t) (X_idx Y_idx Z_idx : Z) (num_qubits_ : Z)
    (s : S) : option (option S) → Prop :=
| apply_lambda_MOSQ_CR_no_fuel :
    count_ones_while fuel Y_idx 0 = None →
    apply_lambda_MOSQ_CR fuel start stop omp_threads func qubits
      mat0 mat1 mat2 mat3 X_idx Y_idx Z_idx num_qubits_ s None
| apply_lambda_MOSQ_CR_sequential num_Y :
    count_ones_while fuel Y_idx 0 = Some num_Y →
    omp_threads <= 1 →
    apply_lambda_MOSQ_CR fuel start stop omp_threads func qubits
      mat0 mat1 mat2 mat3 X_idx Y_idx Z_idx num_qubits_ s
      (Some (for_loopZ
               (apply_lambda_MOSQ_CR_body func mat0 mat1 mat2 mat3
                  X_idx Y_idx Z_idx num_Y)
               (to_int64 start)
               (Z.to_nat (to_int64 (Z.shiftr stop 1) - to_int64 start)) s))
| apply_lambda_MOSQ_CR_parallel num_Y ks :
    count_ones_while fuel Y_idx 0 = Some num_Y →
    1 < omp_threads →
    ks ≡ₚ seqZ (to_int64 start) (to_int64 (Z.shiftr stop 1) - to_int64 start) →
    apply_lambda_MOSQ_CR fuel start stop omp_threads func qubits
      mat0 mat1 mat2 mat3 X_idx Y_idx Z_idx num_qubits_ s
      (Some (run_units
               (apply_lambda_MOSQ_CR_body func mat0 mat1 mat2 mat3
                  X_idx Y_idx Z_idx num_Y) ks s)).
End MOSQ_CR.

(** *** Reference notions for [apply_lambda_MOSQ_CR] *)

(** The number of set bits among the [n] low bits of [v]. *)
Definition bit_count (n : nat) (v : Z) : Z :=
  foldr (fun i c => Z.b2z (Z.testbit v (Z.of_nat i)) + c) 0 (seq 0 n).

(** The number of set bits of a [uint_t]. *)
Definition popcount (v : Z) : Z := bit_count 64 v.

(** [k] with a zero bit inserted at position [h]. *)
Definition insert_zero (h k : Z) : Z :=
  2 ^ (h + 1) * (k / 2 ^ h) + k mod 2 ^ h.

(** The first amplitude index of the unit [k]. *)
Definition MOSQ_CR_base (XY_idx k : Z) : Z :=
  if XY_idx =? 0 then k else insert_zero (Z.log2 XY_idx) k.

(** The pair of amplitude indices of the unit [k]. *)
Definition MOSQ_CR_pair (XY_idx k : Z) : list Z :=
  [MOSQ_CR_base XY_idx k; Z.lxor (MOSQ_CR_base XY_idx k) XY_idx].

(** The number of the matrix that goes with the pair starting at [idx0]. *)
Definition MOSQ_CR_matrix_number (Y_idx Z_idx idx0 : Z) : Z :=
  (popcount Y_idx - 2 * popcount (Z.land Y_idx idx0)
   + 2 * popcount (Z.land Z_idx idx0)) mod 4.

(** ** Operation types *)

(** Modelled from the spec: [Operations::OpType] is not among the sources.
    These are the values that [statevector_state.hpp] names; [other] stands
    for the rest of the enumeration. *)
Module OpType.
Inductive OpType :=
| gate | measure | reset | initialize | barrier | bfunc | roerror | matrix
| diagonal_matrix | multiplexer | kraus | qerror_loc | sim_op | set_statevec
| save_expval | save_expval_var | save_probs | save_probs_ket | save_amps
| save_amps_sq | save_state | save_statevec | save_statevec_dict
| save_densmat | jump | mark | nop | other.

Global Instance eq_dec : EqDecision OpType.
Proof. solve_decision. Defined.
End OpType.

(** The operation types of [StateOpSet]. *)
Definition StateOpSet_optypes : list OpType.OpType :=
  [OpType.gate; OpType.measure; OpType.reset; OpType.initialize;
   OpType.barrier; OpType.bfunc; OpType.roerror; OpType.matrix;
   OpType.diagonal_matrix; OpType.multiplexer; OpType.kraus;
   OpType.qerror_loc; OpType.sim_op; OpType.set_statevec;
   OpType.save_expval; OpType.save_expval_var; OpType.save_probs;
   OpType.save_probs_ket; OpType.save_amps; OpType.save_amps_sq;
   OpType.save_state; OpType.save_statevec; OpType.save_statevec_dict;
   OpType.save_densmat; OpType.jump; OpType.mark].

(** ** Measurement, reset and saved amplitudes *)

Section Measurement.
Context `{Collaborators}.

(** What measurement and sampling ask of the amplitude container, of the
    engine, of [Utils] and of the classical register. *)
Class MeasureCollaborators := {
  creg_t : Type;                                    (* ClassicalRegister *)
  SampleVector : Type;
  qv_probabilities : statevec_t → list nat → list real;  (* probabilities(qubits) *)
  qv_probability : statevec_t → Z → real;             (* probability(i) *)
  qv_get_state : statevec_t → Z → complex;            (* get_state(i) *)
  rand_int : RngEngine → list real → Z * RngEngine;   (* rng.rand_int(probs) *)
  int2reg : Z → Z → nat → list Z;                    (* Utils::int2reg *)
  store_measure : list Z → list nat → list nat → creg_t → creg_t;
  sv_new : nat → SampleVector;                       (* SampleVector(n) *)
  sv_from_uint : Z → nat → SampleVector;             (* from_uint *)
  sv_map : SampleVector → SampleVector → list nat → SampleVector;   (* map *)
}.

Context `{MeasureCollaborators}.

Definition measure_probs (qubits : list nat) (st : State) : list real :=
  qv_probabilities (qreg_ st) qubits.

(** [sample_measure_with_prob]: the outcome drawn and [probs[outcome]]. *)
Definition sample_measure_with_prob (qubits : list nat) (rng : RngEngine)
    (st : State) : option (Z * real * RngEngine) :=
  let probs := measure_probs qubits st in
  let '(outcome, rng) := rand_int rng probs in
  p ← probs !! Z.to_nat outcome;
  Some (outcome, p, rng).

Definition apply_measure (qubits cmemory cregister : list nat)
    (rng : RngEngine) (st : State) (creg : creg_t)
    : option (State * creg_t * RngEngine) :=
  '(meas_first, meas_second, rng) ← sample_measure_with_prob qubits rng st;
  st ← measure_reset_update qubits meas_first meas_first meas_second st;
  let outcome := int2reg meas_first 2 (length qubits) in
  Some (st, store_measure outcome cmemory cregister creg, rng).

Definition apply_reset (qubits : list nat) (rng : RngEngine) (st : State)
    : option (State * RngEngine) :=
  '(meas_first, meas_second, rng) ← sample_measure_with_prob qubits rng st;
  st ← measure_reset_update qubits 0 meas_first meas_second st;
  Some (st, rng).

(** *** sample_measure *)

(** [int_t npar = threads_; if (npar > shots) npar = shots;], the
    comparison being made on unsigned integers. *)
Definition sample_measure_npar (threads_ shots : Z) : Z :=
  if shots <? wrap64 threads_ then to_int64 shots else threads_.

(** [convert_to_bit_lambda(i)]: the conversion of the shots of chunk [i],
    from [shots * i / npar] up to [shots * (i + 1) / npar]. *)
Definition convert_to_bit_lambda (qubits : list nat) (allbit_samples : list Z)
    (shots npar : Z) (i : Z) (all_samples : list SampleVector)
    : option (list SampleVector) :=
  let ishot := Z.to_nat (wrap64 (shots * i) / wrap64 npar) in
  let iend := Z.to_nat (wrap64 (shots * (i + 1)) / wrap64 npar) in
  for_loop (fun ishot all_samples =>
      x ← allbit_samples !! ishot;
      old ← all_samples !! ishot;
      let allbit_sample := sv_from_uint x (length qubits) in
      store all_samples ishot (sv_map old allbit_sample qubits))
    ishot (iend - ishot) all_samples.

(** *** apply_save_amplitudes *)

(** The data handed to the result: a vector of amplitudes saved per shot,
    or a vector of probabilities saved as an average. *)
Inductive saved_amplitudes :=
| save_data_pershot (amps : list complex)
| save_data_average (amps_sq : list real).

Definition apply_save_amplitudes (type : OpType.OpType) (int_params : list Z)
    (st : State) : option (completion saved_amplitudes) :=
  if decide (int_params = []) then Some (Throws invalid_argument)
  else
    let size := length int_params in
    if decide (type = OpType.save_amps) then
      amps ← for_loop (fun i amps =>
                 p ← int_params !! i;
                 store amps i (qv_get_state (qreg_ st) p))
               0 size (replicate size c0);
      Some (Returns (save_data_pershot amps))
    else
      amps_sq ← for_loop (fun i amps_sq =>
                    p ← int_params !! i;
                    store amps_sq i (qv_probability (qreg_ st) p))
                  0 size (replicate size r0);
      Some (Returns (save_data_average amps_sq)).
End Measurement.

Section SmallMeasureInstance.
Local Existing Instance Z_numeric.
Local Existing Instance Z_collaborators.

(** Probabilities read off the amplitudes, outcomes read from the list of
    deviates, samples kept as the integers drawn. *)
Definition Z_measure : @MeasureCollaborators Z_numeric Z_collaborators :=
  {| creg_t := list (list Z);
     SampleVector := list Z;
     qv_probabilities := fun v _ => (fun a => a * a) <$> (v : list Z);
     qv_probability := fun v i =>
       ((v : list Z) !!! Z.to_nat i) * ((v : list Z) !!! Z.to_nat i);
     qv_get_state := fun v i => (v : list Z) !!! Z.to_nat i;
     rand_int := fun rng _ => (hd 0 (rng : list Z), tl (rng : list Z));
     int2reg := fun x base n =>
       (fun i => (x / base ^ Z.of_nat i) mod base) <$> seq 0 n;
     store_measure := fun outcome _ _ creg => outcome :: creg;
     sv_new := fun n => replicate n 0;
     sv_from_uint := fun x n => (fun i => (x / 2 ^ Z.of_nat i) mod 2) <$> seq 0 n;
     sv_map := fun _ sample _ => sample |}.
End SmallMeasureInstance.

(** ** Gates *)

(** The gate names of [StateOpSet], in the order of the source (one row of
    names is listed twice there). *)
Definition StateOpSet_gates : list string :=
  ["u1";   "u2";    "u3";     "u";       "U";     "CX";       "cx";
   "cz";   "cy";    "cp";     "cu1";     "cu2";   "cu3";      "swap";
   "id";   "p";     "x";      "y";       "z";     "h";        "s";
   "sdg";  "t";     "tdg";    "r";       "rx";    "ry";       "rz";
   "rxx";  "ryy";   "rzz";    "rzx";     "ccx";   "ccz";      "cswap";
   "mcx";  "mcy";   "mcz";    "mcu1";    "mcu2";  "mcu3";     "mcswap";
   "mcr";  "mcrx";  "mcry";   "mcrz";    "sx";    "sxdg";     "csx";
   "mcsx"; "csxdg"; "mcsxdg"; "delay";   "pauli"; "mcx_gray"; "cu";
   "mcu";  "mcp";   "ecr";    "mcphase"; "crx";   "cry";      "crz";
   "mcu";  "mcp";   "ecr";    "mcphase"; "crx";   "cry";      "crz";
   "H+S";  "SDG+H"; "MOSQ";   "MOSQ_CR"]%string.

(** [enum class Gates]. *)
Module Gates.
Inductive Gates :=
| id | h | s | sdg | t | tdg | rxx | ryy | rzz | rzx
| mcx | mcy | mcz | mcr | mcrx | mcry | mcrz | mcp | mcu2 | mcu3 | mcu
| mcswap | mcsx | mcsxdg | pauli | ecr | hs | sdgh | mosq | mosq_cr.
End Gates.

(** [gateset_], built from the pairs of the source in their order; a name
    given twice keeps its first entry. *)
Definition gateset_ : gmap string Gates.Gates :=
  list_to_map
    [("delay", Gates.id); ("id", Gates.id); ("x", Gates.mcx); ("y", Gates.mcy);
     ("z", Gates.mcz); ("s", Gates.s); ("sdg", Gates.sdg); ("h", Gates.h);
     ("t", Gates.t); ("tdg", Gates.tdg); ("p", Gates.mcp); ("sx", Gates.mcsx);
     ("sxdg", Gates.mcsxdg); ("H+S", Gates.hs); ("SDG+H", Gates.sdgh);
     ("r", Gates.mcr); ("rx", Gates.mcrx); ("ry", Gates.mcry);
     ("rz", Gates.mcrz);
     ("u1", Gates.mcp); ("u2", Gates.mcu2); ("u3", Gates.mcu3);
     ("u", Gates.mcu3); ("U", Gates.mcu3);
     ("CX", Gates.mcx); ("cx", Gates.mcx); ("cy", Gates.mcy); ("cz", Gates.mcz);
     ("cp", Gates.mcp); ("cu1", Gates.mcp); ("cu2", Gates.mcu2);
     ("cu3", Gates.mcu3); ("cu", Gates.mcu); ("cp", Gates.mcp);
     ("swap", Gates.mcswap); ("rxx", Gates.rxx); ("ryy", Gates.ryy);
     ("rzz", Gates.rzz); ("rzx", Gates.rzx); ("csx", Gates.mcsx);
     ("csxdg", Gates.mcsxdg); ("ecr", Gates.ecr); ("crx", Gates.mcrx);
     ("cry", Gates.mcry); ("crz", Gates.mcrz);
     ("ccx", Gates.mcx); ("ccz", Gates.mcz); ("cswap", Gates.mcswap);
     ("mcx", Gates.mcx); ("mcy", Gates.mcy); ("mcz", Gates.mcz);
     ("mcr", Gates.mcr); ("mcrx", Gates.mcrx); ("mcry", Gates.mcry);
     ("mcrz", Gates.mcrz); ("mcphase", Gates.mcp); ("mcp", Gates.mcp);
     ("mcu1", Gates.mcp); ("mcu2", Gates.mcu2); ("mcu3", Gates.mcu3);
     ("mcu", Gates.mcu); ("mcswap", Gates.mcswap); ("mcsx", Gates.mcsx);
     ("mcsxdg", Gates.mcsxdg); ("pauli", Gates.pauli); ("MOSQ", Gates.mosq);
     ("MOSQ_CR", Gates.mosq_cr); ("mcx_gray", Gates.mcx)]%string.

(** Modelled from the spec: [QV::Rotation] is not among the sources; these
    are the axes that [apply_gate] names. *)
Module Rotation.
Inductive Rotation := x | y | z | xx | yy | zz | zx.
End Rotation.

Section GateLayer.
Context `{Collaborators}.

(** Modelled from the spec: [Operations::Op] is not among the sources.  The
    spec has an operation as a record of a name, a qubit list and optional
    parameters; these are the fields that [apply_gate] reads. *)
Record Op := {
  op_name : string;
  op_qubits : list nat;
  op_params : list complex;
  op_string_params : list string;
}.

(** What the gates ask of the platform, of [Linalg::VMatrix], of [Chunk] and
    of the amplitude container. *)
Class GateCollaborators := {
  M_PI : real;
  r2 : real;                                           (* 2. *)
  ropp : real → real;                                  (* unary - *)
  complex_t : real → real → complex;                   (* complex_t(re, im) *)
  creal : complex → real;                              (* std::real *)
  cexp : complex → complex;                            (* std::exp *)
  VMatrix_r : complex → complex → cvector_t;
  VMatrix_u4 : real → real → real → real → cvector_t;
  VMatrix_ECR : cvector_t;
  VMatrix_SX : cvector_t;
  VMatrix_SXDG : cvector_t;
  get_inout_ctrl_qubits : Op → nat → list nat * list nat;
  correct_gate_op_in_chunk : Op → list nat → Op;
  qv_apply_mcy : list nat → statevec_t → statevec_t;
  qv_apply_mcphase : list nat → complex → statevec_t → statevec_t;
  qv_apply_mcu : list nat → cvector_t → statevec_t → statevec_t;
  qv_apply_rotation :
    list nat → Rotation.Rotation → real → statevec_t → statevec_t;
  qv_apply_mcswap : list nat → statevec_t → statevec_t;
  qv_apply_pauli : list nat → string → statevec_t → statevec_t;
  qv_apply_MOSQ : list nat → complex → statevec_t → statevec_t;
  qv_apply_MOSQ_CR :
    list nat → complex → complex → complex → complex → statevec_t → statevec_t;
}.

Context `{GateCollaborators}.

(** The calls of the gate kernels on the amplitude container. *)
Inductive gate_call :=
| call_apply_mcy (qubits : list nat)
| call_apply_mcphase (qubits : list nat) (phase : complex)
| call_apply_mcu (qubits : list nat) (vmat : cvector_t)
| call_apply_rotation (qubits : list nat) (r : Rotation.Rotation) (theta : real)
| call_apply_mcswap (qubits : list nat)
| call_apply_pauli (qubits : list nat) (pauli : string)
| call_apply_MOSQ (qubits : list nat) (phase : complex)
| call_apply_MOSQ_CR (qubits : list nat) (phase p1 p2 p3 : complex).

(** The state together with the kernel calls made so far.  The timers that
    [apply_gate] adds to are left out. *)
Record GateState := {
  gate_state : State;
  gate_calls : list gate_call;
}.

(** A method of [State] run on the state. *)
Definition on_state (f : State → State) (gs : GateState) : GateState :=
  {| gate_state := f (gate_state gs); gate_calls := gate_calls gs |}.

(** A kernel of the container run on the amplitudes. *)
Definition kernel (f : statevec_t → statevec_t) (c : gate_call)
    (gs : GateState) : GateState :=
  {| gate_state :=
       {| qreg_ := f (qreg_ (gate_state gs));
          num_global_qubits_ := num_global_qubits_ (gate_state gs);
          calls := calls (gate_state gs) |};
     gate_calls := gate_calls gs ++ [c] |}.

(** [State::apply_gate_mcu]. *)
Definition apply_gate_mcu (qubits : list nat) (theta phi lambda gamma : real)
    (gs : GateState) : GateState :=
  let vmat := VMatrix_u4 theta phi lambda gamma in
  kernel (qv_apply_mcu qubits vmat) (call_apply_mcu qubits vmat) gs.

(** [State::apply_gate_phase]. *)
Definition apply_gate_phase (qubit : nat) (phase : complex) (gs : GateState)
    : GateState :=
  let diag := [c1; phase] in
  on_state (apply_diagonal_matrix [qubit] diag) gs.

(** [mask |= (1ull << (qubits_out[i] - num_qubits))] over [qubits_out]. *)
Definition chunk_mask (qubits_out : list nat) (num_qubits : nat) : Z :=
  foldl (fun mask q =>
           Z.lor mask (shl64 1 (wrap64 (Z.of_nat q - Z.of_nat num_qubits))))
        0 qubits_out.

(** The [switch] of [apply_gate]; every value of the enumeration has its
    case, so the [default] case is not entered.  An operand that is read
    and not there has no defined result. *)
Definition apply_gate_switch (g : Gates.Gates) (op : Op) (gs : GateState)
    : option GateState :=
  let qubits := op_qubits op in
  let rotation r :=
    p0 ← op_params op !! 0%nat;
    Some (kernel (qv_apply_rotation qubits r (creal p0))
            (call_apply_rotation qubits r (creal p0)) gs) in
  match g with
  | Gates.mcx => Some (on_state (qreg_apply_mcx qubits) gs)
  | Gates.mcy => Some (kernel (qv_apply_mcy qubits) (call_apply_mcy qubits) gs)
  | Gates.mcz =>
      let phase := of_real (ropp r1) in
      Some (kernel (qv_apply_mcphase qubits phase)
              (call_apply_mcphase qubits phase) gs)
  | Gates.mcr =>
      p0 ← op_params op !! 0%nat;
      p1 ← op_params op !! 1%nat;
      let vmat := VMatrix_r p0 p1 in
      Some (kernel (qv_apply_mcu qubits vmat) (call_apply_mcu qubits vmat) gs)
  | Gates.mcrx => rotation Rotation.x
  | Gates.mcry => rotation Rotation.y
  | Gates.mcrz => rotation Rotation.z
  | Gates.rxx => rotation Rotation.xx
  | Gates.ryy => rotation Rotation.yy
  | Gates.rzz => rotation Rotation.zz
  | Gates.rzx => rotation Rotation.zx
  | Gates.ecr =>
      (* no [break]: control falls into the case of [id], which only breaks *)
      Some (on_state (qreg_apply_matrix qubits VMatrix_ECR) gs)
  | Gates.id => Some gs
  | Gates.h => Some (apply_gate_mcu qubits (rdiv M_PI r2) r0 M_PI r0 gs)
  | Gates.sdgh =>
      Some (apply_gate_mcu qubits (rdiv M_PI r2) r0 (rdiv M_PI r2) r0 gs)
  | Gates.hs =>
      Some (apply_gate_mcu qubits (rdiv M_PI r2) (rdiv M_PI r2) M_PI r0 gs)
  | Gates.s =>
      q0 ← qubits !! 0%nat;
      Some (apply_gate_phase q0 (complex_t r0 r1) gs)
  | Gates.sdg =>
      q0 ← qubits !! 0%nat;
      Some (apply_gate_phase q0 (complex_t r0 (ropp r1)) gs)
  | Gates.t =>
      let isqrt2 := rdiv r1 (rsqrt r2) in
      q0 ← qubits !! 0%nat;
      Some (apply_gate_phase q0 (complex_t isqrt2 isqrt2) gs)
  | Gates.tdg =>
      let isqrt2 := rdiv r1 (rsqrt r2) in
      q0 ← qubits !! 0%nat;
      Some (apply_gate_phase q0 (complex_t isqrt2 (ropp isqrt2)) gs)
  | Gates.mcswap =>
      Some (kernel (qv_apply_mcswap qubits) (call_apply_mcswap qubits) gs)
  | Gates.mcu3 =>
      p0 ← op_params op !! 0%nat;
      p1 ← op_params op !! 1%nat;
      p2 ← op_params op !! 2%nat;
      Some (apply_gate_mcu qubits (creal p0) (creal p1) (creal p2) r0 gs)
  | Gates.mcu =>
      p0 ← op_params op !! 0%nat;
      p1 ← op_params op !! 1%nat;
      p2 ← op_params op !! 2%nat;
      p3 ← op_params op !! 3%nat;
      Some (apply_gate_mcu qubits (creal p0) (creal p1) (creal p2) (creal p3) gs)
  | Gates.mcu2 =>
      p0 ← op_params op !! 0%nat;
      p1 ← op_params op !! 1%nat;
      Some (apply_gate_mcu qubits (rdiv M_PI r2) (creal p0) (creal p1) r0 gs)
  | Gates.mcp =>
      p0 ← op_params op !! 0%nat;
      let phase := cexp (cmul (complex_t r0 r1) p0) in
      Some (kernel (qv_apply_mcphase qubits phase)
              (call_apply_mcphase qubits phase) gs)
  | Gates.mcsx =>
      Some (kernel (qv_apply_mcu qubits VMatrix_SX)
              (call_apply_mcu qubits VMatrix_SX) gs)
  | Gates.mcsxdg =>
      Some (kernel (qv_apply_mcu qubits VMatrix_SXDG)
              (call_apply_mcu qubits VMatrix_SXDG) gs)
  | Gates.pauli =>
      s0 ← op_string_params op !! 0%nat;
      Some (kernel (qv_apply_pauli qubits s0) (call_apply_pauli qubits s0) gs)
  | Gates.mosq =>
      p0 ← op_params op !! 0%nat;
      let phase := cexp (cmul (complex_t r0 r1) p0) in
      Some (kernel (qv_apply_MOSQ qubits phase) (call_apply_MOSQ qubits phase) gs)
  | Gates.mosq_cr =>
      p0 ← op_params op !! 0%nat;
      p1 ← op_params op !! 1%nat;
      p2 ← op_params op !! 2%nat;
      p3 ← op_params op !! 3%nat;
      let phase := cexp (cmul (complex_t r0 r1) p0) in
      Some (kernel (qv_apply_MOSQ_CR qubits phase p1 p2 p3)
              (call_apply_MOSQ_CR qubits phase p1 p2 p3) gs)
  end.

(** [State::apply_gate].  It calls itself on the corrected operation when
    the controls outside the chunk are all set; [fuel] bounds the depth of
    these calls, and [None] is a run that needs more.  [Some None] is a run
    with no defined result. *)
Fixpoint apply_gate (fuel : nat) (op : Op) (gs : GateState)
    : option (option (completion GateState)) :=
  match fuel with
  | O => None
  | Datatypes.S fuel =>
      let st := gate_state gs in
      let dispatch :=
        match gateset_ !! op_name op with
        | None => Some (Some (Throws invalid_argument))
        | Some g => Some (Returns <$> apply_gate_switch g op gs)
        end in
      if bool_decide (qv_num_qubits (qreg_ st) < num_global_qubits_ st)%nat
         && negb (qv_support_global_indexing (qreg_ st))
      then
        let '(qubits_in, qubits_out) :=
          if bool_decide (String.get 0 (op_name op) = Some "c"%char)
             || String.prefix "mc" (op_name op)
          then get_inout_ctrl_qubits op (qv_num_qubits (qreg_ st))
          else ([], []) in
        if bool_decide (0 < length qubits_out)%nat then
          let mask := chunk_mask qubits_out (qv_num_qubits (qreg_ st)) in
          if Z.land (qv_chunk_index (qreg_ st)) mask =? mask then
            let new_op := correct_gate_op_in_chunk op qubits_in in
            apply_gate fuel new_op gs
          else Some (Some (Returns gs))
        else dispatch
      else dispatch
  end.

(** The number of calls made so far on the amplitude container. *)
Definition container_calls (gs : GateState) : nat :=
  (length (calls (gate_state gs)) + length (gate_calls gs))%nat.
End GateLayer.

Section SmallGateInstance.
Local Existing Instance Z_numeric.

(** One chunk of a distributed state: its index and its amplitudes.  The
    container does not index globally. *)
Definition Z_chunk_collaborators : Collaborators :=
  {| statevec_t := Z * list Z;
     RngEngine := list Z;
     qv_num_qubits := fun v => Nat.log2 (length v.2);
     qv_chunk_index := fun v => v.1;
     qv_support_global_indexing := fun _ => false;
     qv_norm0 := fun v => foldr Z.add 0 ((fun a => a * a) <$> v.2);
     qv_norm := fun v _ vmat => foldr Z.add 0 vmat;
     qv_apply_matrix := fun _ _ v => v;
     qv_apply_diagonal_matrix := fun _ _ v => v;
     qv_apply_mcx := fun _ v => v;
     qv_copy_to_vector := fun v i => v.2 !!! Z.to_nat i;
     rand01 := fun rng => (hd 0 rng, tl rng);
     vectorize_matrix := fun m =>
       (fun idx => mat_entry m (idx / GetColumns m) (idx mod GetColumns m))%nat
       <$> seq 0 (GetRows m * GetColumns m);
     scalar_multiply := fun v x => (Z.mul x) <$> v;
     matrix_scale := fun x m =>
       {| GetRows := GetRows m; GetColumns := GetColumns m;
          mat_entry := fun r c => x * mat_entry m r c |};
     block_diagonal_matrix := fun _ _ qubits diag => (qubits, diag) |}.

(** Kernels that leave the amplitudes alone; the controls of an operation
    are all its qubits but the last, and the corrected operation keeps the
    qubits inside the chunk and drops the first letter of the name. *)
Definition Z_gates (C : Collaborators) : @GateCollaborators Z_numeric C :=
  {| M_PI := 3; r2 := 2; ropp := Z.opp;
     complex_t := fun re im => re + im;
     creal := fun c => c;
     cexp := fun c => c;
     VMatrix_r := fun a b => [a; b];
     VMatrix_u4 := fun a b c d => [a; b; c; d];
     VMatrix_ECR := [];
     VMatrix_SX := [];
     VMatrix_SXDG := [];
     get_inout_ctrl_qubits := fun op n =>
       (filter (fun q => q < n)%nat (removelast (op_qubits op)),
        filter (fun q => n ≤ q)%nat (removelast (op_qubits op)));
     correct_gate_op_in_chunk := fun op qubits_in =>
       {| op_name := String.substring 1 (String.length (op_name op)) (op_name op);
          op_qubits := qubits_in ++ drop (length (op_qubits op) - 1) (op_qubits op);
          op_params := op_params op;
          op_string_params := op_string_params op |};
     qv_apply_mcy := fun _ v => v;
     qv_apply_mcphase := fun _ _ v => v;
     qv_apply_mcu := fun _ _ v => v;
     qv_apply_rotation := fun _ _ _ v => v;
     qv_apply_mcswap := fun _ v => v;
     qv_apply_pauli := fun _ _ v => v;
     qv_apply_MOSQ := fun _ _ v => v;
     qv_apply_MOSQ_CR := fun _ _ _ _ _ v => v |}.
End SmallGateInstance.

(** ** apply_op *)

Section ApplyOp.
Context {St Operation : Type}.

(** What [apply_op] reads of the operation and what its cases call.  Each
    function acts on all that the call can change (amplitudes, classical
    register, engine, result); [None] is a call with no defined result.  The
    timers that [apply_op] adds to are left out. *)
Class OpCallees := {
  operation_type : Operation → OpType.OpType;                   (* op.type *)
  operation_name : Operation → string;                          (* op.name *)
  check_conditional : Operation → St → bool;
  do_apply_reset : Operation → St → option (completion St);
  do_apply_initialize : Operation → St → option (completion St);
  do_apply_measure : Operation → St → option (completion St);
  do_apply_bfunc : Operation → St → option (completion St);
  do_apply_roerror : Operation → St → option (completion St);
  do_apply_gate : Operation → St → option (completion St);
  do_apply_matrix : Operation → St → option (completion St);
  do_apply_diagonal_matrix : Operation → St → option (completion St);
  do_apply_multiplexer : Operation → St → option (completion St);
  do_apply_kraus : Operation → St → option (completion St);
  do_enter_register_blocking : Operation → St → option (completion St);
  do_leave_register_blocking : St → option (completion St);
  do_initialize_from_vector : Operation → St → option (completion St);
  do_apply_save_expval : Operation → St → option (completion St);
  do_apply_save_density_matrix : Operation → St → option (completion St);
  do_apply_save_statevector :
    Operation → bool → St → option (completion St);
  do_apply_save_statevector_dict : Operation → St → option (completion St);
  do_apply_save_probs : Operation → St → option (completion St);
  do_apply_save_amplitudes : Operation → St → option (completion St);
}.

Context `{OpCallees}.

(** [State::apply_op]; the types without a case reach [default]. *)
Definition apply_op (op : Operation) (final_op : bool) (st : St)
    : option (completion St) :=
  if check_conditional op st then
    match operation_type op with
    | OpType.barrier | OpType.nop | OpType.qerror_loc => Some (Returns st)
    | OpType.reset => do_apply_reset op st
    | OpType.initialize => do_apply_initialize op st
    | OpType.measure => do_apply_measure op st
    | OpType.bfunc => do_apply_bfunc op st
    | OpType.roerror => do_apply_roerror op st
    | OpType.gate => do_apply_gate op st
    | OpType.matrix => do_apply_matrix op st
    | OpType.diagonal_matrix => do_apply_diagonal_matrix op st
    | OpType.multiplexer => do_apply_multiplexer op st
    | OpType.kraus => do_apply_kraus op st
    | OpType.sim_op =>
        if decide (operation_name op = "begin_register_blocking"%string)
        then do_enter_register_blocking op st
        else if decide (operation_name op = "end_register_blocking"%string)
        then do_leave_register_blocking st
        else Some (Returns st)
    | OpType.set_statevec => do_initialize_from_vector op st
    | OpType.save_expval | OpType.save_expval_var =>
        do_apply_save_expval op st
    | OpType.save_densmat => do_apply_save_density_matrix op st
    | OpType.save_state | OpType.save_statevec =>
        do_apply_save_statevector op final_op st
    | OpType.save_statevec_dict => do_apply_save_statevector_dict op st
    | OpType.save_probs | OpType.save_probs_ket => do_apply_save_probs op st
    | OpType.save_amps | OpType.save_amps_sq =>
        do_apply_save_amplitudes op st
    | OpType.jump | OpType.mark | OpType.other =>
        Some (Throws invalid_argument)
    end
  else Some (Returns st).
End ApplyOp.

(** Callees that return at once, on operations that are their type and
    name. *)
Definition idle_callees (conditional : bool)
    : @OpCallees unit (OpType.OpType * string) :=
  {| operation_type := fst;
     operation_name := snd;
     check_conditional := fun _ _ => conditional;
     do_apply_reset := fun _ st => Some (Returns st);
     do_apply_initialize := fun _ st => Some (Returns st);
     do_apply_measure := fun _ st => Some (Returns st);
     do_apply_bfunc := fun _ st => Some (Returns st);
     do_apply_roerror := fun _ st => Some (Returns st);
     do_apply_gate := fun _ st => Some (Returns st);
     do_apply_matrix := fun _ st => Some (Returns st);
     do_apply_diagonal_matrix := fun _ st => Some (Returns st);
     do_apply_multiplexer := fun _ st => Some (Returns st);
     do_apply_kraus := fun _ st => Some (Returns st);
     do_enter_register_blocking := fun _ st => Some (Returns st);
     do_leave_register_blocking := fun st => Some (Returns st);
     do_initialize_from_vector := fun _ st => Some (Returns st);
     do_apply_save_expval := fun _ st => Some (Returns st);
     do_apply_save_density_matrix := fun _ st => Some (Returns st);
     do_apply_save_statevector := fun _ _ st => Some (Returns st);
     do_apply_save_statevector_dict := fun _ st => Some (Returns st);
     do_apply_save_probs := fun _ st => Some (Returns st);
     do_apply_save_amplitudes := fun _ st => Some (Returns st) |}.

(** ** Reductions of [indexes.hpp]

    The overloads of [apply_reduction_lambda] that take a qubit list, without
    and with parameters ([_params]).  The reduction variables [val_re] and [val_im] start
    at 0 and are handed to [func] by reference; the result is the complex
    number made of their final values, given here as the pair.  With
    [omp_threads > 1] each thread adds into variables of its own, which are
    summed at the end in an order that is not fixed: that branch has no
    constructor below. *)

Section Reductions.
Context `{Numeric} {param_t : Type}.

(** [apply_reduction_lambda(start, stop, omp_threads, func, qubits)]. *)
Inductive apply_reduction_lambda (start stop omp_threads : Z)
    (func : list Z → real * real → real * real) (qubits : list nat)
    : option (real * real) → Prop :=
| apply_reduction_lambda_sequential :
    omp_threads <= 1 →
    apply_reduction_lambda start stop omp_threads func qubits
      (apply_lambda_seq start stop func qubits (r0, r0)).

(** [apply_reduction_lambda(start, stop, omp_threads, func, qubits,
    params)]. *)
Inductive apply_reduction_lambda_params (start stop omp_threads : Z)
    (func : list Z → param_t → real * real → real * real) (qubits : list nat)
    (params : param_t) : option (real * real) → Prop :=
| apply_reduction_lambda_params_sequential :
    omp_threads <= 1 →
    apply_reduction_lambda_params start stop omp_threads func qubits params
      (apply_lambda_seq start stop (fun inds => func inds params) qubits (r0, r0)).
End Reductions.

(** * Properties *)

(** ** The tables *)

Lemma BITS_lookup (i : nat) : (i < 64)%nat → BITS !! i = Some (2 ^ Z.of_nat i).
Proof.
  intros Hi. do 64 (destruct i as [|i]; [reflexivity|]). lia.
Qed.

Lemma MASKS_lookup (i : nat) : (i < 64)%nat → MASKS !! i = Some (Z.ones (Z.of_nat i)).
Proof.
  intros Hi. do 64 (destruct i as [|i]; [reflexivity|]). lia.
Qed.

Lemma BITS_lookup_None (i : nat) : (64 ≤ i)%nat → BITS !! i = None.
Proof. intros Hi. apply lookup_ge_None. exact Hi. Qed.

Lemma MASKS_lookup_None (i : nat) : (64 ≤ i)%nat → MASKS !! i = None.
Proof. intros Hi. apply lookup_ge_None. exact Hi. Qed.

Lemma BITS_lookup_Some (i : nat) (b : Z) :
  BITS !! i = Some b → (i < 64)%nat ∧ b = 2 ^ Z.of_nat i.
Proof.
  intros Hb. destruct (decide (i < 64)%nat) as [Hi|Hi].
  - rewrite (BITS_lookup i Hi) in Hb. split; [exact Hi|congruence].
  - rewrite BITS_lookup_None in Hb by lia. discriminate.
Qed.

(** ** Bits of machine integers *)

Lemma testbit_mod_pow2 (a n i : Z) :
  0 <= n → Z.testbit (a mod 2 ^ n) i = (i <? n) && Z.testbit a i.
Proof.
  intros Hn. destruct (Z.ltb_spec i n).
  - rewrite Z.mod_pow2_bits_low by lia. reflexivity.
  - rewrite Z.mod_pow2_bits_high by lia. reflexivity.
Qed.

Lemma testbit_ones_nonneg (n i : Z) :
  0 <= n → 0 <= i → Z.testbit (Z.ones n) i = (i <? n).
Proof.
  intros Hn Hi. destruct (Z.ltb_spec i n).
  - apply Z.ones_spec_low. lia.
  - apply Z.ones_spec_high. lia.
Qed.

Lemma testbit_pow2 (q i : Z) :
  0 <= q → Z.testbit (2 ^ q) i = (i =? q).
Proof.
  intros Hq. destruct (Z.eqb_spec i q) as [->|Hne].
  - apply Z.pow2_bits_true. lia.
  - apply Z.pow2_bits_false. lia.
Qed.

(** A number all of whose bits from [n] on are clear lies in [[0, 2^n)]. *)
Lemma high_bits_clear_lt (x n : Z) :
  0 <= n → (∀ i, n <= i → Z.testbit x i = false) → 0 <= x < 2 ^ n.
Proof.
  intros Hn Hhigh.
  assert (x = x mod 2 ^ n) as ->.
  { apply Z.bits_inj'. intros i Hi. rewrite testbit_mod_pow2 by lia.
    destruct (Z.ltb_spec i n); [reflexivity|]. rewrite Hhigh by lia. reflexivity. }
  apply Z.mod_pos_bound. apply Z.pow_pos_nonneg; lia.
Qed.

Lemma lt_high_bits_clear (x n i : Z) :
  0 <= x < 2 ^ n → n <= i → Z.testbit x i = false.
Proof.
  intros Hx Hi. destruct (Z.le_gt_cases 0 n) as [Hn|Hn].
  - rewrite <- (Z.mod_small x (2 ^ n)) by lia.
    apply Z.mod_pow2_bits_high. lia.
  - rewrite Z.pow_neg_r in Hx by lia. lia.
Qed.

(** ** index0 *)

Lemma index0_step_Some (q : nat) (x : Z) :
  (q < 64)%nat →
  index0_step q x =
    Some (Z.lor (shl64 (Z.shiftr x (Z.of_nat q)) (Z.of_nat q + 1))
                (Z.land x (Z.ones (Z.of_nat q)))).
Proof.
  intros Hq. unfold index0_step. rewrite (MASKS_lookup q Hq). reflexivity.
Qed.

Lemma index0_step_lt (q : nat) (x y : Z) :
  index0_step q x = Some y → (q < 64)%nat.
Proof.
  intros Hy. destruct (decide (q < 64)%nat) as [Hq|Hq]; [exact Hq|].
  unfold index0_step in Hy. rewrite MASKS_lookup_None in Hy by lia. discriminate.
Qed.

(** The bits of one insertion: below [q] unchanged, [q] clear, above [q]
    moved up by one (and cut at 64 bits). *)
Lemma index0_step_testbit (q : nat) (x y i : Z) :
  index0_step q x = Some y → 0 <= i →
  Z.testbit y i =
    if i <? Z.of_nat q then Z.testbit x i
    else if i =? Z.of_nat q then false
    else (i <? 64) && Z.testbit x (i - 1).
Proof.
  intros Hy Hi. pose proof (index0_step_lt _ _ _ Hy) as Hq.
  rewrite index0_step_Some in Hy by exact Hq. injection Hy as <-.
  unfold shl64, wrap64.
  rewrite Z.lor_spec, Z.land_spec, testbit_mod_pow2 by lia.
  rewrite Z.shiftl_spec, testbit_ones_nonneg by lia.
  destruct (Z.ltb_spec i (Z.of_nat q)) as [Hlt|Hge].
  - rewrite (Z.testbit_neg_r _ (i - (Z.of_nat q + 1))) by lia.
    rewrite andb_false_r, andb_true_r. reflexivity.
  - rewrite andb_false_r, orb_false_r.
    destruct (Z.eqb_spec i (Z.of_nat q)) as [->|Hne].
    + rewrite (Z.testbit_neg_r _ (Z.of_nat q - (Z.of_nat q + 1))) by lia.
      apply andb_false_r.
    + rewrite Z.shiftr_spec by lia. do 2 f_equal. lia.
Qed.

Lemma index0_step_bound (q : nat) (x y m : Z) :
  index0_step q x = Some y → 0 <= m → 0 <= x < 2 ^ m → 0 <= y < 2 ^ (m + 1).
Proof.
  intros Hy Hm Hx. apply high_bits_clear_lt; [lia|]. intros i Hi.
  rewrite (index0_step_testbit _ _ _ _ Hy) by lia.
  destruct (Z.ltb_spec i (Z.of_nat q)).
  - apply (lt_high_bits_clear x m); [exact Hx|lia].
  - destruct (Z.eqb_spec i (Z.of_nat q)); [reflexivity|].
    rewrite (lt_high_bits_clear x m) by (try exact Hx; lia). apply andb_false_r.
Qed.

Lemma index0_step_uint (q : nat) (x y : Z) :
  index0_step q x = Some y → 0 <= y < 2 ^ 64.
Proof.
  intros Hy. pose proof (index0_step_lt _ _ _ Hy) as Hq.
  apply high_bits_clear_lt; [lia|]. intros i Hi.
  rewrite (index0_step_testbit _ _ _ _ Hy) by lia.
  destruct (Z.ltb_spec i (Z.of_nat q)); [lia|].
  destruct (Z.eqb_spec i (Z.of_nat q)); [reflexivity|].
  destruct (Z.ltb_spec i 64); [lia|reflexivity].
Qed.

Lemma index0_loop_is_Some (qs : list nat) (x : Z) :
  Forall (fun q => q < 64)%nat qs → is_Some (index0_loop qs x).
Proof.
  intros Hqs. revert x. induction Hqs as [|q qs Hq _ IH]; intros x; simpl.
  - eauto.
  - rewrite index0_step_Some by exact Hq. simpl. apply IH.
Qed.

Lemma index0_loop_bound (qs : list nat) (x y m : Z) :
  index0_loop qs x = Some y → 0 <= m → 0 <= x < 2 ^ m →
  0 <= y < 2 ^ (m + Z.of_nat (length qs)).
Proof.
  revert x m. induction qs as [|q qs IH]; intros x m Hy Hm Hx; simpl in *.
  - injection Hy as <-. rewrite Z.add_0_r. exact Hx.
  - destruct (index0_step q x) as [x'|] eqn:Hstep; [|discriminate]. simpl in Hy.
    pose proof (index0_step_bound _ _ _ _ Hstep Hm Hx) as Hx'.
    pose proof (IH _ (m + 1) Hy ltac:(lia) Hx') as Hb.
    replace (m + Z.of_nat (S (length qs))) with (m + 1 + Z.of_nat (length qs)) by lia.
    exact Hb.
Qed.

Lemma index0_loop_uint (qs : list nat) (x y : Z) :
  index0_loop qs x = Some y → 0 <= x < 2 ^ 64 → 0 <= y < 2 ^ 64.
Proof.
  revert x. induction qs as [|q qs IH]; intros x Hy Hx; simpl in *.
  - injection Hy as <-. exact Hx.
  - destruct (index0_step q x) as [x'|] eqn:Hstep; [|discriminate]. simpl in Hy.
    apply (IH x' Hy). exact (index0_step_uint _ _ _ Hstep).
Qed.

(** Insertions at higher positions leave a lower bit alone. *)
Lemma index0_loop_low (qs : list nat) (x y : Z) (p : nat) :
  Forall (fun q => p < q)%nat qs → index0_loop qs x = Some y →
  Z.testbit y (Z.of_nat p) = Z.testbit x (Z.of_nat p).
Proof.
  intros Hqs. revert x. induction Hqs as [|q qs Hq _ IH]; intros x Hy; simpl in *.
  - congruence.
  - destruct (index0_step q x) as [x'|] eqn:Hstep; [|discriminate]. simpl in Hy.
    rewrite (IH _ Hy). rewrite (index0_step_testbit _ _ _ _ Hstep) by lia.
    destruct (Z.ltb_spec (Z.of_nat p) (Z.of_nat q)); [reflexivity|lia].
Qed.

(** Every position of a strictly increasing list holds a zero bit in the
    result. *)
Lemma index0_loop_clear (qs : list nat) (x y : Z) (q : nat) :
  StronglySorted lt qs → index0_loop qs x = Some y → q ∈ qs →
  Z.testbit y (Z.of_nat q) = false.
Proof.
  intros Hsorted. revert x.
  induction Hsorted as [|q0 qs _ IH Hall]; intros x Hy Hin; simpl in *.
  - inversion Hin.
  - destruct (index0_step q0 x) as [x'|] eqn:Hstep; [|discriminate]. simpl in Hy.
    apply elem_of_cons in Hin as [->|Hin].
    + rewrite (index0_loop_low _ _ _ _ Hall Hy).
      rewrite (index0_step_testbit _ _ _ _ Hstep) by lia.
      rewrite Z.ltb_irrefl, Z.eqb_refl. reflexivity.
    + exact (IH _ Hy Hin).
Qed.

(** ** The doubling loops of indexes *)

Lemma pow2_to_nat (i : nat) : Z.to_nat (2 ^ Z.of_nat i) = (2 ^ i)%nat.
Proof.
  rewrite <- (Nat2Z.id (2 ^ i)). f_equal. rewrite Nat2Z.inj_pow. reflexivity.
Qed.

Lemma store_Some {A : Type} (a : list A) (i : nat) (v : A) :
  (i < length a)%nat → store a i v = Some (<[i:=v]> a).
Proof. intros Hi. unfold store. rewrite decide_True by exact Hi. reflexivity. Qed.

Lemma for_loop_add {St : Type} (body : nat → St → option St) (lo a b : nat) (s : St) :
  for_loop body lo (a + b) s = s' ← for_loop body lo a s; for_loop body (lo + a) b s'.
Proof.
  revert lo s. induction a as [|a IH]; intros lo s; simpl.
  - rewrite Nat.add_0_r. reflexivity.
  - destruct (body lo s) as [s1|]; simpl; [|reflexivity].
    rewrite IH. replace (S lo + a)%nat with (lo + S a)%nat by lia. reflexivity.
Qed.

(** The inner loop, started at [j] with [mid] already written. *)
Lemma indexes_inner_from (bit : Z) (pre : list Z) (c : nat) :
  ∀ (j : nat) (mid rest : list Z),
    (j + c = length pre)%nat → length mid = j → (c ≤ length rest)%nat →
    for_loop (fun j ret => v ← ret !! j; store ret (length pre + j) (Z.lor v bit))
      j c (pre ++ mid ++ rest)
    = Some (pre ++ mid ++ ((fun x => Z.lor x bit) <$> drop j pre) ++ drop c rest).
Proof.
  induction c as [|c IH]; intros j mid rest Hj Hmid Hrest; simpl.
  - rewrite drop_ge by lia. reflexivity.
  - destruct (lookup_lt_is_Some_2 pre j ltac:(lia)) as [v Hv].
    rewrite lookup_app_l by lia. rewrite Hv. simpl.
    destruct rest as [|r rest]; [simpl in Hrest; lia|].
    rewrite store_Some by (rewrite !length_app; simpl; lia).
    rewrite insert_app_r. rewrite <- Hmid.
    replace (length mid) with (length mid + 0)%nat at 1 by lia.
    rewrite insert_app_r. simpl.
    replace (pre ++ mid ++ Z.lor v bit :: rest)
      with (pre ++ (mid ++ [Z.lor v bit]) ++ rest)
      by (rewrite <- (app_assoc mid); reflexivity).
    rewrite IH; [|lia|rewrite length_app; simpl; lia|simpl in Hrest; lia].
    rewrite (drop_S pre v (length mid)) by (rewrite Hmid; exact Hv).
    simpl. rewrite <- (app_assoc mid). rewrite Hmid. reflexivity.
Qed.

Lemma indexes_inner_spec (bit : Z) (pre rest : list Z) :
  (length pre ≤ length rest)%nat →
  indexes_inner (length pre) bit (pre ++ rest)
  = Some (pre ++ ((fun x => Z.lor x bit) <$> pre) ++ drop (length pre) rest).
Proof.
  intros Hrest. unfold indexes_inner.
  exact (indexes_inner_from bit pre (length pre) 0 [] rest eq_refl eq_refl Hrest).
Qed.

Lemma block_snoc (i0 : Z) (qs : list nat) (q : nat) :
  block i0 (qs ++ [q])
  = block i0 qs ++ ((fun x => Z.lor x (2 ^ Z.of_nat q)) <$> block i0 qs).
Proof. unfold block. rewrite foldl_snoc. reflexivity. Qed.

Lemma length_block (i0 : Z) (qs : list nat) :
  length (block i0 qs) = (2 ^ length qs)%nat.
Proof.
  induction qs as [|q qs IH] using rev_ind; [reflexivity|].
  rewrite block_snoc, !length_app, length_fmap, IH. simpl.
  rewrite Nat.add_1_r. simpl. lia.
Qed.

Lemma indexes_outer_spec (qubits : list nat) (i q : nat) (pre rest : list Z) :
  qubits !! i = Some q → (i < 64)%nat → (q < 64)%nat →
  length pre = (2 ^ i)%nat → (2 ^ i ≤ length rest)%nat →
  indexes_outer qubits i (pre ++ rest)
  = Some (pre ++ ((fun x => Z.lor x (2 ^ Z.of_nat q)) <$> pre) ++ drop (2 ^ i) rest).
Proof.
  intros Hq Hi Hq64 Hpre Hrest. unfold indexes_outer.
  rewrite (BITS_lookup i Hi). simpl. rewrite Hq. simpl.
  rewrite (BITS_lookup q Hq64). simpl.
  rewrite pow2_to_nat, <- Hpre. apply indexes_inner_spec. lia.
Qed.

(** The loop over [i], started at [i] with the first [2^i] entries filled. *)
Lemma indexes_loop_from (qubits : list nat) (i0 : Z) (N : nat) (c : nat) :
  ∀ i : nat,
    (i + c = N)%nat → (N < 64)%nat → (N ≤ length qubits)%nat →
    Forall (fun q => q < 64)%nat qubits →
    for_loop (indexes_outer qubits) i c
      (block i0 (take i qubits) ++ replicate (2 ^ N - 2 ^ i) 0)
    = Some (block i0 (take N qubits)).
Proof.
  induction c as [|c IH]; intros i Hic HN Hlen Hall; simpl.
  - replace i with N by lia. rewrite Nat.sub_diag. simpl.
    rewrite app_nil_r. reflexivity.
  - destruct (lookup_lt_is_Some_2 qubits i ltac:(lia)) as [q Hq].
    assert (q < 64)%nat as Hq64.
    { exact (Forall_lookup_1 _ _ _ _ Hall Hq). }
    assert (2 ^ S i ≤ 2 ^ N)%nat as Hpow by (apply Nat.pow_le_mono_r; lia).
    simpl in Hpow.
    rewrite (indexes_outer_spec qubits i q); try assumption; try lia.
    + cbn [mbind option_bind]. rewrite drop_replicate, app_assoc.
      rewrite <- block_snoc, <- (take_S_r _ _ _ Hq).
      replace (2 ^ N - 2 ^ i - 2 ^ i)%nat with (2 ^ N - 2 ^ S i)%nat by (simpl; lia).
      apply IH; [lia|assumption..].
    + rewrite length_block, length_take. f_equal. lia.
    + rewrite length_replicate. lia.
Qed.

(** With fewer than 64 positions, all below 64, the variable-size function
    returns the doubling block over the first [N] entries of [qubits]. *)
Lemma indexes_block (qubits qubits_sorted : list nat) (k i0 : Z) :
  (length qubits_sorted < 64)%nat →
  (length qubits_sorted ≤ length qubits)%nat →
  Forall (fun q => q < 64)%nat qubits →
  index0 qubits_sorted k = Some i0 →
  indexes qubits qubits_sorted k
  = Some (block i0 (take (length qubits_sorted) qubits)).
Proof.
  intros HN Hlen Hall Hi0. unfold indexes.
  rewrite (BITS_lookup _ HN). cbn [mbind option_bind].
  rewrite Hi0. cbn [mbind option_bind].
  rewrite pow2_to_nat.
  assert (0 < 2 ^ length qubits_sorted)%nat as Hpos.
  { apply Nat.neq_0_lt_0, Nat.pow_nonzero. lia. }
  rewrite store_Some by (rewrite length_replicate; exact Hpos).
  cbn [mbind option_bind].
  destruct (2 ^ length qubits_sorted)%nat as [|n] eqn:Hpow; [lia|].
  simpl replicate. simpl insert.
  change (i0 :: replicate n 0) with (block i0 (take 0 qubits) ++ replicate n 0).
  replace n with (2 ^ length qubits_sorted - 2 ^ 0)%nat by (simpl; lia).
  apply indexes_loop_from; [lia|assumption..].
Qed.

(** ** The entries of a block *)

Lemma bits_or_app (s1 s2 : list nat) :
  bits_or (s1 ++ s2) = Z.lor (bits_or s1) (bits_or s2).
Proof.
  induction s1 as [|q s1 IH]; simpl.
  - reflexivity.
  - rewrite IH. apply Z.lor_assoc.
Qed.

Lemma bits_or_testbit (s : list nat) (p : nat) :
  Z.testbit (bits_or s) (Z.of_nat p) = bool_decide (p ∈ s).
Proof.
  induction s as [|q s IH].
  - change (bits_or []) with 0. rewrite Z.bits_0. symmetry.
    apply bool_decide_eq_false_2. apply not_elem_of_nil.
  - change (bits_or (q :: s)) with (Z.lor (2 ^ Z.of_nat q) (bits_or s)).
    rewrite Z.lor_spec, IH, testbit_pow2 by lia.
    destruct (Z.eqb_spec (Z.of_nat p) (Z.of_nat q)) as [Heq|Hne].
    + symmetry. apply bool_decide_eq_true_2. apply Nat2Z.inj in Heq as ->. left.
    + apply bool_decide_ext. rewrite elem_of_cons.
      split; [tauto|]. intros [->|?]; [lia|assumption].
Qed.

Lemma bits_or_bound (s : list nat) (M : nat) :
  Forall (fun q => q < M)%nat s → 0 <= bits_or s < 2 ^ Z.of_nat M.
Proof.
  intros Hs. apply high_bits_clear_lt; [lia|]. intros i Hi.
  rewrite <- (Z2Nat.id i) by lia. rewrite bits_or_testbit.
  apply bool_decide_eq_false. intros Hin.
  pose proof (proj1 (list.Forall_forall _ _) Hs _ Hin) as Hlt.
  cbv beta in Hlt. lia.
Qed.

(** Every entry is entry 0 with the bits of a sub-list of [qs] OR-ed in. *)
Lemma block_entries (i0 : Z) (qs : list nat) (x : Z) :
  x ∈ block i0 qs → ∃ s, sublist s qs ∧ x = Z.lor i0 (bits_or s).
Proof.
  revert x. induction qs as [|q qs IH] using rev_ind; intros x Hx.
  - apply list_elem_of_singleton in Hx as ->. exists []. split; [constructor|].
    simpl. symmetry. apply Z.lor_0_r.
  - rewrite block_snoc in Hx. apply elem_of_app in Hx as [Hx|Hx].
    + destruct (IH _ Hx) as (s & Hs & ->). exists s. split; [|reflexivity].
      apply sublist_inserts_r. exact Hs.
    + apply list_elem_of_fmap in Hx as (y & -> & Hy).
      destruct (IH _ Hy) as (s & Hs & ->). exists (s ++ [q]). split.
      * apply sublist_app; [exact Hs|reflexivity].
      * rewrite bits_or_app. simpl. rewrite Z.lor_0_r, Z.lor_assoc. reflexivity.
Qed.

Lemma block_head (i0 : Z) (qs : list nat) : block i0 qs !! 0%nat = Some i0.
Proof.
  induction qs as [|q qs IH] using rev_ind; [reflexivity|].
  rewrite block_snoc. rewrite lookup_app_l; [exact IH|].
  rewrite length_block. apply Nat.neq_0_lt_0, Nat.pow_nonzero. lia.
Qed.

(** Outside the listed positions every entry has the bits of entry 0. *)
Lemma block_other_bits (i0 : Z) (qs : list nat) (x : Z) (p : nat) :
  x ∈ block i0 qs → p ∉ qs → Z.testbit x (Z.of_nat p) = Z.testbit i0 (Z.of_nat p).
Proof.
  intros Hx Hp. destruct (block_entries _ _ _ Hx) as (s & Hs & ->).
  rewrite Z.lor_spec, bits_or_testbit.
  rewrite bool_decide_eq_false_2; [apply orb_false_r|].
  intros Hin. apply Hp. exact (elem_of_sublist _ _ _ Hin Hs).
Qed.

Lemma block_bound (i0 : Z) (qs : list nat) (M : nat) (x : Z) :
  0 <= i0 < 2 ^ Z.of_nat M → Forall (fun q => q < M)%nat qs →
  x ∈ block i0 qs → 0 <= x < 2 ^ Z.of_nat M.
Proof.
  intros Hi0 Hqs Hx. destruct (block_entries _ _ _ Hx) as (s & Hs & ->).
  assert (Forall (fun q => q < M)%nat s) as Hs'.
  { apply list.Forall_forall. intros q Hq.
    exact (proj1 (list.Forall_forall _ _) Hqs _ (elem_of_sublist _ _ _ Hq Hs)). }
  pose proof (bits_or_bound s M Hs') as Hb.
  apply high_bits_clear_lt; [lia|]. intros i Hi. rewrite Z.lor_spec.
  rewrite (lt_high_bits_clear i0 (Z.of_nat M)), (lt_high_bits_clear _ (Z.of_nat M));
    auto.
Qed.

(** The entries are pairwise distinct when the positions are, and entry 0 is
    clear at each of them. *)
Lemma block_NoDup (i0 : Z) (qs : list nat) :
  NoDup qs → (∀ q, q ∈ qs → Z.testbit i0 (Z.of_nat q) = false) →
  NoDup (block i0 qs).
Proof.
  induction qs as [|q qs IH] using rev_ind; intros Hnd Hclear.
  - apply NoDup_singleton.
  - apply list.NoDup_app in Hnd as (Hnd & Hq & _).
    assert (q ∉ qs) as Hq'.
    { intros Hin. apply (Hq q Hin). apply list_elem_of_singleton. reflexivity. }
    assert (∀ x, x ∈ block i0 qs → Z.testbit x (Z.of_nat q) = false) as Hzero.
    { intros x Hx. rewrite (block_other_bits _ _ _ _ Hx Hq').
      apply Hclear. apply elem_of_app. right. apply list_elem_of_singleton. reflexivity. }
    rewrite block_snoc. apply list.NoDup_app. split; [|split].
    + apply IH; [exact Hnd|]. intros p Hp. apply Hclear, elem_of_app. left. exact Hp.
    + intros x Hx Hx'. apply list_elem_of_fmap in Hx' as (y & -> & Hy).
      pose proof (Hzero _ Hx) as Hbit.
      rewrite Z.lor_spec, testbit_pow2, Z.eqb_refl, orb_true_r in Hbit by lia.
      discriminate.
    + apply NoDup_fmap_2_strong.
      * intros x y Hx Hy Heq. apply Z.bits_inj'. intros i Hi.
        pose proof (f_equal (fun z => Z.testbit z i) Heq) as Hbit. simpl in Hbit.
        rewrite !Z.lor_spec, testbit_pow2 in Hbit by lia.
        destruct (Z.eqb_spec i (Z.of_nat q)) as [->|Hne].
        -- rewrite (Hzero _ Hx), (Hzero _ Hy). reflexivity.
        -- rewrite !orb_false_r in Hbit. exact Hbit.
      * apply IH; [exact Hnd|]. intros p Hp. apply Hclear, elem_of_app. left. exact Hp.
Qed.

(** ** Sorting the qubit list *)

Lemma sort_Permutation (qubits : list nat) : sort qubits ≡ₚ qubits.
Proof. apply merge_sort_Permutation. Qed.

Lemma length_sort (qubits : list nat) : length (sort qubits) = length qubits.
Proof. apply Permutation_length, sort_Permutation. Qed.

Lemma elem_of_sort (qubits : list nat) (q : nat) : q ∈ sort qubits ↔ q ∈ qubits.
Proof. rewrite (sort_Permutation qubits). reflexivity. Qed.

Lemma Forall_sort (P : nat → Prop) (qubits : list nat) :
  Forall P qubits → Forall P (sort qubits).
Proof. intros HP. rewrite (sort_Permutation qubits). exact HP. Qed.

Lemma StronglySorted_le_lt (l : list nat) :
  StronglySorted Nat.le l → NoDup l → StronglySorted lt l.
Proof.
  induction 1 as [|x l Hl IH Hall]; intros Hnd; constructor.
  - apply IH. apply list.NoDup_cons in Hnd. tauto.
  - apply list.NoDup_cons in Hnd as [Hx _].
    apply list.Forall_forall. intros y Hy.
    pose proof (proj1 (list.Forall_forall _ _) Hall y Hy) as Hle. cbv beta in Hle.
    destruct (decide (x = y)) as [->|Hne]; [contradiction|]. unfold Nat.le in Hle. lia.
Qed.

Lemma sort_sorted (qubits : list nat) :
  NoDup qubits → StronglySorted lt (sort qubits).
Proof.
  intros Hnd. apply StronglySorted_le_lt.
  - apply (StronglySorted_merge_sort Nat.le); apply _.
  - rewrite (sort_Permutation qubits). exact Hnd.
Qed.

(** ** The index block *)

(** The block of a reduced index exists and has [2^N] entries. *)
Lemma index_block_total (qubits : list nat) (k : Z) :
  (length qubits < 64)%nat → Forall (fun q => q < 64)%nat qubits →
  indexes qubits (sort qubits) k = Some (index_block qubits k) ∧
  length (index_block qubits k) = (2 ^ length qubits)%nat.
Proof.
  intros HN H64.
  destruct (index0_loop_is_Some (sort qubits) k (Forall_sort _ _ H64)) as [i0 Hi0].
  pose proof (indexes_block qubits (sort qubits) k i0) as Hblk.
  rewrite length_sort, firstn_all in Hblk.
  specialize (Hblk HN (Nat.le_refl _) H64 Hi0).
  unfold index_block. rewrite Hblk. split; [reflexivity|]. apply length_block.
Qed.

Lemma mapM_indexes (qubits : list nat) (ks : list Z) :
  (length qubits < 64)%nat → Forall (fun q => q < 64)%nat qubits →
  mapM (indexes qubits (sort qubits)) ks = Some (index_block qubits <$> ks).
Proof.
  intros HN H64. apply mapM_Some_2. induction ks as [|k ks IH]; constructor.
  - apply (index_block_total qubits k HN H64).
  - exact IH.
Qed.

Ltac by_decision := apply (bool_decide_unpack _); vm_compute; exact I.

(** C1 (amended): for a duplicate-free qubit list [Q] of size [N <= 59], a
    qubit count [M <= 64] above every position (so every position is below
    64 and full indices fit the 64-bit word) and a reduced index [k] in
    [[0, 2^(M-N))], [indexes(Q, sort(Q), k)] returns a block of [2^N] indices
    in [[0, 2^M)], pairwise distinct, whose entry 0 is [index0(sort(Q), k)];
    every entry is entry 0 with the bits [BITS[q]] of a sub-list of [Q] OR-ed
    in, so two entries agree at every position outside [Q].  The bound on [N]
    is that of the allocation: [new uint_t[BITS[N]]] asks for [2^(N+3)] bytes,
    which no 64-bit allocation can give from [N = 60] on. *)
Theorem indexes_block_properties (Q : list nat) (M : nat) (k : Z) :
  NoDup Q →
  (length Q < 60)%nat →
  (M ≤ 64)%nat →
  Forall (fun q => q < M)%nat Q →
  0 <= k < 2 ^ (Z.of_nat M - Z.of_nat (length Q)) →
  ∃ blk i0,
    indexes Q (sort Q) k = Some blk ∧
    index0 (sort Q) k = Some i0 ∧
    blk !! 0%nat = Some i0 ∧
    length blk = (2 ^ length Q)%nat ∧
    Forall (fun x => 0 <= x < 2 ^ Z.of_nat M) blk ∧
    NoDup blk ∧
    (∀ x, x ∈ blk → ∃ s, sublist s Q ∧ x = Z.lor i0 (bits_or s)) ∧
    (∀ x y p, x ∈ blk → y ∈ blk → p ∉ Q →
       Z.testbit x (Z.of_nat p) = Z.testbit y (Z.of_nat p)).
Proof.
  intros Hnd HN60 HM64 HM Hk.
  assert (Forall (fun q => q < 64)%nat Q) as H64.
  { eapply Forall_impl; [exact HM|]. intros q Hq. simpl in Hq. lia. }
  assert (length Q < 64)%nat as HN by lia.
  assert (Z.of_nat (length Q) <= Z.of_nat M) as HNM.
  { destruct (Z.le_gt_cases (Z.of_nat (length Q)) (Z.of_nat M)); [assumption|].
    rewrite Z.pow_neg_r in Hk by lia. lia. }
  destruct (index0_loop_is_Some (sort Q) k (Forall_sort _ _ H64)) as [i0 Hi0].
  fold (index0 (sort Q) k) in Hi0.
  pose proof (indexes_block Q (sort Q) k i0) as Hblk.
  rewrite length_sort, firstn_all in Hblk.
  specialize (Hblk HN (Nat.le_refl _) H64 Hi0).
  assert (0 <= i0 < 2 ^ Z.of_nat M) as Hi0M.
  { pose proof (index0_loop_bound _ _ _ (Z.of_nat M - Z.of_nat (length Q))
                  Hi0 ltac:(lia) Hk) as Hb.
    rewrite length_sort in Hb.
    replace (Z.of_nat M - Z.of_nat (length Q) + Z.of_nat (length Q))
      with (Z.of_nat M) in Hb by lia.
    exact Hb. }
  exists (block i0 Q), i0. repeat split.
  - exact Hblk.
  - exact Hi0.
  - apply block_head.
  - apply length_block.
  - apply list.Forall_forall. intros x Hx. exact (block_bound _ _ _ _ Hi0M HM Hx).
  - apply block_NoDup; [exact Hnd|]. intros q Hq.
    apply (index0_loop_clear (sort Q) k i0 q (sort_sorted _ Hnd) Hi0).
    apply elem_of_sort, Hq.
  - intros x Hx. exact (block_entries _ _ _ Hx).
  - intros x y p Hx Hy Hp.
    rewrite (block_other_bits _ _ _ _ Hx Hp), (block_other_bits _ _ _ _ Hy Hp).
    reflexivity.
Qed.

Lemma indexes_block_properties_witness :
  ∃ blk i0,
    indexes [4; 1]%nat (sort [4; 1]%nat) 77 = Some blk ∧
    index0 (sort [4; 1]%nat) 77 = Some i0 ∧
    blk !! 0%nat = Some i0 ∧
    length blk = (2 ^ length [4; 1]%nat)%nat ∧
    Forall (fun x => 0 <= x < 2 ^ Z.of_nat 9) blk ∧
    NoDup blk ∧
    (∀ x, x ∈ blk → ∃ s, sublist s [4; 1]%nat ∧ x = Z.lor i0 (bits_or s)) ∧
    (∀ x y p, x ∈ blk → y ∈ blk → p ∉ [4; 1]%nat →
       Z.testbit x (Z.of_nat p) = Z.testbit y (Z.of_nat p)).
Proof.
  apply (indexes_block_properties [4; 1]%nat 9 77).
  - by_decision.
  - simpl. lia.
  - lia.
  - by_decision.
  - simpl. lia.
Defined.

(** C1 as stated fails for 64 qubits: the list of all positions below 64 is
    duplicate-free and [k = 0] is the reduced index of [M = 64], but
    [BITS[64]] lies outside the table and no block is returned. *)
Lemma indexes_64_qubits_undefined :
  NoDup (seq 0 64) ∧
  Forall (fun q => q < 64)%nat (seq 0 64) ∧
  0 <= 0 < 2 ^ (Z.of_nat 64 - Z.of_nat (length (seq 0 64))) ∧
  length BITS = 64%nat ∧
  BITS !! length (sort (seq 0 64)) = None ∧
  indexes (seq 0 64) (sort (seq 0 64)) 0 = None.
Proof.
  split; [apply NoDup_seq|]. split; [by_decision|]. split; [simpl; lia|].
  split; [reflexivity|]. split; vm_compute; reflexivity.
Qed.

(** C2: the fixed-size function [indexes<N>] and the variable-size function
    return the same sequence of indices, element for element. *)
Theorem indexes_fixed_variable (qs qubits_sorted : list nat) (k : Z) :
  indexes_fixed (length qubits_sorted) qs qubits_sorted k
  = indexes qs qubits_sorted k.
Proof.
  unfold indexes_fixed, indexes.
  destruct (decide (length qubits_sorted < 64)%nat) as [HN|HN].
  - rewrite (BITS_lookup _ HN). cbn [mbind option_bind].
    unfold shl64, wrap64. rewrite Z.shiftl_1_l.
    rewrite Z.mod_small; [reflexivity|].
    split; [apply Z.pow_nonneg; lia|]. apply Z.pow_lt_mono_r; lia.
  - rewrite BITS_lookup_None by lia. cbn [mbind option_bind].
    assert (shl64 1 (Z.of_nat (length qubits_sorted)) = 0) as ->.
    { unfold shl64, wrap64. rewrite Z.shiftl_1_l.
      replace (Z.of_nat (length qubits_sorted))
        with (Z.of_nat (length qubits_sorted) - 64 + 64) by lia.
      rewrite Z.pow_add_r by lia. apply Z.mod_mul. lia. }
    destruct (index0 qubits_sorted k); reflexivity.
Qed.

(** C3: [index0([1,4], 77) = 297] and
    [indexes([1,4], [1,4], 77) = [297, 299, 313, 315]]. *)
Theorem indexes_example :
  index0 [1; 4]%nat 77 = Some 297 ∧
  indexes [1; 4]%nat [1; 4]%nat 77 = Some [297; 299; 313; 315].
Proof. split; vm_compute; reflexivity. Qed.

(** ** index0 and the spectator bits *)

Lemma index0_step_testbit_small (q : nat) (x y i : Z) :
  index0_step q x = Some y → 0 <= x < 2 ^ 63 → 0 <= i →
  Z.testbit y i =
    if i <? Z.of_nat q then Z.testbit x i
    else if i =? Z.of_nat q then false
    else Z.testbit x (i - 1).
Proof.
  intros Hy Hx Hi. rewrite (index0_step_testbit _ _ _ _ Hy Hi).
  destruct (Z.ltb_spec i (Z.of_nat q)); [reflexivity|].
  destruct (Z.eqb_spec i (Z.of_nat q)); [reflexivity|].
  destruct (Z.ltb_spec i 64); [reflexivity|].
  symmetry. apply (lt_high_bits_clear x 63); [exact Hx|lia].
Qed.

Lemma remove_bit_testbit (q : nat) (y i : Z) :
  0 <= i →
  Z.testbit (remove_bit q y) i =
    if i <? Z.of_nat q then Z.testbit y i else Z.testbit y (i + 1).
Proof.
  intros Hi. unfold remove_bit.
  rewrite Z.lor_spec, Z.land_spec, Z.shiftl_spec, testbit_ones_nonneg by lia.
  destruct (Z.ltb_spec i (Z.of_nat q)).
  - rewrite Z.testbit_neg_r by lia. rewrite andb_true_r. reflexivity.
  - rewrite Z.shiftr_spec by lia. rewrite andb_false_r, orb_false_r.
    f_equal. lia.
Qed.

(** Deleting the bit just inserted gives the number back. *)
Lemma remove_bit_index0_step (q : nat) (x y : Z) :
  index0_step q x = Some y → 0 <= x < 2 ^ 63 → remove_bit q y = x.
Proof.
  intros Hy Hx. apply Z.bits_inj'. intros i Hi.
  rewrite remove_bit_testbit by lia.
  destruct (Z.ltb_spec i (Z.of_nat q)).
  - rewrite (index0_step_testbit_small _ _ _ _ Hy Hx Hi).
    destruct (Z.ltb_spec i (Z.of_nat q)); [reflexivity|lia].
  - rewrite (index0_step_testbit_small _ _ _ _ Hy Hx) by lia.
    destruct (Z.ltb_spec (i + 1) (Z.of_nat q)); [lia|].
    destruct (Z.eqb_spec (i + 1) (Z.of_nat q)); [lia|]. f_equal. lia.
Qed.

(** Reading back the spectator bits undoes [index0], as long as the result
    fits in 64 bits. *)
Lemma spectator_bits_index0_loop (qs : list nat) :
  ∀ (x y m : Z),
    0 <= m → 0 <= x < 2 ^ m → m + Z.of_nat (length qs) <= 64 →
    index0_loop qs x = Some y → spectator_bits qs y = x.
Proof.
  induction qs as [|q qs IH]; intros x y m Hm Hx Hfit Hy; simpl in *.
  - congruence.
  - destruct (index0_step q x) as [x'|] eqn:Hstep; [|discriminate]. simpl in Hy.
    pose proof (index0_step_bound _ _ _ _ Hstep Hm Hx) as Hx'.
    change (foldr remove_bit y qs) with (spectator_bits qs y).
    rewrite (IH x' y (m + 1)); [|lia|assumption|lia|assumption].
    apply (remove_bit_index0_step _ _ _ Hstep).
    split; [lia|]. apply Z.lt_le_trans with (2 ^ m); [lia|].
    apply Z.pow_le_mono_r; lia.
Qed.

Lemma sorted_lt_length (q : nat) (qs : list nat) (M : nat) :
  StronglySorted lt (q :: qs) → Forall (fun q => q < M)%nat (q :: qs) →
  (q + length qs < M)%nat.
Proof.
  revert q. induction qs as [|q1 qs IH]; intros q Hs HM.
  - apply list.Forall_cons in HM as [Hq _]. simpl. lia.
  - apply StronglySorted_inv in Hs as [Hs Hall].
    apply list.Forall_cons in HM as [_ HM].
    apply list.Forall_cons in Hall as [Hlt _].
    specialize (IH q1 Hs HM). simpl. lia.
Qed.

Lemma spectator_bits_bound (qs : list nat) (M : nat) (f : Z) :
  StronglySorted lt qs → Forall (fun q => q < M)%nat qs →
  0 <= f < 2 ^ Z.of_nat M →
  0 <= spectator_bits qs f < 2 ^ (Z.of_nat M - Z.of_nat (length qs)).
Proof.
  intros Hs HM Hf. induction qs as [|q qs IH].
  - simpl. rewrite Z.sub_0_r. exact Hf.
  - pose proof (sorted_lt_length _ _ _ Hs HM) as Hlen.
    apply StronglySorted_inv in Hs as [Hs _].
    pose proof HM as HM'. apply list.Forall_cons in HM' as [_ HM'].
    specialize (IH Hs HM').
    change (spectator_bits (q :: qs) f) with (remove_bit q (spectator_bits qs f)).
    apply high_bits_clear_lt; [simpl; lia|]. intros i Hi. simpl length in Hi.
    rewrite remove_bit_testbit by lia.
    destruct (Z.ltb_spec i (Z.of_nat q)); [lia|].
    eapply lt_high_bits_clear; [exact IH|lia].
Qed.

Lemma ldiff_pow2_testbit (x : Z) (p : nat) (i : Z) :
  0 <= i →
  Z.testbit (Z.ldiff x (2 ^ Z.of_nat p)) i = Z.testbit x i && negb (i =? Z.of_nat p).
Proof. intros Hi. rewrite Z.ldiff_spec, testbit_pow2 by lia. reflexivity. Qed.

(** Clearing a bit below the inserted position commutes with the insertion. *)
Lemma index0_step_clear_low (q p : nat) (x y : Z) :
  (p < q)%nat → index0_step q x = Some y →
  index0_step q (Z.ldiff x (2 ^ Z.of_nat p)) = Some (Z.ldiff y (2 ^ Z.of_nat p)).
Proof.
  intros Hpq Hy. pose proof (index0_step_lt _ _ _ Hy) as Hq.
  destruct (index0_step q (Z.ldiff x (2 ^ Z.of_nat p))) as [y'|] eqn:Hy'.
  2:{ rewrite index0_step_Some in Hy' by exact Hq. discriminate. }
  f_equal. apply Z.bits_inj'. intros i Hi.
  rewrite ldiff_pow2_testbit by lia.
  rewrite (index0_step_testbit _ _ _ _ Hy' Hi), (index0_step_testbit _ _ _ _ Hy Hi).
  destruct (Z.ltb_spec i (Z.of_nat q)).
  - apply ldiff_pow2_testbit. lia.
  - destruct (Z.eqb_spec i (Z.of_nat q)); [reflexivity|].
    rewrite ldiff_pow2_testbit by lia.
    destruct (Z.eqb_spec (i - 1) (Z.of_nat p)); [lia|].
    destruct (Z.eqb_spec i (Z.of_nat p)); [lia|].
    rewrite andb_assoc. reflexivity.
Qed.

Lemma index0_loop_clear_low (qs : list nat) (p : nat) (x y : Z) :
  Forall (fun q => p < q)%nat qs → index0_loop qs x = Some y →
  index0_loop qs (Z.ldiff x (2 ^ Z.of_nat p)) = Some (Z.ldiff y (2 ^ Z.of_nat p)).
Proof.
  intros Hqs. revert x. induction Hqs as [|q qs Hq _ IH]; intros x Hy; simpl in *.
  - congruence.
  - destruct (index0_step q x) as [x'|] eqn:Hstep; [|discriminate]. simpl in Hy.
    rewrite (index0_step_clear_low _ _ _ _ Hq Hstep). simpl. apply IH, Hy.
Qed.

(** Re-inserting a zero where a bit was deleted clears that bit. *)
Lemma index0_step_remove_bit (q : nat) (g : Z) :
  (q < 64)%nat → 0 <= g < 2 ^ 64 →
  index0_step q (remove_bit q g) = Some (Z.ldiff g (2 ^ Z.of_nat q)).
Proof.
  intros Hq Hg.
  destruct (index0_step q (remove_bit q g)) as [y|] eqn:Hy.
  2:{ rewrite index0_step_Some in Hy by exact Hq. discriminate. }
  f_equal. apply Z.bits_inj'. intros i Hi.
  rewrite ldiff_pow2_testbit by lia.
  rewrite (index0_step_testbit _ _ _ _ Hy Hi).
  destruct (Z.ltb_spec i (Z.of_nat q)).
  - rewrite remove_bit_testbit by lia.
    destruct (Z.ltb_spec i (Z.of_nat q)); [|lia].
    destruct (Z.eqb_spec i (Z.of_nat q)); [lia|]. rewrite andb_true_r. reflexivity.
  - destruct (Z.eqb_spec i (Z.of_nat q)); [rewrite andb_false_r; reflexivity|].
    rewrite remove_bit_testbit by lia.
    destruct (Z.ltb_spec (i - 1) (Z.of_nat q)); [lia|].
    replace (i - 1 + 1) with i by lia. rewrite andb_true_r.
    destruct (Z.ltb_spec i 64); [reflexivity|].
    symmetry. apply (lt_high_bits_clear g 64); [exact Hg|lia].
Qed.

Lemma remove_bit_bound (q : nat) (y n : Z) :
  0 <= n → 0 <= y < 2 ^ n → 0 <= remove_bit q y < 2 ^ n.
Proof.
  intros Hn Hy. apply high_bits_clear_lt; [exact Hn|]. intros i Hi.
  rewrite remove_bit_testbit by lia.
  destruct (Z.ltb_spec i (Z.of_nat q)); apply (lt_high_bits_clear y n); auto; lia.
Qed.

Lemma spectator_bits_uint (qs : list nat) (f n : Z) :
  0 <= n → 0 <= f < 2 ^ n → 0 <= spectator_bits qs f < 2 ^ n.
Proof.
  intros Hn Hf. induction qs as [|q qs IH]; [exact Hf|].
  apply remove_bit_bound; assumption.
Qed.

(** [index0] of the spectator bits of [f] is [f] with the bits at the listed
    positions cleared. *)
Lemma index0_loop_spectator_bits (qs : list nat) (f : Z) :
  StronglySorted lt qs → Forall (fun q => q < 64)%nat qs → 0 <= f < 2 ^ 64 →
  index0_loop qs (spectator_bits qs f) = Some (Z.ldiff f (bits_or qs)).
Proof.
  intros Hs H64 Hf. induction Hs as [|q qs Hs IH Hall].
  - simpl. rewrite Z.ldiff_0_r. reflexivity.
  - apply list.Forall_cons in H64 as [Hq H64]. specialize (IH H64).
    change (spectator_bits (q :: qs) f) with (remove_bit q (spectator_bits qs f)).
    cbn [index0_loop].
    rewrite index0_step_remove_bit;
      [|exact Hq|apply spectator_bits_uint; [lia|exact Hf]].
    cbn [mbind option_bind].
    rewrite (index0_loop_clear_low _ _ _ _ Hall IH). f_equal.
    change (bits_or (q :: qs)) with (Z.lor (2 ^ Z.of_nat q) (bits_or qs)).
    apply Z.bits_inj'. intros i Hi.
    rewrite !Z.ldiff_spec, Z.lor_spec.
    destruct (Z.testbit f i), (Z.testbit (bits_or qs) i),
      (Z.testbit (2 ^ Z.of_nat q) i); reflexivity.
Qed.

Lemma bits_or_testbit_Z (qs : list nat) (i : Z) :
  0 <= i → Z.testbit (bits_or qs) i = bool_decide (Z.to_nat i ∈ qs).
Proof.
  intros Hi. rewrite <- (Z2Nat.id i) at 1 by lia. apply bits_or_testbit.
Qed.

(** A full index determines the pair (entry 0, pattern) it is the OR of. *)
Lemma lor_pattern_inv (qs : list nat) (f i0 p : Z) :
  (∀ q, q ∈ qs → Z.testbit i0 (Z.of_nat q) = false) →
  pattern_on qs p → f = Z.lor i0 p →
  i0 = Z.ldiff f (bits_or qs) ∧ p = Z.land f (bits_or qs).
Proof.
  intros Hclear Hp ->. unfold pattern_on in Hp.
  assert (∀ i, 0 <= i → Z.testbit p i = true → Z.testbit (bits_or qs) i = true)
    as Hp'.
  { intros i Hi Hpi. pose proof (f_equal (fun z => Z.testbit z i) Hp) as Hb.
    simpl in Hb. rewrite Z.ldiff_spec, Z.bits_0, Hpi in Hb.
    destruct (Z.testbit (bits_or qs) i); [reflexivity|discriminate]. }
  assert (∀ i, 0 <= i → Z.testbit (bits_or qs) i = true → Z.testbit i0 i = false)
    as Hi0.
  { intros i Hi Hbi. rewrite bits_or_testbit_Z in Hbi by lia.
    apply bool_decide_eq_true_1 in Hbi. rewrite <- (Z2Nat.id i) by lia.
    apply Hclear, Hbi. }
  split; apply Z.bits_inj'; intros i Hi;
    rewrite ?Z.ldiff_spec, ?Z.land_spec, Z.lor_spec;
    specialize (Hp' i Hi); specialize (Hi0 i Hi);
    destruct (Z.testbit i0 i), (Z.testbit p i), (Z.testbit (bits_or qs) i);
    try reflexivity; try (specialize (Hp' eq_refl); discriminate);
    try (specialize (Hi0 eq_refl); discriminate).
Qed.

(** C4 (amended): for a sorted, duplicate-free qubit list [Qs] of size [N]
    and a qubit count [M <= 64] above every position, reading back the
    spectator bits of [index0(Qs, k)] gives [k] for every [k] in
    [[0, 2^(M-N))]; and every full index [f] in [[0, 2^M)] is
    [index0(Qs, k) | pattern] for exactly one reduced index [k] and one
    pattern supported on the positions of [Qs]. *)
Theorem index0_spectator_bijection (Qs : list nat) (M : nat) :
  Sorted Nat.le Qs → NoDup Qs →
  Forall (fun q => q < M)%nat Qs → (M ≤ 64)%nat →
  (∀ k, 0 <= k < 2 ^ (Z.of_nat M - Z.of_nat (length Qs)) →
     ∃ f, index0 Qs k = Some f ∧ spectator_bits Qs f = k) ∧
  (∀ f, 0 <= f < 2 ^ Z.of_nat M →
     ∃ k p i0,
       (0 <= k < 2 ^ (Z.of_nat M - Z.of_nat (length Qs)) ∧
        pattern_on Qs p ∧ index0 Qs k = Some i0 ∧ f = Z.lor i0 p) ∧
       ∀ k' p' i0',
         0 <= k' < 2 ^ (Z.of_nat M - Z.of_nat (length Qs)) →
         pattern_on Qs p' → index0 Qs k' = Some i0' → f = Z.lor i0' p' →
         k' = k ∧ p' = p).
Proof.
  intros Hsorted Hnd HM H64.
  assert (StronglySorted lt Qs) as Hs.
  { apply StronglySorted_le_lt; [|exact Hnd].
    apply Sorted_StronglySorted; [apply _|exact Hsorted]. }
  assert (Forall (fun q => q < 64)%nat Qs) as Hq64.
  { eapply list.Forall_impl; [exact HM|]. intros q Hq. simpl in Hq. lia. }
  assert (∀ k i0, 0 <= k < 2 ^ (Z.of_nat M - Z.of_nat (length Qs)) →
            index0 Qs k = Some i0 → spectator_bits Qs i0 = k) as Hround.
  { intros k i0 Hk Hi0.
    assert (Z.of_nat (length Qs) <= Z.of_nat M) as HNM.
    { destruct (Z.le_gt_cases (Z.of_nat (length Qs)) (Z.of_nat M)); [assumption|].
      rewrite Z.pow_neg_r in Hk by lia. lia. }
    apply (spectator_bits_index0_loop Qs k i0
             (Z.of_nat M - Z.of_nat (length Qs))); [lia|exact Hk|lia|exact Hi0]. }
  split.
  - intros k Hk. destruct (index0_loop_is_Some Qs k Hq64) as [f Hf].
    exists f. split; [exact Hf|]. exact (Hround k f Hk Hf).
  - intros f Hf.
    assert (0 <= f < 2 ^ 64) as Hf64.
    { split; [lia|]. apply Z.lt_le_trans with (2 ^ Z.of_nat M); [lia|].
      apply Z.pow_le_mono_r; lia. }
    pose proof (spectator_bits_bound Qs M f Hs HM Hf) as Hk.
    pose proof (index0_loop_spectator_bits Qs f Hs Hq64 Hf64) as Hi0.
    exists (spectator_bits Qs f), (Z.land f (bits_or Qs)), (Z.ldiff f (bits_or Qs)).
    split; [repeat split|].
    + lia.
    + lia.
    + unfold pattern_on. apply Z.bits_inj'. intros i Hi.
      rewrite Z.ldiff_spec, Z.land_spec, Z.bits_0.
      destruct (Z.testbit f i), (Z.testbit (bits_or Qs) i); reflexivity.
    + exact Hi0.
    + apply Z.bits_inj'. intros i Hi.
      rewrite Z.lor_spec, Z.ldiff_spec, Z.land_spec.
      destruct (Z.testbit f i), (Z.testbit (bits_or Qs) i); reflexivity.
    + intros k' p' i0' Hk' Hp' Hi0' Hfeq.
      destruct (lor_pattern_inv Qs f i0' p') as [Hi0eq Hpeq];
        [|exact Hp'|exact Hfeq|].
      { intros q Hq. exact (index0_loop_clear Qs k' i0' q Hs Hi0' Hq). }
      split; [|exact Hpeq]. subst i0'.
      rewrite <- (Hround k' _ Hk' Hi0').
      exact (Hround _ _ Hk Hi0).
Qed.

Lemma index0_spectator_bijection_witness :
  (∀ k, 0 <= k < 2 ^ (Z.of_nat 9 - Z.of_nat (length [1; 4]%nat)) →
     ∃ f, index0 [1; 4]%nat k = Some f ∧ spectator_bits [1; 4]%nat f = k) ∧
  (∀ f, 0 <= f < 2 ^ Z.of_nat 9 →
     ∃ k p i0,
       (0 <= k < 2 ^ (Z.of_nat 9 - Z.of_nat (length [1; 4]%nat)) ∧
        pattern_on [1; 4]%nat p ∧ index0 [1; 4]%nat k = Some i0 ∧
        f = Z.lor i0 p) ∧
       ∀ k' p' i0',
         0 <= k' < 2 ^ (Z.of_nat 9 - Z.of_nat (length [1; 4]%nat)) →
         pattern_on [1; 4]%nat p' → index0 [1; 4]%nat k' = Some i0' →
         f = Z.lor i0' p' → k' = k ∧ p' = p).
Proof.
  apply (index0_spectator_bijection [1; 4]%nat 9).
  - repeat constructor.
  - by_decision.
  - by_decision.
  - lia.
Defined.

(** C4 as stated fails beyond 64 qubits: with [M = 65] and the one-qubit
    list [[0]], the reduced index [2^63] is in range, but the shift drops
    its top bit, so [index0] maps it to 0, as it does the reduced index 0;
    the spectator bits of the result are not [2^63]. *)
Lemma index0_wraps_beyond_64_qubits :
  Sorted Nat.le [0%nat] ∧ NoDup [0%nat] ∧
  Forall (fun q => q < 64)%nat [0%nat] ∧ Forall (fun q => q < 65)%nat [0%nat] ∧
  0 <= 2 ^ 63 < 2 ^ (Z.of_nat 65 - Z.of_nat (length [0%nat])) ∧
  index0 [0%nat] (2 ^ 63) = Some 0 ∧
  index0 [0%nat] 0 = Some 0 ∧
  spectator_bits [0%nat] 0 ≠ 2 ^ 63.
Proof.
  split; [repeat constructor|]. split; [by_decision|].
  split; [by_decision|]. split; [by_decision|].
  split; [simpl; lia|].
  split; [vm_compute; reflexivity|]. split; [vm_compute; reflexivity|].
  vm_compute. discriminate.
Qed.

(** ** Traversals *)

Lemma wrap64_small (z : Z) : 0 <= z < 2 ^ 64 → wrap64 z = z.
Proof. intros Hz. apply Z.mod_small. exact Hz. Qed.

Lemma to_int64_small (z : Z) : 0 <= z < 2 ^ 63 → to_int64 z = z.
Proof.
  intros Hz. unfold to_int64. rewrite wrap64_small by lia.
  destruct (Z.ltb_spec z (2 ^ 63)); [reflexivity|lia].
Qed.

(** A counting loop visits [lo, lo + 1, ...] in this order. *)
Lemma for_loopZ_run_units {St : Type} (body : Z → St → option St)
    (lo : Z) (count : nat) (s : St) :
  for_loopZ body lo count s = run_units body (seqZ lo (Z.of_nat count)) s.
Proof.
  revert lo s. induction count as [|count IH]; intros lo s.
  - reflexivity.
  - rewrite seqZ_cons by lia. cbn [for_loopZ run_units].
    destruct (body lo s) as [s'|]; [|reflexivity]. cbn [mbind option_bind].
    rewrite IH. do 2 f_equal; lia.
Qed.

Lemma run_units_apply_lambda_body {St : Type} (func : list Z → St → St)
    (qubits qubits_sorted : list nat) (ks : list Z) (s : St) :
  Forall (fun k => 0 <= k < 2 ^ 64) ks →
  run_units (apply_lambda_body func qubits qubits_sorted) ks s
  = blocks ← mapM (indexes qubits qubits_sorted) ks;
    Some (foldl (fun s inds => func inds s) s blocks).
Proof.
  intros Hks. revert s. induction Hks as [|k ks Hk _ IH]; intros s.
  - reflexivity.
  - cbn [run_units mapM].
    assert (apply_lambda_body func qubits qubits_sorted k s
            = (inds ← indexes qubits qubits_sorted k; Some (func inds s))) as ->.
    { unfold apply_lambda_body. rewrite wrap64_small by exact Hk. reflexivity. }
    destruct (indexes qubits qubits_sorted k) as [inds|]; [|reflexivity].
    cbn [mbind option_bind]. rewrite IH.
    destruct (mapM (indexes qubits qubits_sorted) ks); reflexivity.
Qed.

(** C9: with [omp_threads <= 1] and fewer than 64 qubits (so that
    [stop >> |qubits|] is a shift the 64-bit word has), [apply_lambda(start,
    stop, omp_threads, func, qubits)] calls [func] once for every reduced
    index [k] from [start] to [(stop >> |qubits|) - 1], in increasing order, on
    the block [indexes(qubits, sort(qubits), k)]; with all positions below 64
    every one of these blocks exists.  [start] and [stop >> |qubits|] fit
    [int_t], [stop] is a [uint_t]. *)
Theorem apply_lambda_sequential_order {St : Type}
    (start stop omp_threads : Z) (func : list Z → St → St)
    (qubits : list nat) (s : St) (r : option St) :
  omp_threads <= 1 →
  (length qubits < 64)%nat →
  0 <= start < 2 ^ 63 →
  0 <= stop < 2 ^ 64 →
  Z.shiftr stop (Z.of_nat (length qubits)) < 2 ^ 63 →
  apply_lambda start stop omp_threads func qubits s r →
  r = (blocks ← mapM (indexes qubits (sort qubits))
                  (seqZ start (Z.shiftr stop (Z.of_nat (length qubits)) - start));
       Some (foldl (fun s inds => func inds s) s blocks)) ∧
  (Forall (fun q => q < 64)%nat qubits →
   r = Some (foldl (fun s inds => func inds s) s
               (index_block qubits <$>
                  seqZ start (Z.shiftr stop (Z.of_nat (length qubits)) - start)))).
Proof.
  intros Hthreads HN Hstart Hstop Hend' Hrun.
  assert (0 <= Z.shiftr stop (Z.of_nat (length qubits)) < 2 ^ 63) as Hend.
  { split; [apply Z.shiftr_nonneg; lia|exact Hend']. }
  destruct Hrun as [_|ks Hpar _|Hpar _]; [|lia|lia].
  unfold apply_lambda_seq. rewrite decide_True by exact HN.
  rewrite (to_int64_small start) by exact Hstart.
  rewrite (to_int64_small (Z.shiftr stop _)) by exact Hend.
  rewrite for_loopZ_run_units.
  set (END := Z.shiftr stop (Z.of_nat (length qubits))) in *.
  assert (seqZ start (Z.of_nat (Z.to_nat (END - start))) = seqZ start (END - start))
    as ->.
  { destruct (Z.le_gt_cases 0 (END - start)).
    - rewrite Z2Nat.id by lia. reflexivity.
    - rewrite !seqZ_nil by lia. reflexivity. }
  rewrite run_units_apply_lambda_body
    by (apply Forall_seqZ; intros k Hk; lia).
  split; [reflexivity|]. intros H64.
  rewrite (mapM_indexes qubits _ HN H64). reflexivity.
Qed.

Lemma apply_lambda_sequential_order_witness :
  Some [[2; 6; 3; 7]; [0; 4; 1; 5]]
  = Some (foldl (fun s inds => inds :: s) []
            (index_block [2; 0]%nat <$>
               seqZ 0 (Z.shiftr 8 (Z.of_nat (length [2; 0]%nat)) - 0))).
Proof.
  apply (apply_lambda_sequential_order 0 8 1 (fun inds s => inds :: s) [2; 0]%nat []).
  - lia.
  - simpl. lia.
  - lia.
  - lia.
  - vm_compute. reflexivity.
  - apply (apply_lambda_sequential 0 8 1 (fun inds s => inds :: s) [2; 0]%nat []). lia.
  - by_decision.
Defined.

Lemma parity_step (k : Z) (index : nat) (parity : bool) :
  bool_of_Z (Z.lxor (Z.b2z parity) (Z.land (Z.shiftr k (Z.of_nat index)) 1))
  = xorb parity (Z.testbit k (Z.of_nat index)).
Proof.
  change 1 with (Z.ones 1). rewrite Z.land_ones by lia.
  change (2 ^ 1) with 2. rewrite <- Z.bit0_mod.
  rewrite Z.shiftr_spec by lia. rewrite Z.add_0_l.
  destruct parity, (Z.testbit k (Z.of_nat index)); reflexivity.
Qed.

Lemma parity_loop_spec (k : Z) (qubits : list nat) (parity : bool) :
  Forall (fun q => q < 64)%nat qubits →
  parity_loop k qubits parity = Some (xorb parity (bits_xor k qubits)).
Proof.
  intros H64. revert parity.
  induction H64 as [|index qubits Hindex _ IH]; intros parity.
  - simpl. rewrite xorb_false_r. reflexivity.
  - cbn [parity_loop]. rewrite decide_True by exact Hindex.
    rewrite IH, parity_step.
    change (bits_xor k (index :: qubits))
      with (xorb (Z.testbit k (Z.of_nat index)) (bits_xor k qubits)).
    rewrite xorb_assoc. reflexivity.
Qed.

(** A position of 64 or more leaves the parity, and so the unit, without a
    defined result. *)
Lemma parity_loop_wide (k : Z) (qubits : list nat) (parity : bool) :
  Exists (fun q => 64 ≤ q)%nat qubits → parity_loop k qubits parity = None.
Proof.
  intros Hex. revert parity.
  induction Hex as [index qubits Hindex|index qubits _ IH]; intros parity.
  - cbn [parity_loop]. rewrite decide_False by lia. reflexivity.
  - cbn [parity_loop]. destruct (decide (index < 64)%nat); [apply IH|reflexivity].
Qed.

Lemma run_units_apply_lambda_MOSQ_body {St : Type} (func : Z → St → St)
    (qubits : list nat) (ks : list Z) (s : St) :
  Forall (fun q => q < 64)%nat qubits →
  run_units (apply_lambda_MOSQ_body func qubits) ks s
  = Some (foldl (fun s k => func k s) s
            (filter (fun k => bits_xor k qubits = true) ks)).
Proof.
  intros H64. revert s. induction ks as [|k ks IH]; intros s.
  - reflexivity.
  - cbn [run_units].
    assert (apply_lambda_MOSQ_body func qubits k s
            = Some (if bits_xor k qubits then func k s else s)) as ->.
    { unfold apply_lambda_MOSQ_body.
      rewrite (parity_loop_spec _ _ _ H64), xorb_false_l. reflexivity. }
    cbn [mbind option_bind]. rewrite IH.
    rewrite filter_cons. destruct (bits_xor k qubits) eqn:Hpar.
    + rewrite decide_True by reflexivity. reflexivity.
    + rewrite decide_False by discriminate. reflexivity.
Qed.

(** C10: with [omp_threads <= 1] and every listed position below 64 (the
    bits a 64-bit [k] has), [apply_lambda_MOSQ(start, stop, omp_threads, func,
    qubits)] calls [func(k)] for exactly those [k] of [[start, stop)] whose
    bits at the positions listed in [qubits] XOR to 1, in increasing order.
    [start] and [stop] fit [int_t]. *)
Theorem apply_lambda_MOSQ_odd_parity {St : Type}
    (start stop omp_threads : Z) (func : Z → St → St)
    (qubits : list nat) (s : St) (r : option St) :
  omp_threads <= 1 →
  Forall (fun q => q < 64)%nat qubits →
  0 <= start < 2 ^ 63 →
  0 <= stop < 2 ^ 63 →
  apply_lambda_MOSQ start stop omp_threads func qubits s r →
  r = Some (foldl (fun s k => func k s) s
              (filter (fun k => bits_xor k qubits = true)
                      (seqZ start (stop - start)))).
Proof.
  intros Hthreads H64 Hstart Hstop Hrun.
  destruct Hrun as [_|ks Hpar _]; [|lia].
  unfold apply_lambda_MOSQ_seq.
  rewrite (to_int64_small start), (to_int64_small stop) by assumption.
  rewrite for_loopZ_run_units.
  assert (seqZ start (Z.of_nat (Z.to_nat (stop - start))) = seqZ start (stop - start))
    as ->.
  { destruct (Z.le_gt_cases 0 (stop - start)).
    - rewrite Z2Nat.id by lia. reflexivity.
    - rewrite !seqZ_nil by lia. reflexivity. }
  apply run_units_apply_lambda_MOSQ_body, H64.
Qed.

Lemma apply_lambda_MOSQ_odd_parity_witness :
  Some [6; 4; 3; 1]
  = Some (foldl (fun s k => k :: s) []
            (filter (fun k => bits_xor k [0; 2]%nat = true) (seqZ 0 (8 - 0)))).
Proof.
  apply (apply_lambda_MOSQ_odd_parity 0 8 1 (fun k s => k :: s) [0; 2]%nat []).
  - lia.
  - by_decision.
  - lia.
  - lia.
  - apply (apply_lambda_MOSQ_sequential 0 8 1 (fun k s => k :: s) [0; 2]%nat []). lia.
Defined.

(** ** The state layer *)

(** A loop establishes [P (lo + count)] when every iteration in range is
    defined and carries the invariant [P] one step further. *)
Lemma for_loop_inv {St : Type} (body : nat → St → option St)
    (P : nat → St → Prop) (count : nat) :
  ∀ (lo : nat) (s : St),
    P lo s →
    (∀ i s, (lo ≤ i < lo + count)%nat → P i s →
            ∃ s', body i s = Some s' ∧ P (S i) s') →
    ∃ s', for_loop body lo count s = Some s' ∧ P (lo + count)%nat s'.
Proof.
  induction count as [|count IH]; intros lo s HP Hstep.
  - exists s. rewrite Nat.add_0_r. split; [reflexivity|exact HP].
  - destruct (Hstep lo s ltac:(lia) HP) as (s1 & Hs1 & HP1).
    destruct (IH (S lo) s1 HP1) as (s' & Hs' & HP').
    { intros i s2 Hi. apply Hstep. lia. }
    exists s'. cbn [for_loop]. rewrite Hs1. cbn [mbind option_bind].
    split; [exact Hs'|]. replace (lo + S count)%nat with (S lo + count)%nat by lia.
    exact HP'.
Qed.

Section StateLayerProperties.
Context {Hn : Numeric} {Hc : Collaborators}.

Lemma add_calls_add_calls (st : State) (a b : list call) :
  add_calls (add_calls st a) b = add_calls st (a ++ b).
Proof. unfold add_calls. simpl. rewrite app_assoc. reflexivity. Qed.

Lemma add_calls_nil (st : State) : add_calls st [] = st.
Proof. destruct st. unfold add_calls. simpl. rewrite app_nil_r. reflexivity. Qed.

(** [State::apply_matrix] makes exactly one call, an update of the
    amplitudes. *)
Lemma apply_matrix_calls (qubits : list nat) (vmat : cvector_t) (st : State) :
  ∃ c, calls (apply_matrix qubits vmat st) = calls st ++ [c] ∧ is_update c = true.
Proof.
  unfold apply_matrix, apply_diagonal_matrix.
  destruct (decide _); [|eexists; split; reflexivity].
  destruct (_ && _); [|eexists; split; reflexivity].
  destruct (block_diagonal_matrix _ _ _ _). eexists; split; reflexivity.
Qed.

Lemma last_default (ks : list cmatrix_t) (k0 k1 : cmatrix_t) :
  List.last (k1 :: ks) k0 = List.last ks k1.
Proof.
  revert k0 k1. induction ks as [|c ks IH]; intros k0 k1; [reflexivity|].
  change (List.last (k1 :: c :: ks) k0) with (List.last (c :: ks) k0).
  rewrite (IH k0 c), (IH k1 c). reflexivity.
Qed.

Lemma last_cons_last (k0 : cmatrix_t) (ks : list cmatrix_t) :
  list.last (k0 :: ks) = Some (List.last ks k0).
Proof.
  revert k0. induction ks as [|k1 ks IH]; intros k0; [reflexivity|].
  rewrite last_cons_cons, IH, last_default. reflexivity.
Qed.

(** The loop over the leading operators: it stops at the first operator
    whose accumulated probability exceeds [r] and applies it, or runs to
    the end applying none. *)
Lemma kraus_loop_spec (qubits : list nat) (r : real) (ops : list cmatrix_t) :
  ∀ (acc : real) (st : State),
    (∃ j km,
        ops !! j = Some km ∧
        (∀ i, (i < j)%nat →
           rgt (foldl (fun a km => radd a (kraus_probability st qubits km))
                      acc (take (S i) ops)) r = false) ∧
        rgt (foldl (fun a km => radd a (kraus_probability st qubits km))
                   acc (take (S j) ops)) r = true ∧
        kraus_loop qubits ops r acc st =
          (apply_matrix qubits
             (scalar_multiply (vectorize_matrix km)
                (rdiv r1 (rsqrt (kraus_probability st qubits km))))
             (add_calls st (norm_calls qubits ops (S j))),
           foldl (fun a km => radd a (kraus_probability st qubits km))
                 acc (take (S j) ops),
           true))
    ∨ ((∀ i, (i < length ops)%nat →
           rgt (foldl (fun a km => radd a (kraus_probability st qubits km))
                      acc (take (S i) ops)) r = false) ∧
       kraus_loop qubits ops r acc st =
         (add_calls st (norm_calls qubits ops (length ops)),
          foldl (fun a km => radd a (kraus_probability st qubits km)) acc ops,
          false)).
Proof.
  induction ops as [|km ops IH]; intros acc st.
  - right. split; [intros i Hi; simpl in Hi; lia|].
    simpl. unfold norm_calls. simpl. rewrite add_calls_nil. reflexivity.
  - cbn [kraus_loop]. unfold qreg_norm.
    change (with_qreg st (qreg_ st) (call_norm qubits (vectorize_matrix km)))
      with (add_calls st [call_norm qubits (vectorize_matrix km)]).
    change (qv_norm (qreg_ st) qubits (vectorize_matrix km))
      with (kraus_probability st qubits km).
    destruct (rgt (radd acc (kraus_probability st qubits km)) r) eqn:Hgt.
    + left. exists 0%nat, km. split; [reflexivity|].
      split; [intros i Hi; lia|]. split; [exact Hgt|]. reflexivity.
    + set (st' := add_calls st [call_norm qubits (vectorize_matrix km)]).
      destruct (IH (radd acc (kraus_probability st qubits km)) st')
        as [(j & km' & Hj & Hlow & Hhit & Heq)|[Hlow Heq]].
      * left. exists (S j), km'. split; [exact Hj|]. split; [|split].
        -- intros [|i] Hi; [exact Hgt|]. apply (Hlow i). lia.
        -- exact Hhit.
        -- rewrite Heq. unfold st'. rewrite add_calls_add_calls. reflexivity.
      * right. split.
        -- intros [|i] Hi; [exact Hgt|]. apply (Hlow i). simpl in Hi. lia.
        -- rewrite Heq. unfold st'. rewrite add_calls_add_calls. reflexivity.
Qed.

(** C5: with a non-empty operator list, [apply_kraus] draws one deviate
    [r], queries the probability of the leading operators in order and
    applies, through one call of [State::apply_matrix] (itself one update
    of the amplitudes), either the first operator [j < N - 1] whose
    accumulated probability exceeds [r], rescaled by [1 / sqrt(p_j)], or,
    when none does, the last operator rescaled by
    [1 / sqrt(1 - accumulated)]; the probability of the last operator is
    never queried. *)
Theorem apply_kraus_one_operator (qubits : list nat) (kmats : list cmatrix_t)
    (rng : RngEngine) (st : State) :
  kmats ≠ [] →
  (∀ vmat s, ∃ c,
      calls (apply_matrix qubits vmat s) = calls s ++ [c] ∧ is_update c = true) ∧
  ((∃ j km,
      (j < length kmats - 1)%nat ∧ kmats !! j = Some km ∧
      (∀ i, (i < j)%nat →
         rgt (kraus_accum st qubits kmats (S i)) (rand01 rng).1 = false) ∧
      rgt (kraus_accum st qubits kmats (S j)) (rand01 rng).1 = true ∧
      apply_kraus qubits kmats rng st =
        Returns
          (apply_matrix qubits
             (scalar_multiply (vectorize_matrix km)
                (rdiv r1 (rsqrt (kraus_probability st qubits km))))
             (add_calls st (norm_calls qubits kmats (S j))),
           (rand01 rng).2))
   ∨ (∃ km,
      list.last kmats = Some km ∧
      (∀ i, (i < length kmats - 1)%nat →
         rgt (kraus_accum st qubits kmats (S i)) (rand01 rng).1 = false) ∧
      apply_kraus qubits kmats rng st =
        Returns
          (apply_matrix qubits
             (vectorize_matrix
                (matrix_scale
                   (of_real
                      (rdiv r1
                         (rsqrt (rsub r1
                            (kraus_accum st qubits kmats (length kmats - 1))))))
                   km))
             (add_calls st (norm_calls qubits kmats (length kmats - 1))),
           (rand01 rng).2))).
Proof.
  intros Hne. split; [intros vmat s; apply apply_matrix_calls|].
  destruct kmats as [|k0 ks]; [congruence|]. clear Hne.
  unfold apply_kraus. destruct (rand01 rng) as [r rng'].
  cbn [fst snd]. set (kmats := k0 :: ks).
  set (n1 := (length kmats - 1)%nat).
  assert (∀ i, (i ≤ n1)%nat → take i (take n1 kmats) = take i kmats) as Htake.
  { intros i Hi. rewrite take_take. f_equal. lia. }
  assert (length (take n1 kmats) = n1) as Hlen.
  { rewrite length_take. unfold n1. lia. }
  destruct (kraus_loop_spec qubits r (take n1 kmats) r0 st)
    as [(j & km & Hj & Hlow & Hhit & Heq)|[Hlow Heq]].
  - left. apply lookup_take_Some in Hj as [Hj Hjn].
    exists j, km. split; [exact Hjn|]. split; [exact Hj|].
    unfold kraus_accum. rewrite Htake in Hhit by lia. split; [|split].
    + intros i Hi. rewrite <- (Htake (S i)) by lia. apply Hlow, Hi.
    + exact Hhit.
    + rewrite Heq. unfold norm_calls. rewrite Htake by lia. reflexivity.
  - right. exists (List.last ks k0). split; [apply last_cons_last|].
    rewrite Hlen in *. unfold kraus_accum. split.
    + intros i Hi. rewrite <- (Htake (S i)) by lia. apply Hlow, Hi.
    + rewrite Heq. unfold norm_calls. rewrite Htake by lia. reflexivity.
Qed.

(** C6 (amended): with an empty operator list [apply_kraus] returns at
    once; no exception is raised, no deviate is drawn and the state is
    unchanged. *)
Theorem apply_kraus_empty (qubits : list nat) (rng : RngEngine) (st : State) :
  apply_kraus qubits [] rng st = Returns (st, rng).
Proof. reflexivity. Qed.

(** *** measure_reset_update *)

Lemma store_replicate_projector (n pos : nat) (v : complex) :
  (pos < n)%nat → store (replicate n c0) pos v = Some (diag_projector n pos v).
Proof.
  intros Hpos. rewrite store_Some by (rewrite length_replicate; exact Hpos).
  f_equal. apply list_eq. intros i. unfold diag_projector.
  rewrite list_lookup_fmap, list_lookup_insert, length_replicate.
  destruct (decide (i < n)%nat) as [Hi|Hi].
  - rewrite lookup_seq_lt by exact Hi. rewrite lookup_replicate_2 by exact Hi.
    simpl. destruct (decide (pos = i ∧ pos < n)%nat) as [[-> _]|Hne].
    + rewrite decide_True by reflexivity. reflexivity.
    + rewrite decide_False by lia. reflexivity.
  - rewrite lookup_seq_ge by lia. rewrite decide_False by lia.
    apply lookup_replicate_None. lia.
Qed.

(** Row and column of a position in a vectorized matrix. *)
Lemma idx_coords (D a b idx : nat) :
  (b < D)%nat → idx = (a * D + b)%nat ↔ (idx / D = a ∧ idx mod D = b)%nat.
Proof.
  intros Hb. split.
  - intros ->. split.
    + symmetry. apply (Nat.div_unique _ _ _ b); lia.
    + symmetry. apply (Nat.mod_unique _ _ a); lia.
  - intros [<- <-]. rewrite (Nat.div_mod_eq idx D) at 1. lia.
Qed.

Lemma perm_diag_index (D j : nat) :
  (j < D)%nat → Z.of_nat D * Z.of_nat D < 2 ^ 64 →
  Z.to_nat (wrap64 (Z.of_nat j * Z.of_nat D + Z.of_nat j)) = (j * D + j)%nat.
Proof.
  intros Hj HD. rewrite wrap64_small by nia.
  rewrite <- Nat2Z.inj_mul, <- Nat2Z.inj_add. apply Nat2Z.id.
Qed.

Lemma perm_diag_body_inv (D f m j : nat) (p : cvector_t) :
  (j < D)%nat → Z.of_nat D * Z.of_nat D < 2 ^ 64 →
  perm_inv D f m j p →
  ∃ p', perm_diag_body (Z.of_nat D) (Z.of_nat f) (Z.of_nat m) j p = Some p' ∧
        perm_inv D f m (S j) p'.
Proof.
  intros Hj HD [Hlen Hp]. unfold perm_diag_body.
  destruct (decide (Z.of_nat j ≠ Z.of_nat f ∧ Z.of_nat j ≠ Z.of_nat m))
    as [[Hjf Hjm]|Hno].
  - rewrite perm_diag_index by assumption.
    assert (j * D + j < D * D)%nat as Hin by nia.
    rewrite store_Some by lia. eexists. split; [reflexivity|]. split.
    + rewrite length_insert. exact Hlen.
    + intros idx Hidx. rewrite list_lookup_insert.
      destruct (decide (j * D + j = idx ∧ j * D + j < length p)%nat)
        as [[Heq _]|Hne].
      * symmetry in Heq. apply idx_coords in Heq as [Ha Hb]; [|exact Hj].
        rewrite decide_True; [reflexivity|]. right. right. lia.
      * rewrite (Hp idx Hidx). f_equal.
        assert (¬ (idx / D = j ∧ idx mod D = j)%nat) as Hcoord.
        { intros Hco. apply (idx_coords D j j idx Hj) in Hco. lia. }
        destruct (decide (perm_hit D f m j idx)) as [Hh|Hh];
          destruct (decide (perm_hit D f m (S j) idx)) as [Hh'|Hh'];
          try reflexivity; exfalso; unfold perm_hit in *; lia.
  - exists p. split; [reflexivity|]. split; [exact Hlen|].
    intros idx Hidx. rewrite (Hp idx Hidx). f_equal.
    destruct (decide (perm_hit D f m j idx)) as [Hh|Hh];
      destruct (decide (perm_hit D f m (S j) idx)) as [Hh'|Hh'];
      try reflexivity; exfalso; unfold perm_hit in *; lia.
Qed.

(** The two swapped entries, then the diagonal loop, build the matrix of the
    transposition. *)
Lemma perm_build (D f m : nat) :
  (f < D)%nat → (m < D)%nat → f ≠ m → Z.of_nat D * Z.of_nat D < 2 ^ 64 →
  ∃ p1 p2,
    store (replicate (D * D) c0) (f * D + m) c1 = Some p1 ∧
    store p1 (m * D + f) c1 = Some p2 ∧
    for_loop (perm_diag_body (Z.of_nat D) (Z.of_nat f) (Z.of_nat m)) 0 D p2
    = Some (swap_matrix D f m).
Proof.
  intros Hf Hm Hfm HD.
  assert (f * D + m < D * D)%nat as Hfm_in by nia.
  assert (m * D + f < D * D)%nat as Hmf_in by nia.
  eexists _, _.
  split; [apply store_Some; rewrite length_replicate; exact Hfm_in|].
  split; [apply store_Some; rewrite length_insert, length_replicate; exact Hmf_in|].
  set (p2 := <[(m * D + f)%nat:=c1]> (<[(f * D + m)%nat:=c1]> (replicate (D * D) c0))).
  assert (perm_inv D f m 0 p2) as Hinv0.
  { split; [unfold p2; rewrite !length_insert, length_replicate; reflexivity|].
    intros idx Hidx. unfold p2.
    rewrite !list_lookup_insert, !length_insert, length_replicate.
    rewrite lookup_replicate_2 by exact Hidx.
    pose proof (idx_coords D f m idx Hm) as Hc1.
    pose proof (idx_coords D m f idx Hf) as Hc2.
    destruct (decide (perm_hit D f m 0 idx)) as [Hh|Hh];
      repeat destruct (decide _); try reflexivity;
      exfalso; unfold perm_hit in *; lia. }
  destruct (for_loop_inv (perm_diag_body (Z.of_nat D) (Z.of_nat f) (Z.of_nat m))
              (perm_inv D f m) D 0 p2 Hinv0) as (p' & Hp' & [Hlen Hent]).
  { intros j p Hj Hinv. apply perm_diag_body_inv; [lia|exact HD|exact Hinv]. }
  rewrite Hp'. f_equal. apply list_eq. intros idx. unfold swap_matrix.
  rewrite list_lookup_fmap.
  destruct (decide (idx < D * D)%nat) as [Hidx|Hidx].
  - rewrite (Hent idx Hidx), lookup_seq_lt by exact Hidx. simpl. f_equal.
    assert (idx mod D < D)%nat as Hb by (apply Nat.mod_upper_bound; lia).
    assert (idx / D < D)%nat as Ha by (apply Nat.Div0.div_lt_upper_bound; lia).
    unfold swap_state.
    destruct (decide (perm_hit D f m (0 + D) idx)) as [Hh|Hh];
      repeat destruct (decide _); try reflexivity;
      exfalso; unfold perm_hit in *; lia.
  - rewrite lookup_seq_ge by lia. apply lookup_ge_None. lia.
Qed.

(** C7: [measure_reset_update] applies the diagonal of length [2^N] whose
    only entry other than 0 is [1 / sqrt(meas_prob)], at [meas_state];
    when [final_state = meas_state] that is all, otherwise it goes on with
    a controlled bit-flip for a single qubit, and with the permutation
    matrix that swaps [final_state] and [meas_state] and fixes every other
    basis state for any other number of qubits. *)
Theorem measure_reset_update_spec (qubits : list nat)
    (final_state meas_state : Z) (meas_prob : real) (st : State) :
  (length qubits < 64)%nat →
  (final_state ≠ meas_state → length qubits ≠ 1%nat → length qubits < 32)%nat →
  0 <= meas_state < 2 ^ Z.of_nat (length qubits) →
  0 <= final_state < 2 ^ Z.of_nat (length qubits) →
  measure_reset_update qubits final_state meas_state meas_prob st =
    Some
      (let st1 :=
         qreg_apply_diagonal_matrix qubits
           (diag_projector (2 ^ length qubits) (Z.to_nat meas_state)
              (of_real (rdiv r1 (rsqrt meas_prob)))) st in
       if decide (final_state = meas_state) then st1
       else if decide (length qubits = 1%nat) then qreg_apply_mcx qubits st1
       else qreg_apply_matrix qubits
              (swap_matrix (2 ^ length qubits) (Z.to_nat final_state)
                 (Z.to_nat meas_state)) st1).
Proof.
  intros HN HN32 Hmeas Hfinal. unfold measure_reset_update.
  set (N := length qubits) in *.
  assert (Z.of_nat (2 ^ N) = 2 ^ Z.of_nat N) as Hpow.
  { rewrite Nat2Z.inj_pow. reflexivity. }
  destruct (decide (N = 1%nat)) as [HN1|HN1].
  - rewrite HN1 in *. change (2 ^ 1)%nat with 2%nat.
    rewrite (store_replicate_projector 2 (Z.to_nat meas_state))
      by (change (2 ^ Z.of_nat 1) with 2 in Hmeas; lia).
    cbn [mbind option_bind].
    destruct (decide (final_state ≠ meas_state)) as [Hne|Heq].
    + rewrite decide_False by exact Hne. reflexivity.
    + rewrite decide_True by (destruct (decide (final_state = meas_state)); tauto).
      reflexivity.
  - assert (shl64 1 (Z.of_nat N) = 2 ^ Z.of_nat N) as Hdim.
    { unfold shl64. rewrite Z.shiftl_1_l. apply wrap64_small.
      split; [apply Z.pow_nonneg; lia|]. apply Z.pow_lt_mono_r; lia. }
    rewrite Hdim, pow2_to_nat.
    assert (Z.to_nat meas_state < 2 ^ N)%nat as Hm.
    { apply Nat2Z.inj_lt. rewrite Hpow, Z2Nat.id; lia. }
    assert (Z.to_nat final_state < 2 ^ N)%nat as Hf.
    { apply Nat2Z.inj_lt. rewrite Hpow, Z2Nat.id; lia. }
    rewrite (store_replicate_projector (2 ^ N) (Z.to_nat meas_state)) by exact Hm.
    cbn [mbind option_bind].
    destruct (decide (final_state ≠ meas_state)) as [Hne|Heq].
    2:{ rewrite decide_True by (destruct (decide (final_state = meas_state)); tauto).
        reflexivity. }
    rewrite decide_False by exact Hne.
    specialize (HN32 Hne HN1).
    set (D := (2 ^ N)%nat) in *.
    assert (Z.of_nat D * Z.of_nat D < 2 ^ 64) as HD.
    { rewrite Hpow, <- Z.pow_add_r by lia. apply Z.pow_lt_mono_r; lia. }
    rewrite <- Hpow in *.
    rewrite (wrap64_small (Z.of_nat D * Z.of_nat D)) by lia.
    rewrite (wrap64_small (final_state * _ + _)), (wrap64_small (meas_state * _ + _))
      by nia.
    remember (Z.to_nat final_state) as f eqn:Hfdef.
    remember (Z.to_nat meas_state) as m eqn:Hmdef.
    assert (final_state = Z.of_nat f) as -> by lia.
    assert (meas_state = Z.of_nat m) as -> by lia.
    rewrite <- !Nat2Z.inj_mul, <- !Nat2Z.inj_add, !Nat2Z.id.
    destruct (perm_build D f m Hf Hm ltac:(lia) HD) as (p1 & p2 & -> & Hp2 & Hloop).
    cbn [mbind option_bind]. rewrite Hp2. cbn [mbind option_bind]. rewrite Hloop.
    cbn [mbind option_bind]. f_equal. unfold apply_matrix.
    rewrite decide_False; [reflexivity|].
    unfold swap_matrix. rewrite length_fmap, length_seq.
    fold N. rewrite Hdim.
    assert (2 ≤ D)%nat.
    { unfold D. destruct N as [|N']; [simpl in *; lia|].
      simpl. pose proof (Nat.pow_nonzero 2 N'). lia. }
    nia.
Qed.

(** *** Density extraction *)

Lemma lookup_lookup_total (inds : list Z) (i : nat) :
  (i < length inds)%nat → inds !! i = Some (inds !!! i).
Proof. intros Hi. apply list_lookup_lookup_total_lt. exact Hi. Qed.

(** One pass over a block: every entry of the [DIM] x [DIM] square is
    updated once with the entry of the outer product. *)
Lemma block_loop_spec (update : complex → complex → complex) (DIM : nat)
    (vec : Z → complex) (inds : list Z) (m : cmatrix_t) :
  length inds = DIM →
  ∃ m', block_loop update DIM vec inds m = Some m' ∧
        GetRows m' = GetRows m ∧ GetColumns m' = GetColumns m ∧
        ∀ r c, mat_entry m' r c =
               if decide (r < DIM ∧ c < DIM)%nat
               then update (mat_entry m r c) (outer_product_entry vec inds r c)
               else mat_entry m r c.
Proof.
  intros Hlen. unfold block_loop.
  set (Pout := fun (row : nat) (m' : cmatrix_t) =>
    GetRows m' = GetRows m ∧ GetColumns m' = GetColumns m ∧
    ∀ r c, mat_entry m' r c =
           if decide (r < row ∧ c < DIM)%nat
           then update (mat_entry m r c) (outer_product_entry vec inds r c)
           else mat_entry m r c).
  match goal with
  | |- ∃ m', for_loop ?body _ _ _ = _ ∧ _ =>
      destruct (for_loop_inv body Pout DIM 0 m) as (m' & Hm' & HP)
  end.
  - split; [reflexivity|]. split; [reflexivity|]. intros r c.
    rewrite decide_False by lia. reflexivity.
  - intros row m1 Hrow (Hr1 & Hc1 & He1).
    set (Pin := fun (col : nat) (m' : cmatrix_t) =>
      GetRows m' = GetRows m ∧ GetColumns m' = GetColumns m ∧
      ∀ r c, mat_entry m' r c =
             if decide (r = row ∧ c < col)%nat
             then update (mat_entry m1 r c) (outer_product_entry vec inds r c)
             else mat_entry m1 r c).
    match goal with
    | |- ∃ s', for_loop ?body _ _ _ = _ ∧ _ =>
        destruct (for_loop_inv body Pin DIM 0 m1) as (m2 & Hm2 & HP2)
    end.
    + split; [exact Hr1|]. split; [exact Hc1|]. intros r c.
      rewrite decide_False by lia. reflexivity.
    + intros col m3 Hcol (Hr3 & Hc3 & He3).
      rewrite (lookup_lookup_total inds row), (lookup_lookup_total inds col) by lia.
      cbn [mbind option_bind]. eexists. split; [reflexivity|].
      split; [exact Hr3|]. split; [exact Hc3|]. intros r c. cbn [mat_set mat_entry].
      destruct (decide (r = row ∧ c = col)) as [[-> ->]|Hne].
      * rewrite decide_True by lia. rewrite He3, decide_False by lia. reflexivity.
      * rewrite He3. destruct (decide (r = row ∧ c < col)%nat).
        -- rewrite decide_True by lia. reflexivity.
        -- rewrite decide_False by lia. reflexivity.
    + exists m2. split; [exact Hm2|]. destruct HP2 as (Hr2 & Hc2 & He2).
      split; [exact Hr2|]. split; [exact Hc2|]. intros r c.
      rewrite He2, He1. simpl.
      destruct (decide (r = row ∧ c < DIM)%nat) as [[-> Hcd]|Hne].
      * rewrite decide_False by lia. rewrite decide_True by lia. reflexivity.
      * destruct (decide (r < row ∧ c < DIM)%nat).
        -- rewrite decide_True by lia. reflexivity.
        -- rewrite decide_False by lia. reflexivity.
  - exists m'. split; [exact Hm'|]. exact HP.
Qed.

Lemma StronglySorted_seq (j n : nat) : StronglySorted Nat.le (seq j n).
Proof.
  revert j. induction n as [|n IH]; intros j; simpl; constructor.
  - apply IH.
  - apply Forall_seq. intros i Hi. unfold Nat.le. lia.
Qed.

Lemma sort_seq (M : nat) : sort (seq 0 M) = seq 0 M.
Proof.
  apply (StronglySorted_unique Nat.le).
  - apply (StronglySorted_merge_sort Nat.le); apply _.
  - apply StronglySorted_seq.
  - apply sort_Permutation.
Qed.

(** A strictly increasing list of [n] positions in [[b, b + n)] is the
    whole range. *)
Lemma sorted_range (l : list nat) :
  ∀ b, StronglySorted lt l →
       Forall (fun q => b ≤ q < b + length l)%nat l → l = seq b (length l).
Proof.
  induction l as [|q l IH]; intros b Hs Hall; [reflexivity|].
  pose proof (sorted_lt_length q l (b + S (length l)) Hs) as Hlen.
  assert (q = b) as ->.
  { pose proof Hall as Hall'. apply list.Forall_cons in Hall' as [Hq _].
    simpl in Hq.
    assert (q + length l < b + S (length l))%nat; [|lia].
    apply Hlen. eapply list.Forall_impl; [exact Hall|].
    intros x Hx. simpl in Hx. lia. }
  simpl. f_equal. apply StronglySorted_inv in Hs as [Hs Hgt].
  apply IH; [exact Hs|]. apply list.Forall_cons in Hall as [_ Hall].
  apply list.Forall_forall. intros x Hx.
  pose proof (proj1 (list.Forall_forall _ _) Hall x Hx) as H1.
  pose proof (proj1 (list.Forall_forall _ _) Hgt x Hx) as H2.
  simpl in H1. lia.
Qed.

Lemma sorted_full_range (qubits : list nat) (M : nat) :
  NoDup qubits → Forall (fun q => q < M)%nat qubits →
  length qubits = M → qubits = sort qubits → qubits = seq 0 M.
Proof.
  intros Hnd HM Hlen Hsorted. rewrite <- Hlen. apply sorted_range.
  - rewrite Hsorted. apply sort_sorted, Hnd.
  - eapply list.Forall_impl; [exact HM|]. intros q Hq. simpl in Hq. lia.
Qed.

Lemma NoDup_length_le (qubits : list nat) (M : nat) :
  NoDup qubits → Forall (fun q => q < M)%nat qubits → (length qubits ≤ M)%nat.
Proof.
  intros Hnd HM. rewrite <- (length_seq M 0). apply submseteq_length.
  apply NoDup_submseteq; [exact Hnd|]. intros q Hq. apply elem_of_seq.
  pose proof (proj1 (list.Forall_forall _ _) HM q Hq) as Hlt. simpl in Hlt. lia.
Qed.

Lemma shl64_1 (n : nat) : (n < 64)%nat → shl64 1 (Z.of_nat n) = 2 ^ Z.of_nat n.
Proof.
  intros Hlt. unfold shl64. rewrite Z.shiftl_1_l. apply wrap64_small.
  split; [apply Z.pow_nonneg; lia|]. apply Z.pow_lt_mono_r; lia.
Qed.

Lemma shiftr_of_nat (n N : nat) :
  Z.shiftr (Z.of_nat n) (Z.of_nat N) = Z.of_nat (n / 2 ^ N).
Proof.
  rewrite Z.shiftr_div_pow2 by lia.
  rewrite Nat2Z.inj_div, Nat2Z.inj_pow. reflexivity.
Qed.

Lemma land_ones_of_nat (n N : nat) :
  Z.land (Z.of_nat n) (Z.ones (Z.of_nat N)) = Z.of_nat (n mod 2 ^ N).
Proof.
  rewrite Z.land_ones by lia.
  rewrite Nat2Z.inj_mod, Nat2Z.inj_pow. reflexivity.
Qed.

(** The branch for the whole register in order. *)
Lemma vec2density_full (st : State) (qubits : list nat) (vec : Z → complex) :
  length qubits = qv_num_qubits (qreg_ st) → qubits = sort qubits →
  (length qubits < 32)%nat →
  ∃ m, vec2density st qubits vec = Some m ∧
       GetRows m = (2 ^ length qubits)%nat ∧
       GetColumns m = (2 ^ length qubits)%nat ∧
       ∀ row col, (row < 2 ^ length qubits)%nat → (col < 2 ^ length qubits)%nat →
         mat_entry m row col
         = cmul (vec (Z.of_nat row)) (cconj (vec (Z.of_nat col))).
Proof.
  intros HNM Hsorted HN. unfold vec2density.
  rewrite decide_True by (split; assumption).
  set (N := length qubits) in *.
  rewrite (MASKS_lookup N) by lia. cbn [mbind option_bind].
  rewrite shl64_1, pow2_to_nat by lia.
  set (DIM := (2 ^ N)%nat).
  assert (0 < DIM)%nat as HDIM.
  { apply Nat.neq_0_lt_0, Nat.pow_nonzero. lia. }
  assert (Z.of_nat DIM * Z.of_nat DIM < 2 ^ 63) as Hsq.
  { unfold DIM. rewrite Nat2Z.inj_pow, <- Z.pow_add_r by lia.
    apply Z.pow_lt_mono_r; lia. }
  rewrite to_int64_small by lia.
  rewrite <- Nat2Z.inj_mul, Nat2Z.id.
  set (Prc := fun (n : nat) (m' : cmatrix_t) =>
    GetRows m' = DIM ∧ GetColumns m' = DIM ∧
    ∀ rc, (rc < n)%nat →
      mat_entry m' (rc / DIM) (rc mod DIM)
      = cmul (vec (Z.of_nat (rc / DIM))) (cconj (vec (Z.of_nat (rc mod DIM))))).
  match goal with
  | |- ∃ m, for_loop ?body _ _ _ = _ ∧ _ =>
      destruct (for_loop_inv body Prc (DIM * DIM) 0 (mat_new DIM DIM))
        as (m & Hm & Hr & Hcl & Hent)
  end.
  - split; [reflexivity|]. split; [reflexivity|]. intros rc Hrc. lia.
  - intros n m1 Hnr (Hr1 & Hc1 & He1). eexists. split; [reflexivity|].
    split; [exact Hr1|]. split; [exact Hc1|]. intros rc Hrc.
    rewrite shiftr_of_nat, land_ones_of_nat, !Nat2Z.id. fold DIM.
    cbn [mat_set mat_entry].
    destruct (decide (rc / DIM = n / DIM ∧ rc mod DIM = n mod DIM)%nat)
      as [[-> ->]|Hne]; [reflexivity|].
    apply He1. destruct (decide (rc = n)) as [->|?]; [tauto|lia].
  - exists m. split; [exact Hm|]. split; [exact Hr|]. split; [exact Hcl|].
    intros row col Hrow Hcol.
    destruct (proj1 (idx_coords DIM row col (row * DIM + col) Hcol) eq_refl)
      as [Ha Hb].
    specialize (Hent (row * DIM + col)%nat ltac:(nia)).
    rewrite Ha, Hb in Hent. exact Hent.
Qed.

(** The general branch: the first block initializes the matrix, every
    further block is added. *)
Lemma vec2density_general (st : State) (qubits : list nat) (vec : Z → complex) :
  ¬ (length qubits = qv_num_qubits (qreg_ st) ∧ qubits = sort qubits) →
  (length qubits ≤ qv_num_qubits (qreg_ st))%nat →
  (qv_num_qubits (qreg_ st) < 64)%nat →
  Forall (fun q => q < 64)%nat qubits →
  ∃ m, vec2density st qubits vec = Some m ∧
       GetRows m = (2 ^ length qubits)%nat ∧
       GetColumns m = (2 ^ length qubits)%nat ∧
       ∀ row col, (row < 2 ^ length qubits)%nat → (col < 2 ^ length qubits)%nat →
         mat_entry m row col
         = foldl (fun acc k =>
                    cadd acc (outer_product_entry vec
                                (index_block qubits (Z.of_nat k)) row col))
                 (outer_product_entry vec (index_block qubits 0) row col)
                 (seq 1 (2 ^ (qv_num_qubits (qreg_ st) - length qubits) - 1)).
Proof.
  intros Hbranch HNM HM H64. unfold vec2density.
  rewrite decide_False by exact Hbranch.
  set (N := length qubits) in *. set (M := qv_num_qubits (qreg_ st)) in *.
  rewrite shl64_1, pow2_to_nat by lia.
  set (DIM := (2 ^ N)%nat).
  assert (Z.to_nat (shl64 1 (wrap64 (Z.of_nat M - Z.of_nat N))) = 2 ^ (M - N))%nat
    as ->.
  { rewrite wrap64_small by lia. rewrite <- Nat2Z.inj_sub by lia.
    rewrite shl64_1 by lia. apply pow2_to_nat. }
  destruct (index_block_total qubits 0 ltac:(fold N; lia) H64) as [-> Hlen0].
  cbn [mbind option_bind].
  destruct (block_loop_spec (fun _ x => x) DIM vec (index_block qubits 0)
              (mat_new DIM DIM) Hlen0) as (m1 & -> & Hr1 & Hc1 & He1).
  cbn [mbind option_bind].
  set (term := fun (k row col : nat) =>
    outer_product_entry vec (index_block qubits (Z.of_nat k)) row col).
  set (Pk := fun (k : nat) (m' : cmatrix_t) =>
    GetRows m' = DIM ∧ GetColumns m' = DIM ∧
    ∀ row col, (row < DIM)%nat → (col < DIM)%nat →
      mat_entry m' row col
      = foldl (fun acc k => cadd acc (term k row col))
              (outer_product_entry vec (index_block qubits 0) row col)
              (seq 1 (k - 1))).
  match goal with
  | |- ∃ m, for_loop ?body _ ?cnt _ = _ ∧ _ =>
      destruct (for_loop_inv body Pk cnt 1 m1) as (m & Hm & Hr & Hcl & Hent)
  end.
  - split; [exact Hr1|]. split; [exact Hc1|]. intros row col Hrow Hcol.
    rewrite He1, decide_True by lia. reflexivity.
  - intros k m2 Hk (Hr2 & Hc2 & He2).
    destruct (index_block_total qubits (Z.of_nat k) ltac:(fold N; lia) H64)
      as [-> Hlenk].
    cbn [mbind option_bind].
    destruct (block_loop_spec cadd DIM vec (index_block qubits (Z.of_nat k))
                m2 Hlenk) as (m3 & Hm3 & Hr3 & Hc3 & He3).
    exists m3. split; [exact Hm3|]. split; [congruence|]. split; [congruence|].
    intros row col Hrow Hcol. rewrite He3, decide_True by lia.
    rewrite (He2 row col Hrow Hcol).
    replace (S k - 1)%nat with (S (k - 1)) by lia.
    rewrite seq_S, foldl_snoc. replace (1 + (k - 1))%nat with k by lia.
    reflexivity.
  - exists m. split; [exact Hm|]. split; [exact Hr|]. split; [exact Hcl|].
    intros row col Hrow Hcol. rewrite (Hent row col Hrow Hcol).
    assert (0 < 2 ^ (M - N))%nat by (apply Nat.neq_0_lt_0, Nat.pow_nonzero; lia).
    replace (1 + (2 ^ (M - N) - 1) - 1)%nat with (2 ^ (M - N) - 1)%nat by lia.
    reflexivity.
Qed.

(** C8: the density matrix handed to the result sink.  For the empty
    qubit list it is the 1 x 1 matrix holding [norm()].  For a non-empty,
    duplicate-free list of positions of the register: if the list is the
    whole register in order, entry (row, col) is
    [amp[row] * conj(amp[col])]; in every other case entry (row, col) is
    the outer-product entry of the block of [k = 0], to which those of the
    blocks of [k = 1, 2, ...] are added in this order. *)
Theorem density_extraction (st : State) (qubits : list nat) :
  let M := qv_num_qubits (qreg_ st) in
  let vec := qv_copy_to_vector (qreg_ st) in
  (∃ m, apply_save_density_matrix st [] = Some m ∧
        GetRows m = 1%nat ∧ GetColumns m = 1%nat ∧
        mat_entry m 0 0 = of_real (qv_norm0 (qreg_ st))) ∧
  (qubits ≠ [] → qubits = seq 0 M → (M < 32)%nat →
   ∃ m, apply_save_density_matrix st qubits = Some m ∧
        GetRows m = (2 ^ M)%nat ∧ GetColumns m = (2 ^ M)%nat ∧
        ∀ row col, (row < 2 ^ M)%nat → (col < 2 ^ M)%nat →
          mat_entry m row col
          = cmul (vec (Z.of_nat row)) (cconj (vec (Z.of_nat col)))) ∧
  (qubits ≠ [] → qubits ≠ seq 0 M →
   NoDup qubits → Forall (fun q => q < M)%nat qubits → (M < 64)%nat →
   ∃ m, apply_save_density_matrix st qubits = Some m ∧
        GetRows m = (2 ^ length qubits)%nat ∧
        GetColumns m = (2 ^ length qubits)%nat ∧
        ∀ row col, (row < 2 ^ length qubits)%nat → (col < 2 ^ length qubits)%nat →
          mat_entry m row col
          = foldl (fun acc k =>
                     cadd acc (outer_product_entry vec
                                 (index_block qubits (Z.of_nat k)) row col))
                  (outer_product_entry vec (index_block qubits 0) row col)
                  (seq 1 (2 ^ (M - length qubits) - 1))).
Proof.
  intros M vec. split; [|split].
  - eexists. split; [reflexivity|]. split; [reflexivity|]. split; [reflexivity|].
    reflexivity.
  - intros Hne Hfull HM. unfold apply_save_density_matrix, density_matrix.
    rewrite decide_False by exact Hne.
    assert (length qubits = M) as Hlen by (rewrite Hfull; apply length_seq).
    destruct (vec2density_full st qubits vec) as (m & Hm & Hr & Hc' & Hent).
    + exact Hlen.
    + rewrite Hfull. symmetry. apply sort_seq.
    + lia.
    + rewrite Hlen in *. exists m. repeat split; assumption.
  - intros Hne Hnot Hnd Hpos HM.
    unfold apply_save_density_matrix, density_matrix.
    rewrite decide_False by exact Hne.
    apply vec2density_general.
    + intros [Hlen Hsorted]. apply Hnot.
      exact (sorted_full_range qubits M Hnd Hpos Hlen Hsorted).
    + exact (NoDup_length_le qubits M Hnd Hpos).
    + exact HM.
    + eapply list.Forall_impl; [exact Hpos|]. intros q Hq. simpl in Hq. fold M in HM. lia.
Qed.
End StateLayerProperties.

(** ** The state layer on the small instance *)

Section Examples.
Local Existing Instance Z_numeric.
Local Existing Instance Z_collaborators.

Lemma apply_kraus_one_operator_witness :
  ∃ vmat j,
    (j ≤ 1)%nat ∧
    @apply_kraus Z_numeric Z_collaborators [0%nat]
      [Z_matrix 2 2 [1; 0; 0; 0]; Z_matrix 2 2 [0; 0; 0; 1]] [0] (Z_state [1; 0])
    = Returns
        (apply_matrix [0%nat] vmat
           (add_calls (Z_state [1; 0])
              (norm_calls [0%nat]
                 [Z_matrix 2 2 [1; 0; 0; 0]; Z_matrix 2 2 [0; 0; 0; 1]] j)),
         []).
Proof.
  destruct (@apply_kraus_one_operator Z_numeric Z_collaborators [0%nat]
              [Z_matrix 2 2 [1; 0; 0; 0]; Z_matrix 2 2 [0; 0; 0; 1]]
              [0] (Z_state [1; 0]) ltac:(discriminate))
    as [_ [(j & km & Hj & _ & _ & _ & Heq)|(km & _ & _ & Heq)]].
  - exists (scalar_multiply (vectorize_matrix km)
              (rdiv r1 (rsqrt (kraus_probability (Z_state [1; 0]) [0%nat] km)))),
           (S j).
    split; [simpl in Hj; lia|exact Heq].
  - eexists _, 1%nat. split; [lia|exact Heq].
Defined.

(** C6 as stated fails: on an empty operator list the call returns, with
    the state and the engine as they were, and throws nothing. *)
Lemma apply_kraus_empty_returns :
  @apply_kraus Z_numeric Z_collaborators [0%nat] [] [0] (Z_state [1; 0])
  = Returns (Z_state [1; 0], [0]) ∧
  @apply_kraus Z_numeric Z_collaborators [0%nat] [] [0] (Z_state [1; 0])
  ≠ Throws invalid_argument.
Proof. split; [reflexivity|discriminate]. Qed.

Lemma measure_reset_update_spec_witness :
  @measure_reset_update Z_numeric Z_collaborators [0; 1]%nat 0 2 4
    (Z_state [0; 0; 2; 0]) =
    Some
      (let st1 :=
         qreg_apply_diagonal_matrix [0; 1]%nat
           (diag_projector (2 ^ length [0; 1]%nat) (Z.to_nat 2)
              (of_real (rdiv r1 (rsqrt 4)))) (Z_state [0; 0; 2; 0]) in
       if decide (0 = 2) then st1
       else if decide (length [0; 1]%nat = 1%nat)
            then qreg_apply_mcx [0; 1]%nat st1
            else qreg_apply_matrix [0; 1]%nat
                   (swap_matrix (2 ^ length [0; 1]%nat) (Z.to_nat 0) (Z.to_nat 2))
                   st1).
Proof.
  apply (@measure_reset_update_spec Z_numeric Z_collaborators [0; 1]%nat 0 2 4
           (Z_state [0; 0; 2; 0])).
  - simpl. lia.
  - intros _ _. simpl. lia.
  - vm_compute. split; [discriminate|reflexivity].
  - vm_compute. split; [discriminate|reflexivity].
Defined.

Lemma density_extraction_witness :
  ∃ m, apply_save_density_matrix (Z_state [1; 2; 3; 4]) [1%nat] = Some m ∧
       GetRows m = (2 ^ length [1%nat])%nat ∧
       GetColumns m = (2 ^ length [1%nat])%nat ∧
       ∀ row col, (row < 2 ^ length [1%nat])%nat → (col < 2 ^ length [1%nat])%nat →
         mat_entry m row col
         = foldl (fun acc k =>
                    cadd acc
                      (outer_product_entry
                         (qv_copy_to_vector (qreg_ (Z_state [1; 2; 3; 4])))
                         (index_block [1%nat] (Z.of_nat k)) row col))
                 (outer_product_entry
                    (qv_copy_to_vector (qreg_ (Z_state [1; 2; 3; 4])))
                    (index_block [1%nat] 0) row col)
                 (seq 1 (2 ^ (qv_num_qubits (qreg_ (Z_state [1; 2; 3; 4]))
                              - length [1%nat]) - 1)).
Proof.
  destruct (density_extraction (Z_state [1; 2; 3; 4]) [1%nat]) as (_ & _ & Hgen).
  apply Hgen.
  - discriminate.
  - discriminate.
  - by_decision.
  - by_decision.
  - by_decision.
Defined.

Example density_ex :
  (λ m, (mat_entry m 0 0, mat_entry m 0 1, mat_entry m 1 0, mat_entry m 1 1))
    <$> apply_save_density_matrix (Z_state [1; 2; 3; 4]) [1%nat]
  = Some (1 * 1 + 2 * 2, 1 * 3 + 2 * 4, 3 * 1 + 4 * 2, 3 * 3 + 4 * 4).
Proof. vm_compute. reflexivity. Qed.
End Examples.

(** * Further properties *)

(** ** Further properties of the index functions *)

Lemma index0_loop_Some_inv (qs : list nat) (x y : Z) :
  index0_loop qs x = Some y → Forall (fun q => q < 64)%nat qs.
Proof.
  revert x. induction qs as [|q qs IH]; intros x Hy; [constructor|].
  cbn [index0_loop] in Hy.
  destruct (index0_step q x) as [x'|] eqn:Hstep; [|discriminate].
  constructor; [exact (index0_step_lt _ _ _ Hstep)|exact (IH _ Hy)].
Qed.

(** Without overflow, one step keeps the low [q] bits and doubles the
    rest. *)
Lemma index0_step_arith (q : nat) (x y : Z) :
  index0_step q x = Some y → 0 <= x < 2 ^ 63 →
  y = 2 ^ (Z.of_nat q + 1) * (x / 2 ^ Z.of_nat q) + x mod 2 ^ Z.of_nat q.
Proof.
  intros Hstep Hx. pose proof (index0_step_lt _ _ _ Hstep) as Hq.
  rewrite index0_step_Some in Hstep by exact Hq. injection Hstep as <-.
  assert (0 < 2 ^ Z.of_nat q) as HP by (apply Z.pow_pos_nonneg; lia).
  assert (2 ^ (Z.of_nat q + 1) = 2 * 2 ^ Z.of_nat q) as HP2
    by (rewrite Z.pow_add_r by lia; lia).
  pose proof (Z.div_mod x (2 ^ Z.of_nat q) ltac:(lia)) as Hdm.
  pose proof (Z.mod_pos_bound x (2 ^ Z.of_nat q) HP) as Hmod.
  assert (0 <= x / 2 ^ Z.of_nat q) as Hdiv by (apply Z.div_pos; lia).
  unfold shl64, wrap64.
  rewrite Z.shiftr_div_pow2, Z.shiftl_mul_pow2, Z.land_ones by lia.
  rewrite Z.mod_small by nia.
  rewrite <- Z.add_nocarry_lor.
  - lia.
  - apply Z.bits_inj'. intros i Hi. rewrite Z.land_spec, Z.bits_0.
    destruct (Z.lt_ge_cases i (Z.of_nat q + 1)).
    + rewrite Z.mul_pow2_bits_low by lia. reflexivity.
    + rewrite Z.mod_pow2_bits_high by lia. apply andb_false_r.
Qed.

Lemma index0_step_lt_mono (q : nat) (x x' y y' : Z) :
  index0_step q x = Some y → index0_step q x' = Some y' →
  0 <= x → x < x' → x' < 2 ^ 63 → y < y'.
Proof.
  intros Hy Hy' H0 Hlt Hx'.
  rewrite (index0_step_arith q x y Hy) by lia.
  rewrite (index0_step_arith q x' y' Hy') by lia.
  assert (0 < 2 ^ Z.of_nat q) as HP by (apply Z.pow_pos_nonneg; lia).
  assert (2 ^ (Z.of_nat q + 1) = 2 * 2 ^ Z.of_nat q) as ->
    by (rewrite Z.pow_add_r by lia; lia).
  pose proof (Z.div_mod x (2 ^ Z.of_nat q) ltac:(lia)) as Hdm.
  pose proof (Z.div_mod x' (2 ^ Z.of_nat q) ltac:(lia)) as Hdm'.
  pose proof (Z.mod_pos_bound x (2 ^ Z.of_nat q) HP) as Hmod.
  pose proof (Z.mod_pos_bound x' (2 ^ Z.of_nat q) HP) as Hmod'.
  assert (x / 2 ^ Z.of_nat q <= x' / 2 ^ Z.of_nat q) as Hle
    by (apply Z.div_le_mono; lia).
  nia.
Qed.

Lemma index0_loop_lt_mono (qs : list nat) :
  ∀ (m x x' y y' : Z),
    0 <= m → m + Z.of_nat (length qs) <= 64 →
    0 <= x → x < x' → x' < 2 ^ m →
    index0_loop qs x = Some y → index0_loop qs x' = Some y' → y < y'.
Proof.
  induction qs as [|q qs IH]; intros m x x' y y' Hm Hlen H0 Hlt Hx' Hy Hy'.
  - simpl in Hy, Hy'. congruence.
  - cbn [index0_loop] in Hy, Hy'. cbn [length] in Hlen.
    destruct (index0_step q x) as [x1|] eqn:Hs; [|discriminate].
    destruct (index0_step q x') as [x1'|] eqn:Hs'; [|discriminate].
    cbn [mbind option_bind] in Hy, Hy'.
    assert (2 ^ m <= 2 ^ 63) as Hp by (apply Z.pow_le_mono_r; lia).
    pose proof (index0_step_bound q x x1 m Hs Hm ltac:(lia)) as Hb.
    pose proof (index0_step_bound q x' x1' m Hs' Hm ltac:(lia)) as Hb'.
    pose proof (index0_step_lt_mono q x x' x1 x1' Hs Hs' H0 Hlt ltac:(lia)) as Hlt1.
    apply (IH (m + 1) x1 x1' y y'); try lia; assumption.
Qed.

(** X2: when [index0] has a defined result.  With every listed position
    below 63 it has one for every reduced index: [MASKS] is read inside its
    64 entries and both shifts of each round are by less than 64 bits.  With
    a position of 64 or more [MASKS] is read outside the table and there is
    none.  (Position 63 makes the last shift one by 64 bits; nothing is
    claimed for it here.) *)
Theorem index0_defined (qubits_sorted : list nat) (k : Z) :
  (Forall (fun q => q < 63)%nat qubits_sorted →
   is_Some (index0 qubits_sorted k)) ∧
  (Exists (fun q => 64 ≤ q)%nat qubits_sorted → index0 qubits_sorted k = None).
Proof.
  split.
  - intros H63. apply index0_loop_is_Some.
    eapply Forall_impl; [exact H63|]. intros q Hq. simpl in Hq. lia.
  - intros Hex. destruct (index0 qubits_sorted k) as [f|] eqn:Hf; [|reflexivity].
    exfalso. apply index0_loop_Some_inv in Hf.
    apply Exists_exists in Hex as (q & Hq & Hq64).
    rewrite list.Forall_forall in Hf. specialize (Hf q Hq). simpl in Hf. lia.
Qed.

(** X3: [index0] preserves the order of reduced indices: as long as the
    inserted zero bits fit in 64 bits ([k' < 2^m] with [m + N <= 64]), a
    larger reduced index gives a larger full index. *)
Theorem index0_strictly_increasing (qubits_sorted : list nat) (m k k' f f' : Z) :
  0 <= m → m + Z.of_nat (length qubits_sorted) <= 64 →
  0 <= k → k < k' → k' < 2 ^ m →
  index0 qubits_sorted k = Some f → index0 qubits_sorted k' = Some f' → f < f'.
Proof. apply index0_loop_lt_mono. Qed.

Lemma index0_strictly_increasing_witness :
  index0 [1; 4]%nat 76 = Some 296 ∧ index0 [1; 4]%nat 77 = Some 297 ∧ 296 < 297.
Proof.
  split; [reflexivity|]. split; [reflexivity|].
  apply (index0_strictly_increasing [1; 4]%nat 7 76 77 296 297).
  - lia.
  - simpl. lia.
  - lia.
  - lia.
  - lia.
  - reflexivity.
  - reflexivity.
Defined.

(** X1: the two tables hold what their names say at each of their 64
    entries: [BITS[i] = 2^i] and [MASKS[i] = 2^i - 1]. *)
Theorem tables_powers_of_two :
  BITS = (fun i => 2 ^ Z.of_nat i) <$> seq 0 64 ∧
  MASKS = (fun i => 2 ^ Z.of_nat i - 1) <$> seq 0 64.
Proof. split; vm_compute; reflexivity. Qed.

Lemma indexes_Some_inv (qubits qubits_sorted : list nat) (k : Z) (blk : list Z) :
  indexes qubits qubits_sorted k = Some blk →
  (length qubits_sorted < 64)%nat ∧ Forall (fun q => q < 64)%nat qubits_sorted.
Proof.
  unfold indexes. intros Hblk.
  destruct (BITS !! length qubits_sorted) as [size|] eqn:Hsize; [|discriminate].
  cbn [mbind option_bind] in Hblk.
  destruct (index0 qubits_sorted k) as [i0|] eqn:Hi0; [|discriminate].
  split.
  - exact (proj1 (BITS_lookup_Some _ _ Hsize)).
  - exact (index0_loop_Some_inv _ _ _ Hi0).
Qed.

(** X4: when [indexes], called on a qubit list and its sorted copy, has a
    defined result.  With at most 59 positions, all below 63, it returns a
    block of [2^N] entries for every reduced index: the tables are read
    inside their 64 entries, every shift is by less than 64 bits and the
    [2^(N+3)] bytes of the block are a size an allocation can have.  With 64
    positions or more, or a position of 64 or more, [BITS] or [MASKS] is read
    outside the table and there is no defined result.  (Nothing is claimed
    here for 60 to 63 positions, where the allocation cannot succeed, nor for
    position 63.) *)
Theorem indexes_defined (qubits : list nat) (k : Z) :
  ((length qubits < 60)%nat → Forall (fun q => q < 63)%nat qubits →
   ∃ blk, indexes qubits (sort qubits) k = Some blk ∧
          length blk = (2 ^ length qubits)%nat) ∧
  ((64 ≤ length qubits)%nat ∨ Exists (fun q => 64 ≤ q)%nat qubits →
   indexes qubits (sort qubits) k = None).
Proof.
  split.
  - intros HN H63. exists (index_block qubits k).
    apply index_block_total; [lia|].
    eapply Forall_impl; [exact H63|]. intros q Hq. simpl in Hq. lia.
  - intros Hbad.
    destruct (indexes qubits (sort qubits) k) as [blk|] eqn:Hblk; [|reflexivity].
    exfalso. apply indexes_Some_inv in Hblk as [HN H64].
    rewrite length_sort in HN. destruct Hbad as [Hlen|Hex]; [lia|].
    rewrite (sort_Permutation qubits) in H64.
    apply Exists_exists in Hex as (q & Hq & Hq64).
    rewrite list.Forall_forall in H64. specialize (H64 q Hq). simpl in H64. lia.
Qed.

Lemma pattern_on_spec (qs : list nat) (p : Z) :
  pattern_on qs p ↔ ∀ i, 0 <= i → Z.testbit p i = true → Z.to_nat i ∈ qs.
Proof.
  unfold pattern_on. split.
  - intros Hp i Hi Hpi.
    pose proof (f_equal (fun z => Z.testbit z i) Hp) as Hb. cbv beta in Hb.
    rewrite Z.ldiff_spec, Z.bits_0, Hpi, bits_or_testbit_Z in Hb by lia.
    destruct (decide (Z.to_nat i ∈ qs)) as [Hin|Hnin]; [exact Hin|].
    rewrite bool_decide_eq_false_2 in Hb by exact Hnin. discriminate.
  - intros Hp. apply Z.bits_inj'. intros i Hi.
    rewrite Z.ldiff_spec, Z.bits_0, bits_or_testbit_Z by lia.
    destruct (Z.testbit p i) eqn:Hpi; [|reflexivity].
    rewrite bool_decide_eq_true_2 by (apply Hp; assumption). reflexivity.
Qed.

Lemma bits_or_sort (qubits : list nat) : bits_or (sort qubits) = bits_or qubits.
Proof.
  apply Z.bits_inj'. intros i Hi. rewrite !bits_or_testbit_Z by lia.
  apply bool_decide_ext, elem_of_sort.
Qed.

Lemma pattern_on_bits_or (s qs : list nat) :
  sublist s qs → pattern_on qs (bits_or s).
Proof.
  intros Hsub. apply pattern_on_spec. intros i Hi Hb.
  rewrite bits_or_testbit_Z in Hb by lia. apply bool_decide_eq_true_1 in Hb.
  eapply elem_of_submseteq; [exact Hb|]. apply sublist_submseteq, Hsub.
Qed.

(** Every pattern on the listed positions is found in the block. *)
Lemma block_complete (i0 : Z) (qs : list nat) :
  ∀ p, pattern_on qs p → Z.lor i0 p ∈ block i0 qs.
Proof.
  induction qs as [|q qs IH] using rev_ind; intros p Hp.
  - assert (p = 0) as ->.
    { unfold pattern_on in Hp. simpl in Hp. rewrite Z.ldiff_0_r in Hp. exact Hp. }
    rewrite Z.lor_0_r. apply list_elem_of_singleton. reflexivity.
  - rewrite block_snoc, elem_of_app.
    rewrite pattern_on_spec in Hp.
    destruct (Z.testbit p (Z.of_nat q)) eqn:Hq.
    + right. apply list_elem_of_fmap.
      exists (Z.lor i0 (Z.ldiff p (2 ^ Z.of_nat q))). split.
      * apply Z.bits_inj'. intros i Hi.
        rewrite !Z.lor_spec, ldiff_pow2_testbit, testbit_pow2 by lia.
        destruct (Z.eqb_spec i (Z.of_nat q)) as [->|Hne].
        -- rewrite Hq. destruct (Z.testbit i0 (Z.of_nat q)); reflexivity.
        -- destruct (Z.testbit i0 i), (Z.testbit p i); reflexivity.
      * apply IH, pattern_on_spec. intros i Hi Hb.
        rewrite ldiff_pow2_testbit in Hb by lia.
        apply andb_true_iff in Hb as [Hpi Hne].
        apply negb_true_iff, Z.eqb_neq in Hne.
        specialize (Hp i Hi Hpi). rewrite elem_of_app, list_elem_of_singleton in Hp.
        destruct Hp as [Hin|Heq]; [exact Hin|lia].
    + left. apply IH, pattern_on_spec. intros i Hi Hpi.
      specialize (Hp i Hi Hpi). rewrite elem_of_app, list_elem_of_singleton in Hp.
      destruct Hp as [Hin|Heq]; [exact Hin|].
      rewrite <- Heq, Z2Nat.id in Hq by lia. congruence.
Qed.

Lemma testbit_nat_high (j n : nat) :
  (j < 2 ^ n)%nat → Z.testbit (Z.of_nat j) (Z.of_nat n) = false.
Proof.
  intros Hj. apply (lt_high_bits_clear _ (Z.of_nat n)); [|lia].
  rewrite <- pow2_to_nat in Hj.
  assert (0 < 2 ^ Z.of_nat n) by (apply Z.pow_pos_nonneg; lia). lia.
Qed.

Lemma testbit_nat_top (j n : nat) :
  (2 ^ n ≤ j < 2 ^ S n)%nat → Z.testbit (Z.of_nat j) (Z.of_nat n) = true.
Proof.
  intros Hj. rewrite <- !pow2_to_nat in Hj.
  assert (0 < 2 ^ Z.of_nat n) as HP by (apply Z.pow_pos_nonneg; lia).
  assert (2 ^ Z.of_nat (S n) = 2 * 2 ^ Z.of_nat n) as HP2
    by (rewrite Nat2Z.inj_succ, Z.pow_succ_r by lia; reflexivity).
  apply Z.testbit_true; [lia|].
  assert (Z.of_nat j / 2 ^ Z.of_nat n = 1) as ->; [|reflexivity].
  symmetry. apply (Z.div_unique _ _ 1 (Z.of_nat j - 2 ^ Z.of_nat n)); lia.
Qed.

Lemma testbit_nat_sub (j n i : nat) :
  (2 ^ n ≤ j)%nat → (i < n)%nat →
  Z.testbit (Z.of_nat (j - 2 ^ n)) (Z.of_nat i) = Z.testbit (Z.of_nat j) (Z.of_nat i).
Proof.
  intros Hj Hi. rewrite <- pow2_to_nat in Hj.
  assert (0 < 2 ^ Z.of_nat n) as HP by (apply Z.pow_pos_nonneg; lia).
  rewrite <- (Z.mod_pow2_bits_low (Z.of_nat (j - 2 ^ n)) (Z.of_nat n)) by lia.
  rewrite <- (Z.mod_pow2_bits_low (Z.of_nat j) (Z.of_nat n)) by lia.
  f_equal.
  assert (Z.of_nat (j - 2 ^ n) = Z.of_nat j + (-1) * 2 ^ Z.of_nat n) as ->.
  { rewrite <- pow2_to_nat. lia. }
  apply Z_mod_plus_full.
Qed.

(** Entry [j] of a block carries bit [i] of [j] at the [i]-th listed
    position. *)
Lemma block_lookup_bits (i0 : Z) (qs : list nat) :
  NoDup qs → (∀ q, q ∈ qs → Z.testbit i0 (Z.of_nat q) = false) →
  ∀ (j : nat) (x : Z) (i q : nat),
    block i0 qs !! j = Some x → qs !! i = Some q →
    Z.testbit x (Z.of_nat q) = Z.testbit (Z.of_nat j) (Z.of_nat i).
Proof.
  induction qs as [|q0 qs IH] using rev_ind; intros Hnd Hclear j x i q Hx Hq.
  - rewrite lookup_nil in Hq. discriminate.
  - apply list.NoDup_app in Hnd as (Hnd & Hnotin & _).
    assert (q0 ∉ qs) as Hq0.
    { intros Hin. apply (Hnotin q0 Hin), list_elem_of_singleton. reflexivity. }
    assert (∀ q, q ∈ qs → Z.testbit i0 (Z.of_nat q) = false) as Hclear'.
    { intros q' Hq'. apply Hclear, elem_of_app. left. exact Hq'. }
    specialize (IH Hnd Hclear').
    rewrite block_snoc in Hx.
    pose proof (length_block i0 qs) as Hlen.
    destruct (decide (j < 2 ^ length qs)%nat) as [Hj|Hj].
    + rewrite lookup_app_l in Hx by lia.
      destruct (decide (i < length qs)%nat) as [Hi|Hi].
      * rewrite lookup_app_l in Hq by exact Hi. exact (IH j x i q Hx Hq).
      * pose proof (lookup_lt_Some _ _ _ Hq) as Hi'.
        rewrite length_app in Hi'. simpl in Hi'.
        assert (i = length qs) as -> by lia.
        rewrite list_lookup_middle in Hq by reflexivity. injection Hq as <-.
        rewrite (block_other_bits i0 qs x q0) by
          (try exact Hq0; eapply list_elem_of_lookup_2; exact Hx).
        rewrite testbit_nat_high by exact Hj.
        apply Hclear, elem_of_app. right. apply list_elem_of_singleton. reflexivity.
    + rewrite lookup_app_r in Hx by lia. rewrite Hlen in Hx.
      rewrite list_lookup_fmap in Hx.
      destruct (block i0 qs !! (j - 2 ^ length qs)%nat) as [x0|] eqn:Hx0;
        [|discriminate].
      injection Hx as <-.
      pose proof (lookup_lt_Some _ _ _ Hx0) as Hj'. rewrite Hlen in Hj'.
      rewrite Z.lor_spec, testbit_pow2 by lia.
      destruct (decide (i < length qs)%nat) as [Hi|Hi].
      * rewrite lookup_app_l in Hq by exact Hi.
        assert (q ≠ q0) as Hne.
        { intros ->. apply Hq0. eapply list_elem_of_lookup_2. exact Hq. }
        rewrite (proj2 (Z.eqb_neq _ _)) by lia. rewrite orb_false_r.
        rewrite (IH _ _ _ _ Hx0 Hq). apply testbit_nat_sub; lia.
      * pose proof (lookup_lt_Some _ _ _ Hq) as Hi'.
        rewrite length_app in Hi'. simpl in Hi'.
        assert (i = length qs) as -> by lia.
        rewrite list_lookup_middle in Hq by reflexivity. injection Hq as <-.
        rewrite Z.eqb_refl, orb_true_r. symmetry. apply testbit_nat_top.
        simpl. lia.
Qed.

(** The block of [k] is a doubling block on [index0(sort(qubits), k)], whose
    bits at the listed positions are clear. *)
Lemma index_block_block (qubits : list nat) (k : Z) :
  NoDup qubits → (length qubits < 64)%nat → Forall (fun q => q < 64)%nat qubits →
  ∃ i0, index0 (sort qubits) k = Some i0 ∧
        indexes qubits (sort qubits) k = Some (block i0 qubits) ∧
        index_block qubits k = block i0 qubits ∧
        ∀ q, q ∈ qubits → Z.testbit i0 (Z.of_nat q) = false.
Proof.
  intros Hnd HN H64.
  destruct (index0_loop_is_Some (sort qubits) k (Forall_sort _ _ H64)) as [i0 Hi0].
  exists i0. split; [exact Hi0|].
  assert (indexes qubits (sort qubits) k = Some (block i0 qubits)) as Hblk.
  { rewrite (indexes_block qubits (sort qubits) k i0);
      rewrite ?length_sort; try lia; try assumption.
    rewrite firstn_all. reflexivity. }
  split; [exact Hblk|]. split.
  - unfold index_block. rewrite Hblk. reflexivity.
  - intros q Hq. apply (index0_loop_clear (sort qubits) k i0 q).
    + apply sort_sorted, Hnd.
    + exact Hi0.
    + apply elem_of_sort, Hq.
Qed.

(** X5: the order of the entries of an index block.  For a duplicate-free
    list of [N] qubits of a state of [M <= 64] qubits and a reduced index
    [k < 2^(M-N)], entry [j] of the block has bit [i] of [j] at position
    [qubits[i]] (in the order of the unsorted list), and the bits of
    [index0(sort(qubits), k)] everywhere else. *)
Theorem indexes_entry_bits (qubits : list nat) (M : nat) (k : Z) (j : nat) :
  NoDup qubits → (length qubits < 64)%nat → (M ≤ 64)%nat →
  Forall (fun q => q < M)%nat qubits →
  0 <= k < 2 ^ (Z.of_nat M - Z.of_nat (length qubits)) →
  (j < 2 ^ length qubits)%nat →
  ∃ blk x i0,
    indexes qubits (sort qubits) k = Some blk ∧ blk !! j = Some x ∧
    index0 (sort qubits) k = Some i0 ∧
    (∀ i q, qubits !! i = Some q →
       Z.testbit x (Z.of_nat q) = Z.testbit (Z.of_nat j) (Z.of_nat i)) ∧
    (∀ p, p ∉ qubits → Z.testbit x (Z.of_nat p) = Z.testbit i0 (Z.of_nat p)).
Proof.
  intros Hnd HN HM64 HM _ Hj.
  assert (Forall (fun q => q < 64)%nat qubits) as H64.
  { eapply Forall_impl; [exact HM|]. intros q Hq. simpl in Hq. lia. }
  destruct (index_block_block qubits k Hnd HN H64) as (i0 & Hi0 & Hblk & _ & Hclear).
  destruct (lookup_lt_is_Some_2 (block i0 qubits) j) as [x Hx].
  { rewrite length_block. exact Hj. }
  exists (block i0 qubits), x, i0. repeat split; try assumption.
  - intros i q Hq. exact (block_lookup_bits i0 qubits Hnd Hclear j x i q Hx Hq).
  - intros p Hp. apply (block_other_bits i0 qubits x p); [|exact Hp].
    eapply list_elem_of_lookup_2. exact Hx.
Qed.

Lemma indexes_entry_bits_witness :
  ∃ blk x i0,
    indexes [4; 1]%nat (sort [4; 1]%nat) 77 = Some blk ∧ blk !! 2%nat = Some x ∧
    index0 (sort [4; 1]%nat) 77 = Some i0 ∧
    (∀ i q, [4; 1]%nat !! i = Some q →
       Z.testbit x (Z.of_nat q) = Z.testbit (Z.of_nat 2) (Z.of_nat i)) ∧
    (∀ p, p ∉ [4; 1]%nat → Z.testbit x (Z.of_nat p) = Z.testbit i0 (Z.of_nat p)).
Proof.
  apply (indexes_entry_bits [4; 1]%nat 9 77 2).
  - by_decision.
  - simpl. lia.
  - lia.
  - by_decision.
  - simpl. lia.
  - simpl. lia.
Defined.

Lemma pow2_le_64 (M : nat) : (M ≤ 64)%nat → 2 ^ Z.of_nat M <= 2 ^ 64.
Proof. intros HM. apply Z.pow_le_mono_r; lia. Qed.

(** X6: the full indices of the block of [k] all have [k] as their
    spectator bits; hence the blocks of two different reduced indices share
    no full index. *)
Theorem index_block_spectator_bits (Q : list nat) (M : nat) (k x : Z) :
  NoDup Q → Forall (fun q => q < M)%nat Q → (M ≤ 64)%nat →
  0 <= k < 2 ^ (Z.of_nat M - Z.of_nat (length Q)) →
  x ∈ index_block Q k → spectator_bits (sort Q) x = k.
Proof.
  intros Hnd HM H64 Hk Hx.
  assert (Z.of_nat (length Q) <= Z.of_nat M) as HNM.
  { destruct (Z.le_gt_cases (Z.of_nat (length Q)) (Z.of_nat M)); [assumption|].
    rewrite Z.pow_neg_r in Hk by lia. lia. }
  destruct (decide (length Q < 64)%nat) as [HN|HN].
  2:{ unfold index_block, indexes in Hx. rewrite length_sort in Hx.
      rewrite BITS_lookup_None in Hx by lia. simpl in Hx.
      apply elem_of_nil in Hx. destruct Hx. }
  assert (Forall (fun q => q < 64)%nat Q) as Hq64.
  { eapply list.Forall_impl; [exact HM|]. intros q Hq. simpl in Hq. lia. }
  destruct (index_block_block Q k Hnd HN Hq64) as (i0 & Hi0 & _ & Heq & Hclear).
  rewrite Heq in Hx.
  pose proof (sort_sorted Q Hnd) as Hs.
  pose proof (Forall_sort _ _ HM) as HMs.
  pose proof (Forall_sort _ _ Hq64) as Hq64s.
  pose proof (pow2_le_64 M H64) as HpM.
  assert (0 <= i0 < 2 ^ Z.of_nat M) as Hi0M.
  { pose proof (index0_loop_bound (sort Q) k i0
                  (Z.of_nat M - Z.of_nat (length Q)) Hi0 ltac:(lia) Hk) as Hb.
    rewrite length_sort in Hb.
    replace (Z.of_nat M - Z.of_nat (length Q) + Z.of_nat (length Q))
      with (Z.of_nat M) in Hb by lia.
    exact Hb. }
  pose proof (block_bound i0 Q M x Hi0M HM Hx) as HxM.
  destruct (block_entries i0 Q x Hx) as (s & Hsub & Hxeq).
  destruct (lor_pattern_inv (sort Q) x i0 (bits_or s)) as [Hi0eq _].
  { intros q Hq. apply Hclear, elem_of_sort, Hq. }
  { unfold pattern_on. rewrite bits_or_sort. apply (pattern_on_bits_or s Q Hsub). }
  { exact Hxeq. }
  pose proof (index0_loop_spectator_bits (sort Q) x Hs Hq64s ltac:(lia)) as Hback.
  rewrite <- Hi0eq in Hback.
  pose proof (spectator_bits_bound (sort Q) M x Hs HMs HxM) as Hk'.
  rewrite length_sort in Hk'.
  rewrite <- (spectator_bits_index0_loop (sort Q) k i0
                (Z.of_nat M - Z.of_nat (length Q)));
    rewrite ?length_sort; try lia; try assumption.
  symmetry.
  apply (spectator_bits_index0_loop (sort Q) _ i0
           (Z.of_nat M - Z.of_nat (length Q)));
    rewrite ?length_sort; try lia; assumption.
Qed.

Lemma index_block_spectator_bits_witness :
  spectator_bits (sort [4; 1]%nat) 313 = 77.
Proof.
  apply (index_block_spectator_bits [4; 1]%nat 9 77 313).
  - by_decision.
  - by_decision.
  - lia.
  - simpl. lia.
  - by_decision.
Defined.

(** X7: the blocks cover the state: every full index [f] below [2^M] is an
    entry of the block of a reduced index in range, the one read off the
    spectator bits of [f]. *)
Theorem index_blocks_cover (Q : list nat) (M : nat) (f : Z) :
  NoDup Q → (length Q < 64)%nat → Forall (fun q => q < M)%nat Q → (M ≤ 64)%nat →
  0 <= f < 2 ^ Z.of_nat M →
  0 <= spectator_bits (sort Q) f < 2 ^ (Z.of_nat M - Z.of_nat (length Q)) ∧
  f ∈ index_block Q (spectator_bits (sort Q) f).
Proof.
  intros Hnd HN HM H64 Hf.
  assert (Forall (fun q => q < 64)%nat Q) as Hq64.
  { eapply list.Forall_impl; [exact HM|]. intros q Hq. simpl in Hq. lia. }
  pose proof (sort_sorted Q Hnd) as Hs.
  pose proof (pow2_le_64 M H64) as HpM.
  split.
  { rewrite <- (length_sort Q).
    apply spectator_bits_bound; [exact Hs|apply Forall_sort, HM|exact Hf]. }
  destruct (index_block_block Q (spectator_bits (sort Q) f) Hnd HN Hq64)
    as (i0 & Hi0 & _ & -> & _).
  unfold index0 in Hi0.
  rewrite (index0_loop_spectator_bits (sort Q) f Hs (Forall_sort _ _ Hq64))
    in Hi0 by lia.
  injection Hi0 as <-. rewrite bits_or_sort.
  assert (f = Z.lor (Z.ldiff f (bits_or Q)) (Z.land f (bits_or Q))) as Hsplit.
  { apply Z.bits_inj'. intros i Hi.
    rewrite Z.lor_spec, Z.ldiff_spec, Z.land_spec.
    destruct (Z.testbit f i), (Z.testbit (bits_or Q) i); reflexivity. }
  rewrite Hsplit at 1. apply block_complete.
  unfold pattern_on. apply Z.bits_inj'. intros i Hi.
  rewrite Z.ldiff_spec, Z.land_spec, Z.bits_0.
  destruct (Z.testbit f i), (Z.testbit (bits_or Q) i); reflexivity.
Qed.

Lemma index_blocks_cover_witness :
  0 <= spectator_bits (sort [4; 1]%nat) 313
    < 2 ^ (Z.of_nat 9 - Z.of_nat (length [4; 1]%nat)) ∧
  313 ∈ index_block [4; 1]%nat (spectator_bits (sort [4; 1]%nat) 313).
Proof.
  apply (index_blocks_cover [4; 1]%nat 9 313).
  - by_decision.
  - simpl. lia.
  - by_decision.
  - lia.
  - lia.
Defined.

(** ** The traversals *)

Lemma to_int64_range (z : Z) : - 2 ^ 63 <= to_int64 z < 2 ^ 63.
Proof.
  unfold to_int64, wrap64.
  pose proof (Z.mod_pos_bound z (2 ^ 64) ltac:(lia)) as Hb.
  destruct (Z.ltb_spec (z mod 2 ^ 64) (2 ^ 63)); lia.
Qed.

Lemma to_int64_int (z : Z) : - 2 ^ 63 <= z < 2 ^ 63 → to_int64 z = z.
Proof.
  intros Hz. unfold to_int64, wrap64.
  destruct (Z.le_gt_cases 0 z) as [Hpos|Hneg].
  - rewrite Z.mod_small by lia.
    destruct (Z.ltb_spec z (2 ^ 63)); lia.
  - assert (z mod 2 ^ 64 = z + 2 ^ 64) as ->.
    { symmetry. apply (Z.mod_unique_pos _ _ (-1)); lia. }
    destruct (Z.ltb_spec (z + 2 ^ 64) (2 ^ 63)); lia.
Qed.

Lemma seqZ_to_nat (lo len : Z) : seqZ lo (Z.of_nat (Z.to_nat len)) = seqZ lo len.
Proof.
  destruct (Z.le_gt_cases 0 len).
  - rewrite Z2Nat.id by lia. reflexivity.
  - rewrite !seqZ_nil by lia. reflexivity.
Qed.

Lemma run_units_ext {St : Type} (f g : Z → St → option St) (ks : list Z) (s : St) :
  Forall (fun k => ∀ s, f k s = g k s) ks → run_units f ks s = run_units g ks s.
Proof.
  intros Hall. revert s. induction Hall as [|k ks Hk _ IH]; intros s; [reflexivity|].
  cbn [run_units]. rewrite Hk. destruct (g k s) as [s'|]; [apply IH|reflexivity].
Qed.

Lemma indexes_nil (k : Z) : indexes [] [] k = Some [k].
Proof. reflexivity. Qed.

(** With a stride of 1 and enough fuel the loop is the counting loop. *)
Lemma for_gap_1 {St : Type} (body : Z → St → option St) (END : Z) (count : nat) :
  ∀ (fuel : nat) (k : Z) (s : St),
    END < 2 ^ 63 → - 2 ^ 63 <= k → Z.of_nat count = Z.max 0 (END - k) →
    (count < fuel)%nat →
    for_gap fuel body k END 1 s = Some (for_loopZ body k count s).
Proof.
  induction count as [|count IH]; intros fuel k s HEND Hk Hcount Hfuel.
  - destruct fuel as [|fuel]; [lia|]. cbn [for_gap for_loopZ].
    destruct (Z.ltb_spec k END); [lia|reflexivity].
  - destruct fuel as [|fuel]; [lia|]. cbn [for_gap for_loopZ].
    destruct (Z.ltb_spec k END); [|lia].
    destruct (body k s) as [s'|]; [|reflexivity].
    cbn [mbind option_bind]. rewrite to_int64_int by lia.
    apply IH; lia.
Qed.

(** A run of the loop that has a result ran the counting loop. *)
Lemma for_gap_1_inv {St : Type} (body : Z → St → option St) (END : Z) :
  ∀ (fuel : nat) (k : Z) (s : St) (r : option St),
    END < 2 ^ 63 → - 2 ^ 63 <= k →
    for_gap fuel body k END 1 s = Some r →
    r = for_loopZ body k (Z.to_nat (END - k)) s.
Proof.
  induction fuel as [|fuel IH]; intros k s r HEND Hk Hr; [discriminate|].
  cbn [for_gap] in Hr. destruct (Z.ltb_spec k END) as [Hlt|Hge].
  - assert (Z.to_nat (END - k) = Datatypes.S (Z.to_nat (END - (k + 1)))) as ->
      by lia.
    cbn [for_loopZ]. destruct (body k s) as [s'|].
    + cbn [mbind option_bind]. rewrite to_int64_int in Hr by lia.
      apply IH; [lia|lia|exact Hr].
    + injection Hr as <-. reflexivity.
  - assert (Z.to_nat (END - k) = 0%nat) as -> by lia.
    injection Hr as <-. reflexivity.
Qed.

Lemma gap_units_1 (k0 END : Z) : gap_units k0 END 1 = seqZ k0 (END - k0).
Proof.
  unfold gap_units. rewrite Z.div_1_r.
  replace (END - k0 + 1 - 1) with (END - k0) by lia.
  destruct (Z.le_gt_cases 0 (END - k0)) as [Hpos|Hneg].
  - apply list_eq. intros i. rewrite list_lookup_fmap.
    destruct (decide (Z.of_nat i < END - k0)) as [Hi|Hi].
    + rewrite !lookup_seqZ_lt by lia. simpl. f_equal. lia.
    + rewrite !lookup_seqZ_ge by lia. reflexivity.
  - rewrite !seqZ_nil by lia. reflexivity.
Qed.

Lemma gap_units_nil (k END gap : Z) : 0 < gap → END <= k → gap_units k END gap = [].
Proof.
  intros Hgap Hk. unfold gap_units. rewrite seqZ_nil; [reflexivity|].
  destruct (Z.le_gt_cases ((END - k + gap - 1) / gap) 0) as [Hle|Hgt]; [exact Hle|].
  pose proof (Z.mul_div_le (END - k + gap - 1) gap Hgap). nia.
Qed.

Lemma gap_units_cons (k END gap : Z) :
  0 < gap → k < END → gap_units k END gap = k :: gap_units (k + gap) END gap.
Proof.
  intros Hgap Hk. unfold gap_units.
  assert ((END - k + gap - 1) / gap = (END - (k + gap) + gap - 1) / gap + 1) as ->.
  { rewrite <- Z.div_add by lia. f_equal. lia. }
  assert (0 <= (END - (k + gap) + gap - 1) / gap) as Hn.
  { apply Z.div_pos; lia. }
  set (n := (END - (k + gap) + gap - 1) / gap) in *.
  rewrite seqZ_cons by lia. cbn [fmap list_fmap]. f_equal; [lia|].
  replace (Z.pred (n + 1)) with n by lia.
  apply list_eq. intros i. rewrite !list_lookup_fmap.
  destruct (decide (Z.of_nat i < n)) as [Hi|Hi].
  - rewrite !lookup_seqZ_lt by lia. simpl. f_equal. lia.
  - rewrite !lookup_seqZ_ge by lia. reflexivity.
Qed.

Lemma gap_units_bound (k END gap : Z) :
  0 < gap → Forall (fun x => k <= x < END) (gap_units k END gap).
Proof.
  intros Hgap. unfold gap_units. apply Forall_fmap, Forall_seqZ.
  intros i Hi. simpl.
  pose proof (Z.mul_div_le (END - k + gap - 1) gap Hgap). nia.
Qed.

(** With a positive stride and no overflow the loop runs the units of
    [gap_units] in order. *)
Lemma for_gap_units {St : Type} (body : Z → St → option St) (END gap : Z) :
  0 < gap → END + gap <= 2 ^ 63 →
  ∀ (count fuel : nat) (k : Z) (s : St),
    - 2 ^ 63 <= k →
    count = Z.to_nat ((END - k + gap - 1) / gap) → (count < fuel)%nat →
    for_gap fuel body k END gap s = Some (run_units body (gap_units k END gap) s).
Proof.
  intros Hgap HEND. induction count as [|count IH]; intros fuel k s Hk Hcount Hfuel.
  - destruct fuel as [|fuel]; [lia|]. cbn [for_gap].
    destruct (Z.ltb_spec k END) as [Hlt|Hge].
    + exfalso.
      assert (1 <= (END - k + gap - 1) / gap); [|lia].
      apply Z.div_le_lower_bound; lia.
    + rewrite gap_units_nil by lia. reflexivity.
  - destruct fuel as [|fuel]; [lia|]. cbn [for_gap].
    destruct (Z.ltb_spec k END) as [Hlt|Hge].
    + rewrite gap_units_cons by lia. cbn [run_units].
      destruct (body k s) as [s'|]; [|reflexivity].
      cbn [mbind option_bind]. rewrite to_int64_int by lia.
      apply IH; [lia| |lia].
      assert ((END - k + gap - 1) / gap = (END - (k + gap) + gap - 1) / gap + 1)
        as Heq.
      { rewrite <- Z.div_add by lia. f_equal. lia. }
      assert (0 <= (END - (k + gap) + gap - 1) / gap) by (apply Z.div_pos; lia).
      lia.
    + exfalso.
      assert ((END - k + gap - 1) / gap <= 0); [|lia].
      destruct (Z.le_gt_cases ((END - k + gap - 1) / gap) 0) as [Hle|Hgt];
        [exact Hle|].
      pose proof (Z.mul_div_le (END - k + gap - 1) gap Hgap). nia.
Qed.

(** X8: with an empty qubit list the traversal over index blocks is the
    plain range traversal: for every thread count, [apply_lambda(start, stop,
    omp_threads, func, {})] runs [func] on the one-entry block [[k]] of each
    [k] from [start] to [stop - 1], as [apply_lambda(start, stop,
    omp_threads, ...)] does with [k]. *)
Theorem apply_lambda_no_qubits {St : Type} (start stop omp_threads : Z)
    (func : list Z → St → St) (s : St) (r : option St) :
  0 <= start < 2 ^ 63 →
  apply_lambda start stop omp_threads func [] s r ↔
  apply_lambda_range start stop omp_threads (fun k => func [k]) s r.
Proof.
  intros Hstart.
  assert (∀ ks, ks ≡ₚ seqZ (to_int64 start) (to_int64 stop - to_int64 start) →
            run_units (apply_lambda_body func [] (sort [])) ks s
            = run_units (apply_lambda_range_body (fun k => func [k])) ks s) as Hsame.
  { intros ks Hks. apply run_units_ext. rewrite Hks. apply Forall_seqZ.
    intros k Hk s'. rewrite to_int64_small in Hk by exact Hstart.
    pose proof (to_int64_range stop).
    unfold apply_lambda_body, apply_lambda_range_body.
    rewrite wrap64_small by lia. reflexivity. }
  change (Z.shiftr stop (Z.of_nat (length (@nil nat)))) with (Z.shiftr stop 0).
  assert (0 < 64)%nat as H0 by lia.
  split; intros Hrun.
  - destruct Hrun as [Hseq|ks Hpar _ Hks|_ Hlen].
    + unfold apply_lambda_seq. cbn [length]. rewrite decide_True by exact H0.
      rewrite Z.shiftr_0_r.
      rewrite for_loopZ_run_units, Hsame by (rewrite seqZ_to_nat; reflexivity).
      rewrite <- for_loopZ_run_units.
      exact (apply_lambda_range_sequential start stop omp_threads _ s Hseq).
    + cbn [length] in Hks. rewrite Z.shiftr_0_r in Hks. rewrite (Hsame ks Hks).
      exact (apply_lambda_range_parallel start stop omp_threads _ s ks Hpar Hks).
    + cbn [length] in Hlen. lia.
  - destruct Hrun as [Hseq|ks Hpar Hks].
    + unfold apply_lambda_range_seq.
      rewrite for_loopZ_run_units, <- Hsame by (rewrite seqZ_to_nat; reflexivity).
      rewrite <- for_loopZ_run_units.
      pose proof (apply_lambda_sequential start stop omp_threads func [] s Hseq)
        as Hr.
      unfold apply_lambda_seq in Hr. cbn [length] in Hr.
      rewrite decide_True in Hr by exact H0.
      rewrite Z.shiftr_0_r in Hr. exact Hr.
    + rewrite <- (Hsame ks Hks).
      apply (apply_lambda_parallel start stop omp_threads func [] s ks Hpar H0).
      cbn [length]. rewrite Z.shiftr_0_r. exact Hks.
Qed.

Lemma apply_lambda_no_qubits_witness :
  apply_lambda 2 5 1 (fun inds s => inds :: s) [] [] (Some [[4]; [3]; [2]]) ↔
  apply_lambda_range 2 5 1 (fun k s => [k] :: s) [] (Some [[4]; [3]; [2]]).
Proof. apply (apply_lambda_no_qubits 2 5 1 (fun inds s => inds :: s) []). lia. Defined.

(** X9: the strided traversal over fewer than 64 qubits, run sequentially
    with a positive stride that cannot overflow, returns, and has called
    [func(inds, params)] on the blocks of [start, start + gap,
    start + 2 gap, ...] below [stop >> |qubits|], in that order.  [stop] is a
    [uint_t]. *)
Theorem apply_lambda_gap_progression {St param_t : Type} (fuel : nat)
    (start stop gap omp_threads : Z) (func : list Z → param_t → St → St)
    (qubits : list nat) (params : param_t) (s : St) (r : option (option St)) :
  omp_threads <= 1 → 0 < gap →
  (length qubits < 64)%nat →
  0 <= start < 2 ^ 63 →
  0 <= stop < 2 ^ 64 →
  Z.shiftr stop (Z.of_nat (length qubits)) + gap <= 2 ^ 63 →
  (Z.to_nat ((Z.shiftr stop (Z.of_nat (length qubits)) - start + gap - 1) / gap)
   < fuel)%nat →
  apply_lambda_gap fuel start stop gap omp_threads func qubits params s r →
  r = Some (blocks ← mapM (indexes qubits (sort qubits))
                        (gap_units start (Z.shiftr stop (Z.of_nat (length qubits))) gap);
            Some (foldl (fun s inds => func inds params s) s blocks)).
Proof.
  intros Hthreads Hgap HN Hstart Hstop HEND Hfuel Hrun.
  assert (0 <= Z.shiftr stop (Z.of_nat (length qubits))) as HEND0
    by (apply Z.shiftr_nonneg; lia).
  destruct Hrun as [_|ks Hpar _ _ _|Hpar _]; [|lia|lia].
  unfold apply_lambda_gap_seq. rewrite decide_True by exact HN.
  set (END := Z.shiftr stop (Z.of_nat (length qubits))) in *.
  rewrite (to_int64_small start) by exact Hstart.
  rewrite (to_int64_small END) by lia.
  rewrite (for_gap_units _ END gap Hgap HEND _ fuel start s ltac:(lia) eq_refl Hfuel).
  f_equal. apply run_units_apply_lambda_body.
  eapply list.Forall_impl; [apply gap_units_bound, Hgap|].
  intros k Hk. simpl in Hk. lia.
Qed.

Lemma apply_lambda_gap_progression_witness :
  Some (Some [[12; 14]; [5; 7]; [0; 2]])
  = Some (blocks ← mapM (indexes [1%nat] (sort [1%nat]))
                     (gap_units 0 (Z.shiftr 16 (Z.of_nat (length [1%nat]))) 3);
          Some (foldl (fun s inds => (λ (inds : list Z) (_ : unit) s, inds :: s) inds () s)
                  [] blocks)).
Proof.
  apply (apply_lambda_gap_progression 4 0 16 3 1
           (fun inds (_ : unit) s => inds :: s) [1%nat] () []).
  - lia.
  - lia.
  - simpl. lia.
  - lia.
  - lia.
  - vm_compute. discriminate.
  - vm_compute. lia.
  - change (Some (Some [[12; 14]; [5; 7]; [0; 2]]))
      with (apply_lambda_gap_seq 4 0 16 3
              (fun inds (_ : unit) s => inds :: s) [1%nat] () []).
    apply apply_lambda_gap_sequential. lia.
Defined.

(** X10: with a stride of 0 and a non-empty range the sequential strided
    traversal never returns: whatever the number of iterations allowed, it
    is still calling [func] on the block of [start]. *)
Theorem apply_lambda_gap_zero_never_returns {St param_t : Type} (fuel : nat)
    (start stop omp_threads : Z) (func : list Z → param_t → St → St)
    (qubits : list nat) (params : param_t) (s : St) (r : option (option St)) :
  omp_threads <= 1 →
  (length qubits < 64)%nat → Forall (fun q => q < 64)%nat qubits →
  to_int64 start < to_int64 (Z.shiftr stop (Z.of_nat (length qubits))) →
  apply_lambda_gap fuel start stop 0 omp_threads func qubits params s r →
  r = None.
Proof.
  intros Hthreads HN H64 Hrange Hrun.
  destruct Hrun as [_|ks Hpar _ _ _|Hpar _]; [|lia|lia].
  unfold apply_lambda_gap_seq. rewrite decide_True by exact HN.
  set (END := to_int64 (Z.shiftr stop (Z.of_nat (length qubits)))) in *.
  pose proof (to_int64_range start) as Hk0.
  revert s. induction fuel as [|fuel IH]; intros s; [reflexivity|].
  cbn [for_gap]. destruct (Z.ltb_spec (to_int64 start) END); [|lia].
  unfold apply_lambda_body at 1.
  rewrite (proj1 (index_block_total qubits (wrap64 (to_int64 start)) HN H64)).
  cbn [mbind option_bind].
  rewrite Z.add_0_r, to_int64_int by lia. apply IH.
Qed.

Lemma apply_lambda_gap_zero_never_returns_witness :
  apply_lambda_gap_seq 1000 0 16 0 (fun inds (_ : unit) s => inds :: s)
    [1%nat] () [] = None.
Proof.
  apply (apply_lambda_gap_zero_never_returns 1000 0 16 1
           (fun inds (_ : unit) s => inds :: s) [1%nat] () []).
  - lia.
  - simpl. lia.
  - by_decision.
  - vm_compute. reflexivity.
  - apply apply_lambda_gap_sequential. lia.
Defined.

(** X11: the overload with parameters and no stride behaves as
    [apply_lambda] on the function with its parameters bound: it returns,
    and for every thread count the two have the same results. *)
Theorem apply_lambda_params_stride_one {St param_t : Type} (fuel : nat)
    (start stop omp_threads : Z) (func : list Z → param_t → St → St)
    (qubits : list nat) (params : param_t) (s : St) (ro : option (option St)) :
  (Z.to_nat (to_int64 (Z.shiftr stop (Z.of_nat (length qubits))) - to_int64 start)
   < fuel)%nat →
  apply_lambda_params fuel start stop omp_threads func qubits params s ro ↔
  ∃ r, ro = Some r ∧
       apply_lambda start stop omp_threads (fun inds => func inds params) qubits s r.
Proof.
  intros Hfuel. unfold apply_lambda_params.
  set (END := to_int64 (Z.shiftr stop (Z.of_nat (length qubits)))) in *.
  pose proof (to_int64_range start) as Hk0.
  pose proof (to_int64_range (Z.shiftr stop (Z.of_nat (length qubits)))) as HEND.
  fold END in HEND.
  assert (apply_lambda_gap_seq fuel start stop 1 func qubits params s
          = Some (apply_lambda_seq start stop (fun inds => func inds params) qubits s))
    as Hseq.
  { unfold apply_lambda_gap_seq, apply_lambda_seq. fold END.
    destruct (decide (length qubits < 64)%nat); [|reflexivity].
    apply for_gap_1; lia. }
  split.
  - intros Hrun. destruct Hrun as [Hthreads|ks Hpar HN _ Hks|Hpar HN].
    + eexists. split; [exact Hseq|]. apply apply_lambda_sequential, Hthreads.
    + eexists. split; [reflexivity|].
      apply apply_lambda_parallel; [exact Hpar|exact HN|].
      rewrite gap_units_1 in Hks. exact Hks.
    + eexists. split; [reflexivity|].
      apply apply_lambda_parallel_undefined; assumption.
  - intros (r & -> & Hrun). destruct Hrun as [Hthreads|ks Hpar HN Hks|Hpar HN].
    + rewrite <- Hseq. apply apply_lambda_gap_sequential, Hthreads.
    + apply apply_lambda_gap_parallel; [exact Hpar|exact HN|lia|].
      rewrite gap_units_1. exact Hks.
    + apply apply_lambda_gap_parallel_undefined; assumption.
Qed.

Lemma apply_lambda_params_stride_one_witness :
  apply_lambda_params 5 0 8 1 (fun inds (_ : unit) s => inds :: s) [1%nat] () []
    (Some (Some [[5; 7]; [4; 6]; [1; 3]; [0; 2]])) ↔
  ∃ r, Some (Some [[5; 7]; [4; 6]; [1; 3]; [0; 2]]) = Some r ∧
       apply_lambda 0 8 1 (fun inds => (fun inds (_ : unit) s => inds :: s) inds ())
         [1%nat] [] r.
Proof.
  apply (apply_lambda_params_stride_one 5 0 8 1
           (fun inds (_ : unit) s => inds :: s) [1%nat] () []).
  vm_compute. lia.
Defined.

(** X12: whatever the thread count, [apply_lambda] has a defined result on
    a list of fewer than 64 positions below 64, and has called [func] exactly
    once on the block of each reduced index of the range (in increasing
    order or, with several threads, in some other order). *)
Theorem apply_lambda_any_threads {St : Type} (start stop omp_threads : Z)
    (func : list Z → St → St) (qubits : list nat) (s : St) (r : option St) :
  (length qubits < 64)%nat → Forall (fun q => q < 64)%nat qubits →
  0 <= start < 2 ^ 63 →
  0 <= Z.shiftr stop (Z.of_nat (length qubits)) < 2 ^ 63 →
  apply_lambda start stop omp_threads func qubits s r →
  ∃ ks, ks ≡ₚ seqZ start (Z.shiftr stop (Z.of_nat (length qubits)) - start) ∧
        r = Some (foldl (fun s inds => func inds s) s (index_block qubits <$> ks)).
Proof.
  intros HN H64 Hstart HEND Hrun.
  set (END := Z.shiftr stop (Z.of_nat (length qubits))) in *.
  assert (∀ ks, ks ≡ₚ seqZ start (END - start) →
            run_units (apply_lambda_body func qubits (sort qubits)) ks s
            = Some (foldl (fun s inds => func inds s) s (index_block qubits <$> ks)))
    as Hunits.
  { intros ks Hks. rewrite run_units_apply_lambda_body.
    - rewrite (mapM_indexes qubits ks HN H64). reflexivity.
    - rewrite Hks. apply Forall_seqZ. intros k Hk. lia. }
  destruct Hrun as [_|ks _ _ Hks|_ Hlen]; [| |lia].
  - exists (seqZ start (END - start)). split; [reflexivity|].
    unfold apply_lambda_seq. rewrite decide_True by exact HN. fold END.
    rewrite (to_int64_small start), (to_int64_small END) by assumption.
    rewrite for_loopZ_run_units, seqZ_to_nat. apply Hunits. reflexivity.
  - fold END in Hks.
    rewrite (to_int64_small start), (to_int64_small END) in Hks by assumption.
    exists ks. split; [exact Hks|]. apply Hunits, Hks.
Qed.

Lemma apply_lambda_any_threads_witness :
  ∃ ks, ks ≡ₚ seqZ 0 (Z.shiftr 8 (Z.of_nat (length [2; 0]%nat)) - 0) ∧
        run_units (apply_lambda_body (fun inds s => inds :: s) [2; 0]%nat
                     (sort [2; 0]%nat)) [1; 0] []
        = Some (foldl (fun s inds => inds :: s) [] (index_block [2; 0]%nat <$> ks)).
Proof.
  apply (apply_lambda_any_threads 0 8 4 (fun inds s => inds :: s) [2; 0]%nat []).
  - simpl. lia.
  - by_decision.
  - lia.
  - vm_compute. split; [discriminate|reflexivity].
  - apply (apply_lambda_parallel 0 8 4 (fun inds s => inds :: s) [2; 0]%nat []
             [1; 0]); [lia|simpl; lia|].
    vm_compute. apply perm_swap.
Defined.

(** X13: whatever the thread count, [apply_lambda_MOSQ] on positions that
    are all below 64 returns and has called [func] exactly once on each
    odd-parity [k] of the range and never on an even-parity one. *)
Theorem apply_lambda_MOSQ_any_threads {St : Type} (start stop omp_threads : Z)
    (func : Z → St → St) (qubits : list nat) (s : St) (r : option St) :
  Forall (fun q => q < 64)%nat qubits →
  apply_lambda_MOSQ start stop omp_threads func qubits s r →
  ∃ ks, ks ≡ₚ filter (fun k => bits_xor k qubits = true)
                (seqZ (to_int64 start) (to_int64 stop - to_int64 start)) ∧
        r = Some (foldl (fun s k => func k s) s ks).
Proof.
  intros H64 Hrun. destruct Hrun as [_|ks _ Hks].
  - eexists. split; [reflexivity|]. unfold apply_lambda_MOSQ_seq.
    rewrite for_loopZ_run_units, seqZ_to_nat.
    apply run_units_apply_lambda_MOSQ_body, H64.
  - eexists. split; [|apply run_units_apply_lambda_MOSQ_body, H64].
    rewrite Hks. reflexivity.
Qed.

Lemma apply_lambda_MOSQ_any_threads_witness :
  ∃ ks, ks ≡ₚ filter (fun k => bits_xor k [0; 2]%nat = true)
                (seqZ (to_int64 0) (to_int64 8 - to_int64 0)) ∧
        run_units (apply_lambda_MOSQ_body (fun k s => k :: s) [0; 2]%nat)
          [3; 1; 2; 0; 7; 6; 5; 4] []
        = Some (foldl (fun s k => k :: s) [] ks).
Proof.
  apply (apply_lambda_MOSQ_any_threads 0 8 4 (fun k s => k :: s) [0; 2]%nat []);
    [by_decision|].
  apply (apply_lambda_MOSQ_parallel 0 8 4 (fun k s => k :: s) [0; 2]%nat []
           [3; 1; 2; 0; 7; 6; 5; 4]); [lia|].
  apply (bool_decide_unpack _). vm_compute. exact I.
Defined.

(** X14: with an empty qubit list every index has even parity, so
    [apply_lambda_MOSQ] never calls [func] and leaves the state as it was. *)
Theorem apply_lambda_MOSQ_no_qubits {St : Type} (start stop omp_threads : Z)
    (func : Z → St → St) (s : St) (r : option St) :
  apply_lambda_MOSQ start stop omp_threads func [] s r → r = Some s.
Proof.
  assert (∀ ks, run_units (apply_lambda_MOSQ_body func []) ks s = Some s) as Hunits.
  { intros ks. rewrite run_units_apply_lambda_MOSQ_body by constructor.
    assert (filter (fun k => bits_xor k [] = true) ks = []) as ->; [|reflexivity].
    induction ks as [|k ks IH]; [reflexivity|].
    rewrite filter_cons_False by (simpl; discriminate). exact IH. }
  intros Hrun. destruct Hrun as [_|ks _ _].
  - unfold apply_lambda_MOSQ_seq. rewrite for_loopZ_run_units. apply Hunits.
  - apply Hunits.
Qed.

Lemma apply_lambda_MOSQ_no_qubits_witness :
  apply_lambda_MOSQ_seq 0 8 (fun k s => k :: s) [] [] = Some [].
Proof.
  apply (apply_lambda_MOSQ_no_qubits 0 8 1 (fun k s => k :: s) []).
  apply apply_lambda_MOSQ_sequential. lia.
Defined.

(** ** apply_lambda_MOSQ_CR *)

Lemma land_1_testbit (v : Z) : Z.land v 1 = Z.b2z (Z.testbit v 0).
Proof.
  change 1 with (Z.ones 1). rewrite Z.land_ones by lia.
  change (2 ^ 1) with 2. symmetry. apply Z.bit0_mod.
Qed.

Lemma bit_count_S (n : nat) (v : Z) :
  bit_count (S n) v = Z.b2z (Z.testbit v 0) + bit_count n (Z.shiftr v 1).
Proof.
  unfold bit_count. cbn [seq foldr]. f_equal.
  rewrite <- fmap_S_seq, foldr_fmap.
  apply foldr_ext; [|reflexivity|reflexivity].
  intros i c. rewrite Z.shiftr_spec by lia.
  replace (Z.of_nat i + 1) with (Z.of_nat (S i)) by lia. reflexivity.
Qed.

Lemma bit_count_bound (n : nat) (v : Z) : 0 <= bit_count n v <= Z.of_nat n.
Proof.
  revert v. induction n as [|n IH]; intros v; [unfold bit_count; simpl; lia|].
  rewrite bit_count_S. specialize (IH (Z.shiftr v 1)).
  destruct (Z.testbit v 0); simpl; lia.
Qed.

Lemma bit_count_0 (n : nat) : bit_count n 0 = 0.
Proof.
  induction n as [|n IH]; [reflexivity|].
  rewrite bit_count_S, Z.shiftr_0_l, IH. reflexivity.
Qed.

Lemma count_YZ_loop_spec (rounds : nat) :
  ∀ (yc ym zc zm : Z),
    0 <= yc → yc + Z.of_nat rounds < 2 ^ 64 →
    0 <= zc → zc + Z.of_nat rounds < 2 ^ 64 →
    count_YZ_loop rounds yc ym zc zm
    = (yc + bit_count rounds ym, zc + bit_count rounds zm).
Proof.
  induction rounds as [|rounds IH]; intros yc ym zc zm Hy0 Hy Hz0 Hz.
  - unfold bit_count. simpl. f_equal; lia.
  - cbn [count_YZ_loop]. rewrite !land_1_testbit, !bit_count_S.
    assert (∀ b : bool, 0 <= Z.b2z b <= 1) as Hb by (intros []; simpl; lia).
    pose proof (Hb (Z.testbit ym 0)). pose proof (Hb (Z.testbit zm 0)).
    rewrite !wrap64_small by lia.
    rewrite IH by lia. f_equal; lia.
Qed.

Lemma bool_of_Z_false (z : Z) : bool_of_Z z = false ↔ z = 0.
Proof.
  unfold bool_of_Z. rewrite negb_false_iff. apply Z.eqb_eq.
Qed.

Lemma count_ones_while_spec (n : nat) :
  ∀ (fuel : nat) (temp num_Y : Z),
    0 <= temp < 2 ^ Z.of_nat n → (n < fuel)%nat →
    0 <= num_Y → num_Y + Z.of_nat n < 2 ^ 64 →
    count_ones_while fuel temp num_Y = Some (num_Y + bit_count n temp).
Proof.
  induction n as [|n IH]; intros fuel temp num_Y Ht Hfuel H0 Hn.
  - destruct fuel as [|fuel]; [lia|]. cbn [count_ones_while].
    assert (temp = 0) as -> by (simpl in Ht; lia).
    simpl. f_equal. unfold bit_count. simpl. lia.
  - destruct fuel as [|fuel]; [lia|]. cbn [count_ones_while].
    destruct (bool_of_Z temp) eqn:Hnz.
    + rewrite land_1_testbit, bit_count_S.
      assert (∀ b : bool, 0 <= Z.b2z b <= 1) as Hb by (intros []; simpl; lia).
      pose proof (Hb (Z.testbit temp 0)).
      rewrite wrap64_small by lia.
      rewrite IH; [f_equal; lia| |lia|lia|lia].
      rewrite Z.shiftr_div_pow2 by lia. change (2 ^ 1) with 2.
      rewrite Nat2Z.inj_succ, Z.pow_succ_r in Ht by lia.
      split; [apply Z.div_pos; lia|].
      apply Z.div_lt_upper_bound; lia.
    + apply bool_of_Z_false in Hnz. subst temp.
      rewrite bit_count_0. f_equal. lia.
Qed.

(** X15: the counting loops of [apply_lambda_MOSQ_CR] count set bits: the
    [while] loop over [Y_idx] ends within 64 rounds on a 64-bit value and
    yields its number of set bits, and the 64-round loop yields the numbers
    of set bits of the two masked values. *)
Theorem MOSQ_CR_counting_loops (fuel : nat) (Y_idx a b : Z) :
  0 <= Y_idx < 2 ^ 64 → (64 < fuel)%nat →
  count_ones_while fuel Y_idx 0 = Some (popcount Y_idx) ∧
  count_YZ_loop 64 0 a 0 b = (popcount a, popcount b).
Proof.
  intros HY Hfuel. split.
  - rewrite (count_ones_while_spec 64 fuel Y_idx 0); [reflexivity| |lia|lia|].
    + exact HY.
    + simpl. lia.
  - rewrite count_YZ_loop_spec; [reflexivity|lia| |lia|]; simpl; lia.
Qed.

Lemma MOSQ_CR_counting_loops_witness :
  count_ones_while 65 11 0 = Some (popcount 11) ∧
  count_YZ_loop 64 0 5 0 7 = (popcount 5, popcount 7).
Proof. apply (MOSQ_CR_counting_loops 65 11 5 7); lia. Defined.

Lemma bool_of_Z_b2z (b : bool) : bool_of_Z (Z.b2z b) = b.
Proof. destruct b; reflexivity. Qed.

Lemma highest_one_loop_spec (n : nat) (XY_idx : Z) :
  0 <= XY_idx < 2 ^ Z.of_nat n →
  highest_one_loop XY_idx n = if XY_idx =? 0 then -1 else Z.log2 XY_idx.
Proof.
  induction n as [|i IH]; intros HXY.
  - assert (XY_idx = 0) as -> by (simpl in HXY; lia). reflexivity.
  - cbn [highest_one_loop].
    rewrite land_1_testbit, Z.shiftr_spec, Z.add_0_l, bool_of_Z_b2z by lia.
    destruct (Z.testbit XY_idx (Z.of_nat i)) eqn:Hbit.
    + assert (2 ^ Z.of_nat i <= XY_idx) as Hge.
      { destruct (Z.le_gt_cases (2 ^ Z.of_nat i) XY_idx) as [Hle|Hlt]; [exact Hle|].
        rewrite (lt_high_bits_clear XY_idx (Z.of_nat i) (Z.of_nat i)) in Hbit
          by lia. discriminate. }
      assert (0 < 2 ^ Z.of_nat i) by (apply Z.pow_pos_nonneg; lia).
      destruct (Z.eqb_spec XY_idx 0); [lia|].
      symmetry. apply Z.log2_unique; [lia|].
      rewrite Nat2Z.inj_succ in HXY. unfold Z.succ in HXY. lia.
    + apply IH. apply high_bits_clear_lt; [lia|].
      intros j Hj. destruct (Z.eq_dec j (Z.of_nat i)) as [->|Hne]; [exact Hbit|].
      apply (lt_high_bits_clear XY_idx (Z.of_nat (S i))); lia.
Qed.

Lemma lxor_bound (a b n : Z) :
  0 <= n → 0 <= a < 2 ^ n → 0 <= b < 2 ^ n → 0 <= Z.lxor a b < 2 ^ n.
Proof.
  intros Hn Ha Hb. apply high_bits_clear_lt; [exact Hn|].
  intros i Hi. rewrite Z.lxor_spec.
  rewrite (lt_high_bits_clear a n i Ha Hi), (lt_high_bits_clear b n i Hb Hi).
  reflexivity.
Qed.

Lemma log2_lt_nat (x : Z) (n : nat) :
  0 < x < 2 ^ Z.of_nat n → 0 <= Z.log2 x < Z.of_nat n.
Proof.
  intros Hx. split; [apply Z.log2_nonneg|].
  apply Z.log2_lt_pow2; lia.
Qed.

(** [idx0] is defined for every unit and is [k] with a zero inserted. *)
Lemma MOSQ_CR_idx0_spec (XY_idx k : Z) :
  0 <= XY_idx < 2 ^ 64 → 0 <= k < 2 ^ 63 →
  MOSQ_CR_idx0 XY_idx k = Some (MOSQ_CR_base XY_idx k).
Proof.
  intros HXY Hk. unfold MOSQ_CR_idx0, MOSQ_CR_base.
  rewrite (highest_one_loop_spec 64 XY_idx) by exact HXY.
  rewrite wrap64_small by lia.
  destruct (Z.eqb_spec XY_idx 0) as [->|Hne]; [reflexivity|].
  pose proof (log2_lt_nat XY_idx 64 ltac:(lia)) as Hh.
  destruct (Z.ltb_spec (-1) (Z.log2 XY_idx)); [|lia].
  destruct (index0_step (Z.to_nat (Z.log2 XY_idx)) k) as [y|] eqn:Hstep.
  - rewrite (index0_step_arith _ _ _ Hstep Hk), Z2Nat.id by lia. reflexivity.
  - rewrite index0_step_Some in Hstep by lia. discriminate.
Qed.

Lemma mod4_wrap64 (z : Z) : wrap64 z mod 4 = z mod 4.
Proof.
  unfold wrap64. apply Z.mod_mod_divide. exists (2 ^ 62). reflexivity.
Qed.

Lemma MOSQ_CR_mat_sel_spec (Y_idx Z_idx idx0 : Z) :
  MOSQ_CR_mat_sel Y_idx Z_idx (popcount Y_idx) idx0
  = MOSQ_CR_matrix_number Y_idx Z_idx idx0.
Proof.
  unfold MOSQ_CR_mat_sel, MOSQ_CR_matrix_number.
  rewrite count_YZ_loop_spec by (simpl; lia).
  rewrite mod4_wrap64. reflexivity.
Qed.

Lemma MOSQ_CR_body_spec {St param_t : Type} (func : list Z → param_t → St → St)
    (mat0 mat1 mat2 mat3 : param_t) (X_idx Y_idx Z_idx k : Z) (s : St) :
  0 <= X_idx < 2 ^ 64 → 0 <= Y_idx < 2 ^ 64 → 0 <= k < 2 ^ 63 →
  apply_lambda_MOSQ_CR_body func mat0 mat1 mat2 mat3 X_idx Y_idx Z_idx
    (popcount Y_idx) k s
  = Some (func (MOSQ_CR_pair (Z.lxor X_idx Y_idx) k)
            (nth (Z.to_nat (MOSQ_CR_matrix_number Y_idx Z_idx
                              (MOSQ_CR_base (Z.lxor X_idx Y_idx) k)))
                 [mat0; mat1; mat2; mat3] mat0) s).
Proof.
  intros HX HY Hk. unfold apply_lambda_MOSQ_CR_body.
  rewrite MOSQ_CR_idx0_spec by (try apply lxor_bound; lia).
  cbn [mbind option_bind]. rewrite MOSQ_CR_mat_sel_spec.
  fold (MOSQ_CR_pair (Z.lxor X_idx Y_idx) k).
  set (sel := MOSQ_CR_matrix_number _ _ _).
  assert (0 <= sel < 4) as Hsel.
  { unfold sel, MOSQ_CR_matrix_number. apply Z.mod_pos_bound. lia. }
  assert (sel = 0 ∨ sel = 1 ∨ sel = 2 ∨ sel = 3) as [Hs|[Hs|[Hs|Hs]]] by lia;
    rewrite Hs; reflexivity.
Qed.

Lemma run_units_total {St : Type} (body : Z → St → option St) (g : Z → St → St)
    (ks : list Z) (s : St) :
  Forall (fun k => ∀ s, body k s = Some (g k s)) ks →
  run_units body ks s = Some (foldl (fun s k => g k s) s ks).
Proof.
  intros Hall. revert s. induction Hall as [|k ks Hk _ IH]; intros s; [reflexivity|].
  cbn [run_units foldl]. rewrite Hk. apply IH.
Qed.

(** X16: [apply_lambda_MOSQ_CR] returns and has called [func] exactly once
    for each [k] from [start] to [stop / 2 - 1] (in increasing order when
    sequential): on the pair [idx0, idx0 ^ XY_idx], where [XY_idx = X_idx ^
    Y_idx] and [idx0] is [k] with a zero inserted at the highest set bit of
    [XY_idx] ([k] itself when [XY_idx = 0], so that both indices are [k]),
    and with matrix number [(popcount(Y_idx) - 2 popcount(Y_idx & idx0) +
    2 popcount(Z_idx & idx0)) mod 4]. *)
Theorem apply_lambda_MOSQ_CR_calls {St param_t : Type} (fuel : nat)
    (start stop omp_threads : Z) (func : list Z → param_t → St → St)
    (qubits : list nat) (mat0 mat1 mat2 mat3 : param_t)
    (X_idx Y_idx Z_idx num_qubits_ : Z) (s : St) (r : option (option St)) :
  (64 < fuel)%nat →
  0 <= X_idx < 2 ^ 64 → 0 <= Y_idx < 2 ^ 64 →
  0 <= start < 2 ^ 63 → 0 <= stop < 2 ^ 64 →
  apply_lambda_MOSQ_CR fuel start stop omp_threads func qubits
    mat0 mat1 mat2 mat3 X_idx Y_idx Z_idx num_qubits_ s r →
  ∃ ks,
    ks ≡ₚ seqZ start (stop / 2 - start) ∧
    (omp_threads <= 1 → ks = seqZ start (stop / 2 - start)) ∧
    r = Some (Some (foldl
          (fun s k =>
             func (MOSQ_CR_pair (Z.lxor X_idx Y_idx) k)
               (nth (Z.to_nat (MOSQ_CR_matrix_number Y_idx Z_idx
                                 (MOSQ_CR_base (Z.lxor X_idx Y_idx) k)))
                    [mat0; mat1; mat2; mat3] mat0) s)
          s ks)).
Proof.
  intros Hfuel HX HY Hstart Hstop Hrun.
  pose proof (count_ones_while_spec 64 fuel Y_idx 0 HY ltac:(lia) ltac:(lia)
                ltac:(simpl; lia)) as HnumY.
  rewrite Z.add_0_l in HnumY. fold (popcount Y_idx) in HnumY.
  assert (to_int64 (Z.shiftr stop 1) = stop / 2) as HEND.
  { rewrite Z.shiftr_div_pow2 by lia. change (2 ^ 1) with 2.
    apply to_int64_small. split; [apply Z.div_pos; lia|].
    apply Z.div_lt_upper_bound; lia. }
  assert (0 <= stop / 2 < 2 ^ 63) as HEND'.
  { split; [apply Z.div_pos; lia|apply Z.div_lt_upper_bound; lia]. }
  assert (∀ ks, ks ≡ₚ seqZ start (stop / 2 - start) →
            run_units
              (apply_lambda_MOSQ_CR_body func mat0 mat1 mat2 mat3 X_idx Y_idx
                 Z_idx (popcount Y_idx)) ks s
            = Some (foldl
                (fun s k =>
                   func (MOSQ_CR_pair (Z.lxor X_idx Y_idx) k)
                     (nth (Z.to_nat (MOSQ_CR_matrix_number Y_idx Z_idx
                                       (MOSQ_CR_base (Z.lxor X_idx Y_idx) k)))
                          [mat0; mat1; mat2; mat3] mat0) s)
                s ks)) as Hunits.
  { intros ks Hks. apply run_units_total. rewrite Hks. apply Forall_seqZ.
    intros k Hk s'. apply MOSQ_CR_body_spec; lia. }
  destruct Hrun as [Hnone|num_Y Hsome Hthreads|num_Y ks Hsome Hthreads Hks].
  - rewrite HnumY in Hnone. discriminate.
  - rewrite HnumY in Hsome. injection Hsome as <-.
    exists (seqZ start (stop / 2 - start)).
    split; [reflexivity|]. split; [reflexivity|].
    rewrite HEND, (to_int64_small start) by exact Hstart.
    rewrite for_loopZ_run_units, seqZ_to_nat, Hunits by reflexivity. reflexivity.
  - rewrite HnumY in Hsome. injection Hsome as <-.
    rewrite HEND, (to_int64_small start) in Hks by exact Hstart.
    exists ks. split; [exact Hks|]. split; [lia|].
    rewrite (Hunits ks Hks). reflexivity.
Qed.

Lemma apply_lambda_MOSQ_CR_calls_witness :
  ∃ ks,
    ks ≡ₚ seqZ 0 (8 / 2 - 0) ∧
    (1 <= 1 → ks = seqZ 0 (8 / 2 - 0)) ∧
    Some (Some [([3; 5], 1); ([2; 4], 3); ([1; 7], 3); ([0; 6], 1)])
    = Some (Some (foldl
          (fun s k =>
             (fun inds m s => (inds, m) :: s)
               (MOSQ_CR_pair (Z.lxor 4 2) k)
               (nth (Z.to_nat (MOSQ_CR_matrix_number 2 1
                                 (MOSQ_CR_base (Z.lxor 4 2) k)))
                    [0; 1; 2; 3] 0) s)
          [] ks)).
Proof.
  apply (apply_lambda_MOSQ_CR_calls 65 0 8 1 (fun inds m s => (inds, m) :: s)
           [1%nat] 0 1 2 3 4 2 1 3 []).
  - lia.
  - lia.
  - lia.
  - lia.
  - lia.
  - change (Some (Some [([3; 5], 1); ([2; 4], 3); ([1; 7], 3); ([0; 6], 1)]))
      with (Some (for_loopZ
                    (apply_lambda_MOSQ_CR_body
                       (fun (inds : list Z) (m : Z) s => (inds, m) :: s)
                       0 1 2 3 4 2 1 1)
                    (to_int64 0) (Z.to_nat (to_int64 (Z.shiftr 8 1) - to_int64 0))
                    [])).
    apply apply_lambda_MOSQ_CR_sequential; [reflexivity|lia].
Defined.

Lemma MOSQ_CR_idx0_step (XY_idx k : Z) :
  0 < XY_idx < 2 ^ 64 → 0 <= k < 2 ^ 64 →
  MOSQ_CR_idx0 XY_idx k = index0_step (Z.to_nat (Z.log2 XY_idx)) k.
Proof.
  intros HXY Hk. unfold MOSQ_CR_idx0.
  rewrite (highest_one_loop_spec 64 XY_idx) by lia.
  rewrite wrap64_small by exact Hk.
  destruct (Z.eqb_spec XY_idx 0); [lia|].
  pose proof (Z.log2_nonneg XY_idx).
  destruct (Z.ltb_spec (-1) (Z.log2 XY_idx)); [reflexivity|lia].
Qed.

Lemma index0_step_clear (q : nat) (x y : Z) :
  index0_step q x = Some y → Z.testbit y (Z.of_nat q) = false.
Proof.
  intros Hstep. rewrite (index0_step_testbit q x y _ Hstep) by lia.
  destruct (Z.ltb_spec (Z.of_nat q) (Z.of_nat q)); [lia|].
  rewrite Z.eqb_refl. reflexivity.
Qed.

Lemma ldiff_pow2_clear (g : Z) (q : nat) :
  Z.testbit g (Z.of_nat q) = false → Z.ldiff g (2 ^ Z.of_nat q) = g.
Proof.
  intros Hbit. apply Z.bits_inj'. intros i Hi.
  rewrite ldiff_pow2_testbit by exact Hi.
  destruct (Z.eqb_spec i (Z.of_nat q)) as [->|_].
  - rewrite Hbit. reflexivity.
  - apply andb_true_r.
Qed.

(** X17: when [X_idx ^ Y_idx] is not 0 and below [2^M], the pairs of
    [apply_lambda_MOSQ_CR] for [k] in [[0, 2^(M-1))] partition the indices
    below [2^M]: the two indices of a pair are in range and different, and
    every index below [2^M] is in the pair of exactly one [k]. *)
Theorem MOSQ_CR_pairs_partition (XY_idx : Z) (M : nat) :
  (M ≤ 64)%nat → 0 < XY_idx < 2 ^ Z.of_nat M →
  (∀ k idx0,
     0 <= k < 2 ^ (Z.of_nat M - 1) → MOSQ_CR_idx0 XY_idx k = Some idx0 →
     0 <= idx0 < 2 ^ Z.of_nat M ∧ 0 <= Z.lxor idx0 XY_idx < 2 ^ Z.of_nat M ∧
     idx0 ≠ Z.lxor idx0 XY_idx) ∧
  (∀ f, 0 <= f < 2 ^ Z.of_nat M →
     ∃ k idx0,
       0 <= k < 2 ^ (Z.of_nat M - 1) ∧
       MOSQ_CR_idx0 XY_idx k = Some idx0 ∧
       (f = idx0 ∨ f = Z.lxor idx0 XY_idx) ∧
       ∀ k' idx0',
         0 <= k' < 2 ^ (Z.of_nat M - 1) → MOSQ_CR_idx0 XY_idx k' = Some idx0' →
         f = idx0' ∨ f = Z.lxor idx0' XY_idx → k' = k).
Proof.
  intros HM HXY.
  pose proof (pow2_le_64 M HM) as HpM.
  pose proof (log2_lt_nat XY_idx M HXY) as Hh.
  set (h := Z.to_nat (Z.log2 XY_idx)).
  assert (Z.of_nat h = Z.log2 XY_idx) as Hhz by (unfold h; lia).
  assert (Z.testbit XY_idx (Z.of_nat h) = true) as HbitXY.
  { rewrite Hhz. apply Z.bit_log2. lia. }
  assert (2 ^ (Z.of_nat M - 1) <= 2 ^ 63) as HpM1
    by (apply Z.pow_le_mono_r; lia).
  assert (∀ k idx0, 0 <= k < 2 ^ (Z.of_nat M - 1) →
            MOSQ_CR_idx0 XY_idx k = Some idx0 → index0_step h k = Some idx0)
    as Hstep.
  { intros k idx0 Hk Hidx. rewrite MOSQ_CR_idx0_step in Hidx by lia. exact Hidx. }
  assert (∀ idx0, Z.testbit idx0 (Z.of_nat h) = false → idx0 ≠ Z.lxor idx0 XY_idx)
    as Hdiff.
  { intros idx0 Hclear Heq.
    pose proof (f_equal (fun z => Z.testbit z (Z.of_nat h)) Heq) as Hb.
    cbv beta in Hb. rewrite Z.lxor_spec, Hclear, HbitXY in Hb. discriminate. }
  split.
  - intros k idx0 Hk Hidx. apply Hstep in Hidx; [|exact Hk].
    assert (0 <= idx0 < 2 ^ Z.of_nat M) as Hb.
    { pose proof (index0_step_bound h k idx0 (Z.of_nat M - 1) Hidx ltac:(lia) Hk)
        as Hb.
      replace (Z.of_nat M - 1 + 1) with (Z.of_nat M) in Hb by lia. exact Hb. }
    split; [exact Hb|]. split; [apply lxor_bound; lia|].
    apply Hdiff. exact (index0_step_clear h k idx0 Hidx).
  - intros f Hf.
    set (g := if Z.testbit f (Z.of_nat h) then Z.lxor f XY_idx else f).
    assert (Z.testbit g (Z.of_nat h) = false) as Hgbit.
    { unfold g. destruct (Z.testbit f (Z.of_nat h)) eqn:Hfb; [|exact Hfb].
      rewrite Z.lxor_spec, Hfb, HbitXY. reflexivity. }
    assert (0 <= g < 2 ^ Z.of_nat M) as Hg.
    { unfold g. destruct (Z.testbit f (Z.of_nat h)); [|exact Hf].
      apply lxor_bound; lia. }
    assert (f = g ∨ f = Z.lxor g XY_idx) as Hfg.
    { unfold g. destruct (Z.testbit f (Z.of_nat h)); [right|left; reflexivity].
      rewrite Z.lxor_assoc, Z.lxor_nilpotent, Z.lxor_0_r. reflexivity. }
    assert (0 <= remove_bit h g < 2 ^ (Z.of_nat M - 1)) as Hk.
    { apply (spectator_bits_bound [h] M g).
      - repeat constructor.
      - constructor; [lia|constructor].
      - exact Hg. }
    assert (index0_step h (remove_bit h g) = Some g) as Hback.
    { rewrite index0_step_remove_bit by lia.
      rewrite (ldiff_pow2_clear g h Hgbit). reflexivity. }
    exists (remove_bit h g), g. split; [exact Hk|]. split.
    { rewrite MOSQ_CR_idx0_step by lia. exact Hback. }
    split; [exact Hfg|].
    intros k' idx0' Hk' Hidx' Hf'. apply Hstep in Hidx'; [|exact Hk'].
    pose proof (index0_step_clear h k' idx0' Hidx') as Hclear'.
    assert (idx0' = g) as ->.
    { unfold g. destruct Hf' as [->| ->].
      - rewrite Hclear'. reflexivity.
      - rewrite Z.lxor_spec, Hclear', HbitXY. simpl.
        rewrite Z.lxor_assoc, Z.lxor_nilpotent, Z.lxor_0_r. reflexivity. }
    symmetry. apply (remove_bit_index0_step h k' g Hidx'). lia.
Qed.

Lemma MOSQ_CR_pairs_partition_witness :
  (∀ k idx0,
     0 <= k < 2 ^ (Z.of_nat 3 - 1) → MOSQ_CR_idx0 6 k = Some idx0 →
     0 <= idx0 < 2 ^ Z.of_nat 3 ∧ 0 <= Z.lxor idx0 6 < 2 ^ Z.of_nat 3 ∧
     idx0 ≠ Z.lxor idx0 6) ∧
  (∀ f, 0 <= f < 2 ^ Z.of_nat 3 →
     ∃ k idx0,
       0 <= k < 2 ^ (Z.of_nat 3 - 1) ∧
       MOSQ_CR_idx0 6 k = Some idx0 ∧
       (f = idx0 ∨ f = Z.lxor idx0 6) ∧
       ∀ k' idx0',
         0 <= k' < 2 ^ (Z.of_nat 3 - 1) → MOSQ_CR_idx0 6 k' = Some idx0' →
         f = idx0' ∨ f = Z.lxor idx0' 6 → k' = k).
Proof. apply (MOSQ_CR_pairs_partition 6 3); [lia|simpl; lia]. Defined.

(** ** Measurement, reset and saved amplitudes *)

(** A loop that writes [h (src[i])] at each index [i] fills the array in
    order. *)
Lemma fill_loop {A B : Type} (src : list A) (d : B) (h : A → B)
    (body : nat → list B → option (list B)) :
  (∀ i a x, src !! i = Some x → a !! i = Some d →
            body i a = Some (<[i:=h x]> a)) →
  ∀ (count lo : nat),
    (lo + count ≤ length src)%nat →
    for_loop body lo count
      ((h <$> take lo src) ++ replicate (length src - lo) d)
    = Some ((h <$> take (lo + count) src)
            ++ replicate (length src - (lo + count)) d).
Proof.
  intros Hbody. induction count as [|count IH]; intros lo Hlo.
  - rewrite Nat.add_0_r. reflexivity.
  - cbn [for_loop].
    destruct (lookup_lt_is_Some_2 src lo ltac:(lia)) as [x Hx].
    assert (length (h <$> take lo src) = lo) as Hpre.
    { rewrite length_fmap, length_take. lia. }
    rewrite (Hbody lo _ x Hx).
    2:{ rewrite lookup_app_r by (rewrite Hpre; lia). rewrite Hpre, Nat.sub_diag.
        destruct (length src - lo)%nat as [|m] eqn:Hm; [lia|]. reflexivity. }
    cbn [mbind option_bind].
    assert (<[lo:=h x]> ((h <$> take lo src) ++ replicate (length src - lo) d)
            = (h <$> take (S lo) src) ++ replicate (length src - S lo) d) as ->.
    { rewrite insert_app_r_alt by (rewrite Hpre; lia). rewrite Hpre, Nat.sub_diag.
      destruct (length src - lo)%nat as [|m] eqn:Hm; [lia|].
      assert (length src - S lo = m)%nat as -> by lia.
      rewrite (take_S_r src lo x Hx), fmap_app, <- app_assoc. reflexivity. }
    rewrite IH by lia.
    replace (lo + S count)%nat with (S lo + count)%nat by lia. reflexivity.
Qed.

Lemma fill_loop_range {A B : Type} (src : list A) (d : B) (h : A → B)
    (body : nat → list B → option (list B)) (lo hi : nat) :
  (∀ i a x, src !! i = Some x → a !! i = Some d →
            body i a = Some (<[i:=h x]> a)) →
  (lo ≤ hi ≤ length src)%nat →
  for_loop body lo (hi - lo)
    ((h <$> take lo src) ++ replicate (length src - lo) d)
  = Some ((h <$> take hi src) ++ replicate (length src - hi) d).
Proof.
  intros Hbody Hle. rewrite (fill_loop src d h body Hbody) by lia.
  replace (lo + (hi - lo))%nat with hi by lia. reflexivity.
Qed.

Lemma fill_loop_all {A B : Type} (src : list A) (d : B) (h : A → B)
    (body : nat → list B → option (list B)) :
  (∀ i a x, src !! i = Some x → a !! i = Some d →
            body i a = Some (<[i:=h x]> a)) →
  for_loop body 0 (length src) (replicate (length src) d) = Some (h <$> src).
Proof.
  intros Hbody.
  pose proof (fill_loop src d h body Hbody (length src) 0 ltac:(lia)) as Hfill.
  rewrite take_0, Nat.sub_0_r, Nat.add_0_l, firstn_all, Nat.sub_diag in Hfill.
  simpl in Hfill. rewrite app_nil_r in Hfill. exact Hfill.
Qed.

Section MeasurementProperties.
Context {Hn : Numeric} {Hc : Collaborators} {Hm : MeasureCollaborators}.

Lemma shl64_1_pow (N : nat) : (N < 64)%nat → shl64 1 (Z.of_nat N) = 2 ^ Z.of_nat N.
Proof.
  intros HN. unfold shl64. rewrite Z.shiftl_1_l. apply wrap64_small.
  split; [apply Z.pow_nonneg; lia|]. apply Z.pow_lt_mono_r; lia.
Qed.

Lemma to_nat_lt_pow2 (z : Z) (N : nat) :
  0 <= z < 2 ^ Z.of_nat N → (Z.to_nat z < 2 ^ N)%nat.
Proof.
  intros Hz. apply Nat2Z.inj_lt. rewrite Nat2Z.inj_pow, Z2Nat.id; lia.
Qed.

(** The first step of [measure_reset_update]: the projector on the
    measured state. *)
Lemma mdiag_projector (N : nat) (meas_state : Z) (v : complex) :
  (N < 64)%nat → 0 <= meas_state < 2 ^ Z.of_nat N →
  store (replicate (Z.to_nat (shl64 1 (Z.of_nat N))) c0) (Z.to_nat meas_state) v
  = Some (diag_projector (2 ^ N) (Z.to_nat meas_state) v).
Proof.
  intros HN Hm'. rewrite shl64_1_pow, pow2_to_nat by exact HN.
  apply store_replicate_projector, to_nat_lt_pow2, Hm'.
Qed.

(** When the final state is the measured one, only the projector is
    applied. *)
Lemma measure_reset_update_same (qubits : list nat) (meas_state : Z)
    (meas_prob : real) (st : State) :
  (length qubits < 64)%nat → 0 <= meas_state < 2 ^ Z.of_nat (length qubits) →
  measure_reset_update qubits meas_state meas_state meas_prob st
  = Some (qreg_apply_diagonal_matrix qubits
            (diag_projector (2 ^ length qubits) (Z.to_nat meas_state)
               (of_real (rdiv r1 (rsqrt meas_prob)))) st).
Proof.
  intros HN Hm'. unfold measure_reset_update.
  destruct (decide (length qubits = 1%nat)) as [HN1|HN1].
  - pose proof (mdiag_projector 1 meas_state
                  (of_real (rdiv r1 (rsqrt meas_prob))) ltac:(lia)) as Hp.
    rewrite HN1 in Hm'. specialize (Hp Hm').
    change (Z.to_nat (shl64 1 (Z.of_nat 1))) with 2%nat in Hp.
    rewrite Hp. cbn [mbind option_bind].
    rewrite decide_False by tauto. rewrite HN1. reflexivity.
  - rewrite mdiag_projector by assumption. cbn [mbind option_bind].
    rewrite decide_False by tauto. reflexivity.
Qed.

(** X18: a measurement only projects.  When the engine draws [outcome] (in
    range, with probability [p]), [apply_measure] makes one call on the
    amplitudes, the diagonal that is [1/sqrt(p)] at [outcome] and 0 elsewhere
    (no bit flip, no permutation), and stores the bits of [outcome] in the
    classical register. *)
Theorem apply_measure_projects (qubits cmemory cregister : list nat)
    (rng rng' : RngEngine) (st : State) (creg : creg_t) (outcome : Z) (p : real) :
  (length qubits < 64)%nat →
  rand_int rng (measure_probs qubits st) = (outcome, rng') →
  0 <= outcome < 2 ^ Z.of_nat (length qubits) →
  measure_probs qubits st !! Z.to_nat outcome = Some p →
  apply_measure qubits cmemory cregister rng st creg
  = Some (qreg_apply_diagonal_matrix qubits
            (diag_projector (2 ^ length qubits) (Z.to_nat outcome)
               (of_real (rdiv r1 (rsqrt p)))) st,
          store_measure (int2reg outcome 2 (length qubits)) cmemory cregister creg,
          rng').
Proof.
  intros HN Hrand Hout Hp. unfold apply_measure, sample_measure_with_prob.
  rewrite Hrand, Hp. cbn [mbind option_bind].
  rewrite measure_reset_update_same by assumption. reflexivity.
Qed.

(** The update of a reset: the projector on the measured state, then for a
    measured state other than 0 the move of that state to 0. *)
Lemma measure_reset_update_reset (qubits : list nat) (meas_state : Z)
    (meas_prob : real) (st : State) :
  (length qubits < 64)%nat →
  (meas_state ≠ 0 → length qubits ≠ 1%nat → (length qubits < 32)%nat) →
  0 <= meas_state < 2 ^ Z.of_nat (length qubits) →
  measure_reset_update qubits 0 meas_state meas_prob st
  = Some
      (let st1 :=
         qreg_apply_diagonal_matrix qubits
           (diag_projector (2 ^ length qubits) (Z.to_nat meas_state)
              (of_real (rdiv r1 (rsqrt meas_prob)))) st in
       if decide (meas_state = 0) then st1
       else if decide (length qubits = 1%nat) then qreg_apply_mcx qubits st1
       else qreg_apply_matrix qubits
              (swap_matrix (2 ^ length qubits) 0 (Z.to_nat meas_state)) st1).
Proof.
  intros HN HN32 Hmeas.
  destruct (decide (meas_state = 0)) as [->|Hne].
  { cbv zeta. apply measure_reset_update_same; assumption. }
  unfold measure_reset_update. cbv zeta.
  set (N := length qubits) in *.
  destruct (decide (N = 1%nat)) as [HN1|HN1].
  - pose proof (mdiag_projector 1 meas_state
                  (of_real (rdiv r1 (rsqrt meas_prob))) ltac:(lia)) as Hp.
    rewrite HN1 in Hmeas. specialize (Hp Hmeas).
    change (Z.to_nat (shl64 1 (Z.of_nat 1))) with 2%nat in Hp.
    rewrite Hp. cbn [mbind option_bind].
    rewrite decide_True by lia. rewrite HN1. reflexivity.
  - rewrite mdiag_projector by assumption. cbn [mbind option_bind].
    rewrite decide_True by lia.
    specialize (HN32 Hne HN1).
    rewrite shl64_1_pow by exact HN.
    set (D := (2 ^ N)%nat).
    assert (2 ^ Z.of_nat N = Z.of_nat D) as Hpow.
    { unfold D. rewrite Nat2Z.inj_pow. reflexivity. }
    rewrite Hpow in *.
    assert (Z.of_nat D * Z.of_nat D < 2 ^ 64) as HD.
    { rewrite <- Hpow, <- Z.pow_add_r by lia. apply Z.pow_lt_mono_r; lia. }
    rewrite (wrap64_small (Z.of_nat D * Z.of_nat D)) by lia.
    rewrite (wrap64_small (0 * _ + _)), (wrap64_small (meas_state * _ + _)) by nia.
    remember (Z.to_nat meas_state) as m eqn:Hmdef.
    assert (meas_state = Z.of_nat m) as -> by lia.
    change 0 with (Z.of_nat 0).
    rewrite <- !Nat2Z.inj_mul, <- !Nat2Z.inj_add, !Nat2Z.id.
    destruct (perm_build D 0 m ltac:(lia) ltac:(lia) ltac:(lia) HD)
      as (p1 & p2 & -> & Hp2 & Hloop).
    cbn [mbind option_bind]. rewrite Hp2. cbn [mbind option_bind]. rewrite Hloop.
    cbn [mbind option_bind]. f_equal. unfold apply_matrix.
    rewrite decide_False; [reflexivity|].
    unfold swap_matrix. rewrite length_fmap, length_seq.
    fold N. rewrite shl64_1_pow, Hpow by exact HN.
    assert (2 ≤ D)%nat by lia.
    nia.
Qed.

(** X19: a reset moves the measured state to 0.  When the engine draws
    [outcome] (with probability [p]), [apply_reset] applies the projector on
    [outcome] rescaled by [1/sqrt(p)] and then nothing more if [outcome = 0],
    a bit flip on a single qubit, and on several qubits the permutation
    matrix that swaps the basis states 0 and [outcome]. *)
Theorem apply_reset_to_zero (qubits : list nat) (rng rng' : RngEngine)
    (st : State) (outcome : Z) (p : real) :
  (length qubits < 64)%nat →
  (outcome ≠ 0 → length qubits ≠ 1%nat → (length qubits < 32)%nat) →
  rand_int rng (measure_probs qubits st) = (outcome, rng') →
  0 <= outcome < 2 ^ Z.of_nat (length qubits) →
  measure_probs qubits st !! Z.to_nat outcome = Some p →
  apply_reset qubits rng st
  = Some
      (let st1 :=
         qreg_apply_diagonal_matrix qubits
           (diag_projector (2 ^ length qubits) (Z.to_nat outcome)
              (of_real (rdiv r1 (rsqrt p)))) st in
       if decide (outcome = 0) then st1
       else if decide (length qubits = 1%nat) then qreg_apply_mcx qubits st1
       else qreg_apply_matrix qubits
              (swap_matrix (2 ^ length qubits) 0 (Z.to_nat outcome)) st1,
       rng').
Proof.
  intros HN HN32 Hrand Hout Hp. unfold apply_reset, sample_measure_with_prob.
  rewrite Hrand, Hp. cbn [mbind option_bind].
  rewrite measure_reset_update_reset by assumption. reflexivity.
Qed.

(** X21: [apply_save_amplitudes] throws [invalid_argument] exactly when the
    list of indices is empty; otherwise it returns, with one amplitude (for
    the type [save_amps]) or one probability (for any other type) per index,
    in the order of the indices. *)
Theorem apply_save_amplitudes_spec (type : OpType.OpType) (int_params : list Z)
    (st : State) :
  apply_save_amplitudes type int_params st
  = Some (if decide (int_params = []) then Throws invalid_argument
          else Returns
                 (if decide (type = OpType.save_amps)
                  then save_data_pershot (qv_get_state (qreg_ st) <$> int_params)
                  else save_data_average
                         (qv_probability (qreg_ st) <$> int_params))).
Proof.
  unfold apply_save_amplitudes.
  destruct (decide (int_params = [])) as [_|_]; [reflexivity|].
  destruct (decide (type = OpType.save_amps)) as [_|_].
  - rewrite (fill_loop_all int_params c0 (qv_get_state (qreg_ st))).
    + reflexivity.
    + intros i a x Hx Ha. rewrite Hx. cbn [mbind option_bind].
      apply store_Some. eapply lookup_lt_Some, Ha.
  - rewrite (fill_loop_all int_params r0 (qv_probability (qreg_ st))).
    + reflexivity.
    + intros i a x Hx Ha. rewrite Hx. cbn [mbind option_bind].
      apply store_Some. eapply lookup_lt_Some, Ha.
Qed.

(** One chunk converts the shots from its first one up to the first one of
    the next chunk. *)
Lemma convert_chunk (qubits : list nat) (allbit_samples : list Z)
    (shots npar i : Z) :
  length allbit_samples = Z.to_nat shots →
  0 < npar < 2 ^ 63 → 0 <= i < npar → 0 <= shots → shots * npar < 2 ^ 64 →
  convert_to_bit_lambda qubits allbit_samples shots npar i
    (((fun x => sv_map (sv_new (length qubits))
                  (sv_from_uint x (length qubits)) qubits)
        <$> take (Z.to_nat (shots * i / npar)) allbit_samples)
     ++ replicate (length allbit_samples - Z.to_nat (shots * i / npar))
          (sv_new (length qubits)))
  = Some
      (((fun x => sv_map (sv_new (length qubits))
                    (sv_from_uint x (length qubits)) qubits)
          <$> take (Z.to_nat (shots * (i + 1) / npar)) allbit_samples)
       ++ replicate (length allbit_samples - Z.to_nat (shots * (i + 1) / npar))
            (sv_new (length qubits))).
Proof.
  intros Hlen Hnpar Hi Hshots Hmul. unfold convert_to_bit_lambda.
  assert (0 <= shots * i <= shots * (i + 1)) as Hle1 by nia.
  assert (shots * (i + 1) <= shots * npar) as Hle2 by nia.
  rewrite (wrap64_small npar), (wrap64_small (shots * i)),
    (wrap64_small (shots * (i + 1))) by lia.
  assert (shots * i / npar <= shots * (i + 1) / npar) as Hmono
    by (apply Z.div_le_mono; lia).
  assert (shots * (i + 1) / npar <= shots) as Hend.
  { rewrite <- (Z.div_mul shots npar) at 2 by lia. apply Z.div_le_mono; lia. }
  assert (0 <= shots * i / npar) as H0 by (apply Z.div_pos; lia).
  set (a := Z.to_nat (shots * i / npar)) in *.
  set (b := Z.to_nat (shots * (i + 1) / npar)) in *.
  assert (a ≤ b ∧ b ≤ length allbit_samples)%nat as [Hab Hb] by (unfold a, b; lia).
  apply fill_loop_range; [|lia].
  intros j all x Hx Hall. rewrite Hx, Hall. cbn [mbind option_bind].
  apply store_Some. eapply lookup_lt_Some, Hall.
Qed.

(** X20: the chunks of [sample_measure] tile the shots.  With at least one
    thread and [shots * npar] below [2^64], running the conversion of the
    chunks [0 .. npar - 1], each covering the shots from [shots * i / npar]
    up to [shots * (i + 1) / npar], converts every shot exactly once: the
    result holds the converted sample of shot [j] at position [j]. *)
Theorem sample_measure_chunks (qubits : list nat) (allbit_samples : list Z)
    (shots threads_ : Z) :
  1 <= threads_ < 2 ^ 63 → 0 <= shots < 2 ^ 63 →
  shots * sample_measure_npar threads_ shots < 2 ^ 64 →
  length allbit_samples = Z.to_nat shots →
  for_loopZ
    (convert_to_bit_lambda qubits allbit_samples shots
       (sample_measure_npar threads_ shots))
    0 (Z.to_nat (sample_measure_npar threads_ shots))
    (replicate (Z.to_nat shots) (sv_new (length qubits)))
  = Some ((fun x => sv_map (sv_new (length qubits))
                      (sv_from_uint x (length qubits)) qubits)
          <$> allbit_samples).
Proof.
  intros Hthreads Hshots Hmul Hlen.
  set (npar := sample_measure_npar threads_ shots) in *.
  assert (npar = Z.min threads_ shots) as Hnpar.
  { unfold npar, sample_measure_npar. rewrite wrap64_small by lia.
    destruct (Z.ltb_spec shots threads_); [rewrite to_int64_small|]; lia. }
  destruct (Z.eq_dec shots 0) as [->|Hne].
  { assert (npar = 0) as -> by lia. destruct allbit_samples; [reflexivity|].
    simpl in Hlen. lia. }
  assert (0 < npar) as Hpos by lia.
  assert (∀ (count : nat) (i : Z),
            0 <= i → i + Z.of_nat count = npar →
            for_loopZ (convert_to_bit_lambda qubits allbit_samples shots npar)
              i count
              (((fun x => sv_map (sv_new (length qubits))
                           (sv_from_uint x (length qubits)) qubits) <$> take (Z.to_nat (shots * i / npar)) allbit_samples)
               ++ replicate (length allbit_samples - Z.to_nat (shots * i / npar))
                    (sv_new (length qubits)))
            = Some ((fun x => sv_map (sv_new (length qubits))
                           (sv_from_uint x (length qubits)) qubits) <$> allbit_samples)) as Hloop.
  { induction count as [|count IH]; intros i Hi Hsum.
    - cbn [for_loopZ]. assert (i = npar) as -> by lia.
      rewrite Z.div_mul by lia. rewrite <- Hlen, firstn_all, Nat.sub_diag.
      simpl. rewrite app_nil_r. reflexivity.
    - cbn [for_loopZ].
      rewrite (convert_chunk qubits allbit_samples shots npar i) by lia.
      cbn [mbind option_bind]. apply IH; lia. }
  specialize (Hloop (Z.to_nat npar) 0 ltac:(lia) ltac:(lia)).
  rewrite Z.mul_0_r, Z.div_0_l in Hloop by lia.
  change (Z.to_nat 0) with 0%nat in Hloop.
  rewrite take_0, Nat.sub_0_r, Hlen in Hloop. exact Hloop.
Qed.
End MeasurementProperties.

Section MeasurementExamples.
Local Existing Instance Z_numeric.
Local Existing Instance Z_collaborators.
Local Existing Instance Z_measure.

Lemma apply_measure_projects_witness :
  @apply_measure Z_numeric Z_collaborators Z_measure [0; 1]%nat [0; 1]%nat []
    [2; 5] (Z_state [0; 0; 3; 0]) []
  = Some (qreg_apply_diagonal_matrix [0; 1]%nat
            (diag_projector (2 ^ length [0; 1]%nat) (Z.to_nat 2)
               (of_real (rdiv r1 (rsqrt 9)))) (Z_state [0; 0; 3; 0]),
          store_measure (int2reg 2 2 (length [0; 1]%nat)) [0; 1]%nat [] [],
          [5]).
Proof.
  apply (@apply_measure_projects Z_numeric Z_collaborators Z_measure
           [0; 1]%nat [0; 1]%nat [] [2; 5] [5] (Z_state [0; 0; 3; 0]) [] 2 9).
  - simpl. lia.
  - reflexivity.
  - simpl. lia.
  - reflexivity.
Defined.

Lemma apply_reset_to_zero_witness :
  @apply_reset Z_numeric Z_collaborators Z_measure [0; 1]%nat [2; 5]
    (Z_state [0; 0; 3; 0])
  = Some
      (let st1 :=
         qreg_apply_diagonal_matrix [0; 1]%nat
           (diag_projector (2 ^ length [0; 1]%nat) (Z.to_nat 2)
              (of_real (rdiv r1 (rsqrt 9)))) (Z_state [0; 0; 3; 0]) in
       if decide (2 = 0) then st1
       else if decide (length [0; 1]%nat = 1%nat)
            then qreg_apply_mcx [0; 1]%nat st1
            else qreg_apply_matrix [0; 1]%nat
                   (swap_matrix (2 ^ length [0; 1]%nat) 0 (Z.to_nat 2)) st1,
       [5]).
Proof.
  apply (@apply_reset_to_zero Z_numeric Z_collaborators Z_measure
           [0; 1]%nat [2; 5] [5] (Z_state [0; 0; 3; 0]) 2 9).
  - simpl. lia.
  - simpl. lia.
  - reflexivity.
  - simpl. lia.
  - reflexivity.
Defined.

Lemma sample_measure_chunks_witness :
  for_loopZ
    (@convert_to_bit_lambda Z_numeric Z_collaborators Z_measure [0; 1]%nat
       [3; 0; 2; 1; 1] 5 (sample_measure_npar 2 5))
    0 (Z.to_nat (sample_measure_npar 2 5))
    (replicate (Z.to_nat 5) (sv_new (length [0; 1]%nat)))
  = Some ((fun x => sv_map (sv_new (length [0; 1]%nat))
                      (sv_from_uint x (length [0; 1]%nat)) [0; 1]%nat)
          <$> [3; 0; 2; 1; 1]).
Proof.
  apply (@sample_measure_chunks Z_numeric Z_collaborators Z_measure
           [0; 1]%nat [3; 0; 2; 1; 1] 5 2).
  - lia.
  - lia.
  - vm_compute. reflexivity.
  - reflexivity.
Defined.
End MeasurementExamples.

(** ** Gates *)

Lemma gateset_dom : dom gateset_ =@{gset string} list_to_set StateOpSet_gates.
Proof. apply (bool_decide_unpack _). vm_compute. exact I. Qed.

Lemma gateset_advertised (name : string) :
  name ∈ StateOpSet_gates ↔ is_Some (gateset_ !! name).
Proof.
  rewrite <- elem_of_dom, gateset_dom, elem_of_list_to_set. reflexivity.
Qed.

(** X22: the gate names advertised in [StateOpSet] are exactly the names
    that [gateset_] knows, and every value of [Gates] is the entry of an
    advertised name. *)
Theorem gateset_matches_opset :
  (∀ name, name ∈ StateOpSet_gates ↔ is_Some (gateset_ !! name)) ∧
  (∀ g, ∃ name, name ∈ StateOpSet_gates ∧ gateset_ !! name = Some g).
Proof.
  split; [exact gateset_advertised|].
  intros g.
  assert (∀ name, gateset_ !! name = Some g →
            name ∈ StateOpSet_gates ∧ gateset_ !! name = Some g) as Hin.
  { intros name Hname. split; [|exact Hname].
    apply gateset_advertised. rewrite Hname. eexists. reflexivity. }
  destruct g.
  - exists "id"%string. apply Hin. reflexivity.
  - exists "h"%string. apply Hin. reflexivity.
  - exists "s"%string. apply Hin. reflexivity.
  - exists "sdg"%string. apply Hin. reflexivity.
  - exists "t"%string. apply Hin. reflexivity.
  - exists "tdg"%string. apply Hin. reflexivity.
  - exists "rxx"%string. apply Hin. reflexivity.
  - exists "ryy"%string. apply Hin. reflexivity.
  - exists "rzz"%string. apply Hin. reflexivity.
  - exists "rzx"%string. apply Hin. reflexivity.
  - exists "mcx"%string. apply Hin. reflexivity.
  - exists "mcy"%string. apply Hin. reflexivity.
  - exists "mcz"%string. apply Hin. reflexivity.
  - exists "mcr"%string. apply Hin. reflexivity.
  - exists "mcrx"%string. apply Hin. reflexivity.
  - exists "mcry"%string. apply Hin. reflexivity.
  - exists "mcrz"%string. apply Hin. reflexivity.
  - exists "mcp"%string. apply Hin. reflexivity.
  - exists "mcu2"%string. apply Hin. reflexivity.
  - exists "mcu3"%string. apply Hin. reflexivity.
  - exists "mcu"%string. apply Hin. reflexivity.
  - exists "mcswap"%string. apply Hin. reflexivity.
  - exists "mcsx"%string. apply Hin. reflexivity.
  - exists "mcsxdg"%string. apply Hin. reflexivity.
  - exists "pauli"%string. apply Hin. reflexivity.
  - exists "ecr"%string. apply Hin. reflexivity.
  - exists "H+S"%string. apply Hin. reflexivity.
  - exists "SDG+H"%string. apply Hin. reflexivity.
  - exists "MOSQ"%string. apply Hin. reflexivity.
  - exists "MOSQ_CR"%string. apply Hin. reflexivity.
Qed.

Section GateProperties.
Context {Hn : Numeric} {Hc : Collaborators} {Hg : GateCollaborators}.

Lemma kernel_calls (f : statevec_t → statevec_t) (c : gate_call) (gs : GateState) :
  container_calls (kernel f c gs) = S (container_calls gs).
Proof.
  unfold container_calls, kernel. cbn [gate_state gate_calls calls].
  rewrite length_app. simpl. lia.
Qed.

Lemma apply_diagonal_matrix_calls (qubits : list nat) (diag : cvector_t)
    (st : State) :
  length (calls (apply_diagonal_matrix qubits diag st)) = S (length (calls st)).
Proof.
  unfold apply_diagonal_matrix.
  destruct (_ && _); [destruct (block_diagonal_matrix _ _ _ _)|];
    unfold qreg_apply_diagonal_matrix, with_qreg; cbn [calls];
    rewrite length_app; simpl; lia.
Qed.

Lemma apply_gate_phase_calls (qubit : nat) (phase : complex) (gs : GateState) :
  container_calls (apply_gate_phase qubit phase gs) = S (container_calls gs).
Proof.
  unfold container_calls, apply_gate_phase, on_state.
  cbn [gate_state gate_calls]. rewrite apply_diagonal_matrix_calls. lia.
Qed.

Lemma on_state_one_call (f : State → State) (gs : GateState) :
  (∀ st, length (calls (f st)) = S (length (calls st))) →
  container_calls (on_state f gs) = S (container_calls gs).
Proof.
  intros Hf. unfold container_calls, on_state. cbn [gate_state gate_calls].
  rewrite Hf. lia.
Qed.

(** With its operands present every case of the [switch] returns; the case
    of [id] leaves the state alone, every other case makes one call on the
    container. *)
Lemma apply_gate_switch_total (g : Gates.Gates) (op : Op) (gs : GateState) :
  (4 ≤ length (op_params op))%nat → (1 ≤ length (op_qubits op))%nat →
  (1 ≤ length (op_string_params op))%nat →
  ∃ gs', apply_gate_switch g op gs = Some gs' ∧
         (g = Gates.id → gs' = gs) ∧
         (g ≠ Gates.id → container_calls gs' = S (container_calls gs)).
Proof.
  intros Hparams Hqubits Hstrings.
  destruct (lookup_lt_is_Some_2 (op_params op) 0 ltac:(lia)) as [p0 Hp0].
  destruct (lookup_lt_is_Some_2 (op_params op) 1 ltac:(lia)) as [p1 Hp1].
  destruct (lookup_lt_is_Some_2 (op_params op) 2 ltac:(lia)) as [p2 Hp2].
  destruct (lookup_lt_is_Some_2 (op_params op) 3 ltac:(lia)) as [p3 Hp3].
  destruct (lookup_lt_is_Some_2 (op_qubits op) 0 ltac:(lia)) as [q0 Hq0].
  destruct (lookup_lt_is_Some_2 (op_string_params op) 0 ltac:(lia)) as [s0 Hs0].
  destruct g; unfold apply_gate_switch;
    rewrite ?Hp0, ?Hp1, ?Hp2, ?Hp3, ?Hq0, ?Hs0; cbn [mbind option_bind];
    (eexists; split; [reflexivity|]);
    (split; [intros Hid; try discriminate Hid; reflexivity|intros Hnid]);
    try (exfalso; apply Hnid; reflexivity);
    try apply kernel_calls; try apply apply_gate_phase_calls.
  - apply on_state_one_call. intros st. unfold qreg_apply_mcx, with_qreg.
    cbn [calls]. rewrite length_app. simpl. lia.
  - apply on_state_one_call. intros st. unfold qreg_apply_matrix, with_qreg.
    cbn [calls]. rewrite length_app. simpl. lia.
Qed.

(** Outside the chunked mode [apply_gate] looks the name up and enters the
    [switch]. *)
Lemma apply_gate_unchunked (fuel : nat) (op : Op) (gs : GateState) :
  (num_global_qubits_ (gate_state gs) ≤ qv_num_qubits (qreg_ (gate_state gs)))%nat
  ∨ qv_support_global_indexing (qreg_ (gate_state gs)) = true →
  apply_gate (S fuel) op gs
  = match gateset_ !! op_name op with
    | None => Some (Some (Throws invalid_argument))
    | Some g => Some (Returns <$> apply_gate_switch g op gs)
    end.
Proof.
  intros Hmode. cbn [apply_gate].
  assert (bool_decide
            (qv_num_qubits (qreg_ (gate_state gs))
             < num_global_qubits_ (gate_state gs))%nat
          && negb (qv_support_global_indexing (qreg_ (gate_state gs))) = false)
    as ->; [|reflexivity].
  destruct Hmode as [Hle|Hsup].
  - rewrite bool_decide_eq_false_2 by lia. reflexivity.
  - rewrite Hsup. apply andb_false_r.
Qed.

(** X23: outside the chunked mode, [apply_gate] throws [invalid_argument]
    on every gate name that [StateOpSet] does not advertise; on an
    advertised name whose operands are present (four parameters, a qubit, a
    string) it returns, having left the state as it was for [id] and [delay]
    and made exactly one call on the amplitude container for every other
    gate. *)
Theorem apply_gate_throws_iff_unadvertised (fuel : nat) (op : Op) (gs : GateState) :
  (num_global_qubits_ (gate_state gs) ≤ qv_num_qubits (qreg_ (gate_state gs)))%nat
  ∨ qv_support_global_indexing (qreg_ (gate_state gs)) = true →
  (op_name op ∉ StateOpSet_gates →
   apply_gate (S fuel) op gs = Some (Some (Throws invalid_argument))) ∧
  (op_name op ∈ StateOpSet_gates →
   (4 ≤ length (op_params op))%nat → (1 ≤ length (op_qubits op))%nat →
   (1 ≤ length (op_string_params op))%nat →
   ∃ g gs',
     gateset_ !! op_name op = Some g ∧
     apply_gate (S fuel) op gs = Some (Some (Returns gs')) ∧
     (g = Gates.id → gs' = gs) ∧
     (g ≠ Gates.id → container_calls gs' = S (container_calls gs))).
Proof.
  intros Hmode. rewrite (apply_gate_unchunked fuel op gs Hmode). split.
  - intros Hnot. destruct (gateset_ !! op_name op) as [g|] eqn:Hlook;
      [|reflexivity].
    exfalso. apply Hnot, gateset_advertised. rewrite Hlook. eexists. reflexivity.
  - intros Hin Hparams Hqubits Hstrings.
    apply gateset_advertised in Hin as [g Hlook]. rewrite Hlook.
    destruct (apply_gate_switch_total g op gs Hparams Hqubits Hstrings)
      as (gs' & Hswitch & Hid & Hcall).
    exists g, gs'. rewrite Hswitch. repeat split; assumption.
Qed.

Lemma sub_lor (c a b : Z) :
  Z.land c (Z.lor a b) = Z.lor a b ↔ Z.land c a = a ∧ Z.land c b = b.
Proof.
  split.
  - intros Hab. split; apply Z.bits_inj'; intros i Hi;
      pose proof (f_equal (fun z => Z.testbit z i) Hab) as Hb; cbv beta in Hb;
      rewrite Z.land_spec, Z.lor_spec in Hb; rewrite Z.land_spec;
      destruct (Z.testbit c i), (Z.testbit a i), (Z.testbit b i);
      simpl in *; congruence.
  - intros [Ha Hb]. apply Z.bits_inj'. intros i Hi.
    pose proof (f_equal (fun z => Z.testbit z i) Ha) as Ha'.
    pose proof (f_equal (fun z => Z.testbit z i) Hb) as Hb'. cbv beta in Ha', Hb'.
    rewrite Z.land_spec in Ha', Hb'. rewrite Z.land_spec, Z.lor_spec.
    destruct (Z.testbit c i), (Z.testbit a i), (Z.testbit b i);
      simpl in *; congruence.
Qed.

Lemma sub_pow2 (c k : Z) :
  0 <= k → Z.land c (2 ^ k) = 2 ^ k ↔ Z.testbit c k = true.
Proof.
  intros Hk. split.
  - intros Hc'. pose proof (f_equal (fun z => Z.testbit z k) Hc') as Hb.
    cbv beta in Hb. rewrite Z.land_spec, testbit_pow2, Z.eqb_refl in Hb by lia.
    rewrite andb_true_r in Hb. exact Hb.
  - intros Hbit. apply Z.bits_inj'. intros i Hi.
    rewrite Z.land_spec, testbit_pow2 by lia.
    destruct (Z.eqb_spec i k) as [->|_]; [rewrite Hbit; reflexivity|].
    apply andb_false_r.
Qed.

(** The chunk index has all the bits of the mask exactly when it has the bit
    of every control outside the chunk. *)
Lemma chunk_mask_subset (ci : Z) (num_qubits : nat) (qubits_out : list nat) :
  Forall (fun q => num_qubits ≤ q < num_qubits + 64)%nat qubits_out →
  ∀ mask,
    Z.land ci
      (foldl (fun mask q =>
                Z.lor mask (shl64 1 (wrap64 (Z.of_nat q - Z.of_nat num_qubits))))
             mask qubits_out)
    = foldl (fun mask q =>
               Z.lor mask (shl64 1 (wrap64 (Z.of_nat q - Z.of_nat num_qubits))))
            mask qubits_out
    ↔ Z.land ci mask = mask ∧
      forallb (fun q => Z.testbit ci (Z.of_nat (q - num_qubits))) qubits_out = true.
Proof.
  intros Hall. induction Hall as [|q qs Hq _ IH]; intros mask.
  - simpl. tauto.
  - cbn [foldl forallb]. rewrite IH, sub_lor, andb_true_iff.
    rewrite wrap64_small by lia.
    replace (Z.of_nat q - Z.of_nat num_qubits) with (Z.of_nat (q - num_qubits))
      by lia.
    rewrite shl64_1 by lia. rewrite sub_pow2 by lia. tauto.
Qed.

(** X24: in the chunked mode, a controlled gate ([c...] or [mc...]) with
    controls outside the chunk is applied, as the corrected operation, exactly
    when the chunk index has the bit of every such control; otherwise
    [apply_gate] returns with the state as it was, whatever the gate
    name. *)
Theorem apply_gate_chunk_controls (fuel : nat) (op : Op) (gs : GateState)
    (qubits_in qubits_out : list nat) :
  (qv_num_qubits (qreg_ (gate_state gs)) < num_global_qubits_ (gate_state gs))%nat →
  qv_support_global_indexing (qreg_ (gate_state gs)) = false →
  String.get 0 (op_name op) = Some "c"%char ∨ String.prefix "mc" (op_name op) = true →
  get_inout_ctrl_qubits op (qv_num_qubits (qreg_ (gate_state gs)))
  = (qubits_in, qubits_out) →
  qubits_out ≠ [] →
  Forall (fun q => qv_num_qubits (qreg_ (gate_state gs)) ≤ q
                   < qv_num_qubits (qreg_ (gate_state gs)) + 64)%nat qubits_out →
  apply_gate (S fuel) op gs
  = if forallb
         (fun q => Z.testbit (qv_chunk_index (qreg_ (gate_state gs)))
                     (Z.of_nat (q - qv_num_qubits (qreg_ (gate_state gs)))))
         qubits_out
    then apply_gate fuel (correct_gate_op_in_chunk op qubits_in) gs
    else Some (Some (Returns gs)).
Proof.
  intros Hchunk Hsup Hname Hctrl Hout Hrange. cbn [apply_gate].
  rewrite bool_decide_eq_true_2 by exact Hchunk. rewrite Hsup. cbn [negb andb].
  assert (bool_decide (String.get 0 (op_name op) = Some "c"%char)
          || String.prefix "mc" (op_name op) = true) as ->.
  { destruct Hname as [Hc'|Hmc].
    - rewrite bool_decide_eq_true_2 by exact Hc'. reflexivity.
    - rewrite Hmc. apply orb_true_r. }
  rewrite Hctrl.
  rewrite bool_decide_eq_true_2 by (destruct qubits_out; [congruence|simpl; lia]).
  pose proof (chunk_mask_subset (qv_chunk_index (qreg_ (gate_state gs)))
                (qv_num_qubits (qreg_ (gate_state gs))) qubits_out Hrange 0)
    as Hmask.
  fold (chunk_mask qubits_out (qv_num_qubits (qreg_ (gate_state gs)))) in Hmask.
  rewrite Z.land_0_r in Hmask.
  destruct (forallb _ qubits_out) eqn:Hbits.
  - rewrite (proj2 (Z.eqb_eq _ _)) by (apply Hmask; split; reflexivity).
    reflexivity.
  - rewrite (proj2 (Z.eqb_neq _ _)); [reflexivity|].
    intros Heq. apply Hmask in Heq as [_ Heq]. discriminate.
Qed.
End GateProperties.

Section GateExamples.
Local Existing Instance Z_numeric.

Lemma apply_gate_throws_iff_unadvertised_witness :
  let C := Z_collaborators in
  let G := Z_gates Z_collaborators in
  let gs := {| gate_state := Z_state [1; 0; 0; 0]; gate_calls := [] |} in
  let op name :=
    {| op_name := name; op_qubits := [0%nat]; op_params := [1; 2; 3; 4];
       op_string_params := ["X"%string] |} in
  (@apply_gate Z_numeric C G 1 (op "ccy"%string) gs
   = Some (Some (Throws invalid_argument))) ∧
  ∃ g gs',
    gateset_ !! "MOSQ"%string = Some g ∧
    @apply_gate Z_numeric C G 1 (op "MOSQ"%string) gs = Some (Some (Returns gs')) ∧
    (g = Gates.id → gs' = gs) ∧
    (g ≠ Gates.id →
     container_calls gs' = S (container_calls gs)).
Proof.
  intros C G gs op. split.
  - apply (proj1 (@apply_gate_throws_iff_unadvertised Z_numeric C G 0
                    (op "ccy"%string) gs (or_intror eq_refl))).
    apply (bool_decide_unpack _). vm_compute. exact I.
  - apply (proj2 (@apply_gate_throws_iff_unadvertised Z_numeric C G 0
                    (op "MOSQ"%string) gs (or_intror eq_refl))).
    + apply (bool_decide_unpack _). vm_compute. exact I.
    + simpl. lia.
    + simpl. lia.
    + simpl. lia.
Defined.

Lemma apply_gate_chunk_controls_witness :
  let C := Z_chunk_collaborators in
  let G := Z_gates Z_chunk_collaborators in
  let gs :=
    {| gate_state :=
         {| qreg_ := (2, [1; 0; 0; 0]); num_global_qubits_ := 4; calls := [] |};
       gate_calls := [] |} in
  let op :=
    {| op_name := "cx"%string; op_qubits := [2; 0]%nat; op_params := [];
       op_string_params := [] |} in
  @apply_gate Z_numeric C G 2 op gs
  = if forallb
         (fun q => Z.testbit (qv_chunk_index (qreg_ (gate_state gs)))
                     (Z.of_nat (q - qv_num_qubits (qreg_ (gate_state gs)))))
         [2%nat]
    then @apply_gate Z_numeric C G 1 (correct_gate_op_in_chunk op []) gs
    else Some (Some (Returns gs)).
Proof.
  intros C G gs op.
  apply (@apply_gate_chunk_controls Z_numeric C G 1 op gs [] [2%nat]).
  - vm_compute. lia.
  - reflexivity.
  - left. reflexivity.
  - reflexivity.
  - discriminate.
  - apply (bool_decide_unpack _). vm_compute. exact I.
Defined.
End GateExamples.

(** ** apply_op *)

(** X25: among the operation types that [StateOpSet] advertises, [jump] and
    [mark] are the two that [apply_op] has no case for: whatever its callees
    do, [apply_op] throws [invalid_argument] on them when the condition of
    the operation holds, and on no other advertised type does it do so for
    all callees.  When the condition does not hold, [apply_op] returns with
    nothing changed, whatever the type. *)
Theorem apply_op_advertised_types :
  (∀ type,
     type ∈ StateOpSet_optypes →
     (∀ (St Operation : Type) (C : @OpCallees St Operation) op final_op st,
        operation_type op = type → check_conditional op st = true →
        apply_op op final_op st = Some (Throws invalid_argument))
     ↔ type = OpType.jump ∨ type = OpType.mark) ∧
  (∀ (St Operation : Type) (C : @OpCallees St Operation) op final_op st,
     check_conditional op st = false → apply_op op final_op st = Some (Returns st)).
Proof.
  split.
  - intros type Hin. split.
    + intros Hthrows.
      specialize (Hthrows unit (OpType.OpType * string)%type (idle_callees true)
                    (type, ""%string) false tt eq_refl eq_refl).
      destruct type; try discriminate Hthrows;
        [left; reflexivity|right; reflexivity|].
      exfalso. revert Hin. apply (bool_decide_unpack _). vm_compute. exact I.
    + intros Htype St Operation C op final_op st Hop Hcond.
      unfold apply_op. rewrite Hcond, Hop.
      destruct Htype as [-> | ->]; reflexivity.
  - intros St Operation C op final_op st Hcond.
    unfold apply_op. rewrite Hcond. reflexivity.
Qed.

Lemma apply_op_advertised_types_witness :
  OpType.jump ∈ StateOpSet_optypes ∧
  @apply_op unit (OpType.OpType * string) (idle_callees true)
    (OpType.jump, "jump"%string) false tt
  = Some (Throws invalid_argument).
Proof.
  split; [apply (bool_decide_unpack _); vm_compute; exact I|].
  apply (proj2 (proj1 apply_op_advertised_types OpType.jump
                  ltac:(apply (bool_decide_unpack _); vm_compute; exact I))
           (or_introl eq_refl)).
  - reflexivity.
  - reflexivity.
Defined.

(** ** Reductions *)

(** The sequential loop over index blocks, on a list of fewer than 64
    positions below 64. *)
Lemma apply_lambda_seq_blocks {St : Type} (start stop : Z)
    (func : list Z → St → St) (qubits : list nat) (s : St) :
  (length qubits < 64)%nat → Forall (fun q => q < 64)%nat qubits →
  0 <= start < 2 ^ 63 →
  0 <= Z.shiftr stop (Z.of_nat (length qubits)) < 2 ^ 63 →
  apply_lambda_seq start stop func qubits s
  = Some (foldl (fun s inds => func inds s) s
            (index_block qubits <$>
               seqZ start (Z.shiftr stop (Z.of_nat (length qubits)) - start))).
Proof.
  intros HN H64 Hstart HEND. unfold apply_lambda_seq.
  rewrite decide_True by exact HN.
  rewrite (to_int64_small start) by exact Hstart.
  rewrite (to_int64_small (Z.shiftr stop _)) by exact HEND.
  rewrite for_loopZ_run_units, seqZ_to_nat.
  rewrite run_units_apply_lambda_body
    by (apply Forall_seqZ; intros k Hk; lia).
  rewrite (mapM_indexes qubits _ HN H64). reflexivity.
Qed.

Section ReductionProperties.
Context {Hn : Numeric}.

(** X26: run sequentially on a list of fewer than 64 positions below 64,
    [apply_reduction_lambda] has a defined result: the reduction variables
    start at 0 and [func] has updated them once for the block of each reduced
    index from [start] to [(stop >> |qubits|) - 1], in increasing order; the
    overload with parameters gives the result of the one without on the
    function with its parameters bound. *)
Theorem apply_reduction_lambda_sequential_sum {param_t : Type}
    (start stop omp_threads : Z)
    (func : list Z → param_t → real * real → real * real)
    (qubits : list nat) (params : param_t) (r r' : option (real * real)) :
  omp_threads <= 1 →
  (length qubits < 64)%nat → Forall (fun q => q < 64)%nat qubits →
  0 <= start < 2 ^ 63 →
  0 <= Z.shiftr stop (Z.of_nat (length qubits)) < 2 ^ 63 →
  apply_reduction_lambda_params start stop omp_threads func qubits params r →
  apply_reduction_lambda start stop omp_threads (fun inds => func inds params)
    qubits r' →
  r = r' ∧
  r = Some (foldl (fun v inds => func inds params v) (r0, r0)
              (index_block qubits <$>
                 seqZ start (Z.shiftr stop (Z.of_nat (length qubits)) - start))).
Proof.
  intros _ HN H64 Hstart HEND Hrun Hrun'.
  destruct Hrun as [_]. destruct Hrun' as [_]. split; [reflexivity|].
  apply apply_lambda_seq_blocks; assumption.
Qed.

End ReductionProperties.

Section ReductionExamples.
Local Existing Instance Z_numeric.

Lemma apply_reduction_lambda_sequential_sum_witness :
  @apply_lambda_seq (Z * Z) 0 8
    (fun inds => (fun inds (p : Z) (v : Z * Z) => (v.1 + p * hd 0 inds, v.2 + 1))
                   inds 2)
    [1%nat] (0, 0)
  = @apply_lambda_seq (Z * Z) 0 8
      (fun inds => (fun inds (p : Z) (v : Z * Z) => (v.1 + p * hd 0 inds, v.2 + 1))
                     inds 2)
      [1%nat] (0, 0) ∧
  @apply_lambda_seq (Z * Z) 0 8
    (fun inds => (fun inds (p : Z) (v : Z * Z) => (v.1 + p * hd 0 inds, v.2 + 1))
                   inds 2)
    [1%nat] (0, 0)
  = Some (foldl (fun v inds =>
                   (fun inds (p : Z) (v : Z * Z) => (v.1 + p * hd 0 inds, v.2 + 1))
                     inds 2 v)
            (0, 0)
            (index_block [1%nat] <$>
               seqZ 0 (Z.shiftr 8 (Z.of_nat (length [1%nat])) - 0))).
Proof.
  apply (@apply_reduction_lambda_sequential_sum Z_numeric Z 0 8 1
           (fun inds (p : Z) (v : Z * Z) => (v.1 + p * hd 0 inds, v.2 + 1))
           [1%nat] 2).
  - lia.
  - simpl. lia.
  - by_decision.
  - lia.
  - vm_compute. split; [discriminate|reflexivity].
  - apply (@apply_reduction_lambda_params_sequential Z_numeric Z). lia.
  - apply (@apply_reduction_lambda_sequential Z_numeric). lia.
Defined.
End ReductionExamples.

(** ** Matrices and diagonals *)

Section MatrixProperties.
Context {Hn : Numeric} {Hc : Collaborators}.

(** X27: the routing of [State::apply_matrix(qubits, vmat)] by the size of
    [vmat].  A vector of [2^N] entries is applied as a diagonal; the
    vectorized dense matrix of [N >= 1] qubits ([4^N] entries) never is, and
    goes to the container's [apply_matrix]; on no qubits the [1 x 1] matrix
    is applied as a diagonal. *)
Theorem apply_matrix_dense_or_diagonal (qubits : list nat) (vmat : cvector_t)
    (st : State) :
  (length qubits < 64)%nat →
  ((length vmat = 2 ^ length qubits)%nat →
   apply_matrix qubits vmat st = apply_diagonal_matrix qubits vmat st) ∧
  (qubits ≠ [] → (length vmat = 4 ^ length qubits)%nat →
   apply_matrix qubits vmat st = qreg_apply_matrix qubits vmat st) ∧
  (qubits = [] → length vmat = 1%nat →
   apply_matrix qubits vmat st = apply_diagonal_matrix qubits vmat st).
Proof.
  intros HN. unfold apply_matrix.
  rewrite shl64_1_pow by exact HN.
  assert (0 < 2 ^ Z.of_nat (length qubits)) as Hpos by (apply Z.pow_pos_nonneg; lia).
  split; [|split].
  - intros Hlen. rewrite decide_True; [reflexivity|].
    rewrite Hlen, Nat2Z.inj_pow. reflexivity.
  - intros Hne Hlen. rewrite decide_False; [reflexivity|].
    rewrite Hlen, Nat2Z.inj_pow. change (Z.of_nat 4) with (2 ^ 2).
    rewrite <- Z.pow_mul_r by lia. change (Z.of_nat 2) with 2.
    intros Heq. apply Z.pow_inj_r in Heq; [|lia|lia|lia].
    destruct qubits; [congruence|simpl in Heq; lia].
  - intros -> Hlen. rewrite decide_True; [reflexivity|].
    rewrite Hlen. reflexivity.
Qed.
End MatrixProperties.

Section MatrixExamples.
Local Existing Instance Z_numeric.
Local Existing Instance Z_collaborators.

Lemma apply_matrix_dense_or_diagonal_witness :
  ((length [0; 1; 1; 0] = 2 ^ length [0%nat])%nat →
   apply_matrix [0%nat] [0; 1; 1; 0] (Z_state [1; 0])
   = apply_diagonal_matrix [0%nat] [0; 1; 1; 0] (Z_state [1; 0])) ∧
  ([0%nat] ≠ [] → (length [0; 1; 1; 0] = 4 ^ length [0%nat])%nat →
   apply_matrix [0%nat] [0; 1; 1; 0] (Z_state [1; 0])
   = qreg_apply_matrix [0%nat] [0; 1; 1; 0] (Z_state [1; 0])) ∧
  ([0%nat] = [] → length [0; 1; 1; 0] = 1%nat →
   apply_matrix [0%nat] [0; 1; 1; 0] (Z_state [1; 0])
   = apply_diagonal_matrix [0%nat] [0; 1; 1; 0] (Z_state [1; 0])).
Proof.
  apply (@apply_matrix_dense_or_diagonal Z_numeric Z_collaborators
           [0%nat] [0; 1; 1; 0] (Z_state [1; 0])).
  simpl. lia.
Defined.
End MatrixExamples.
